(** * Snapshot/restore harness of djpeg.c: a shallow embedding

    The harness of [src/djpeg.c] enumerates the regions of its own address
    space ([load_maps]), turns them into anonymous mappings ([remap]),
    write-protects them through a userfaultfd, and then runs the target
    [ITERS] times.  A watcher thread ([uffd_monitor_thread]) saves every
    page the target is about to write for the first time; [restore_pages]
    copies the saved pages back after each call of the target.

    Memory is a function from addresses to bytes, the two static tables
    [maps] and [pages] are the lists of their live entries (their counters
    [n_maps] and [n_pages] are the lengths), and everything the program asks
    of the kernel is appended to a trace. *)

From Stdlib Require Import ZArith List Bool Ascii String Lia.
From Stdlib.Strings Require Import Byte.
Import ListNotations.
Local Open Scope Z_scope.

(** ** Constants *)

Definition PAGE_SIZE : Z := 4096.
(** [procmaps_struct maps[0x100]] and [page_t pages[0x1000]]. *)
Definition MAPS_CAPACITY : Z := 0x100.
Definition PAGES_CAPACITY : Z := 0x1000.
(** The scratch address of [remap]. *)
Definition SCRATCH_ADDR : Z := 0xdead0000.

(** Values of the Linux x86_64 headers the source includes
    (sys/mman.h, asm/unistd.h, poll.h, errno.h, linux/userfaultfd.h). *)
Definition PROT_READ : Z := 1.
Definition PROT_WRITE : Z := 2.
Definition PROT_EXEC : Z := 4.
Definition MAP_PRIVATE : Z := 0x02.
Definition MAP_FIXED : Z := 0x10.
Definition MAP_ANONYMOUS : Z := 0x20.
Definition __NR_mmap : Z := 9.
Definition __NR_mprotect : Z := 10.
Definition __NR_munmap : Z := 11.
Definition POLLIN : Z := 0x001.
Definition POLLERR : Z := 0x008.
Definition EAGAIN : Z := 11.
Definition UFFD_API : Z := 0xAA.
Definition UFFD_FEATURE_PAGEFAULT_FLAG_WP : Z := 1.
Definition UFFD_PAGEFAULT_FLAG_WRITE : Z := 1.
Definition UFFD_PAGEFAULT_FLAG_WP : Z := 2.
Definition UFFDIO_REGISTER_MODE_WP : Z := 2.
Definition UFFDIO_WRITEPROTECT_MODE_WP : Z := 1.
(** [sizeof(struct uffd_msg)]. *)
Definition sizeof_uffd_msg : Z := 32.

(** [unsigned long] arithmetic wraps at 64 bits. *)
Definition u64 (x : Z) : Z := x mod 2 ^ 64.

(** ** Region descriptors (pmparser) *)

Module Pmparser.

(** [procmaps_struct], without the [next] link: a parsed map is the list
    of its nodes. *)
Record procmaps_struct := {
  addr_start : Z;
  addr_end : Z;
  length : Z;
  perm : string;
  is_r : bool;
  is_w : bool;
  is_x : bool;
  is_p : bool;
  offset : Z;
  dev : string;
  inode : Z;
  pathname : string
}.

(** [procmaps_iterator]: [current] is the part of the chain not yet
    visited. *)
Record procmaps_iterator := {
  head : list procmaps_struct;
  current : list procmaps_struct
}.

Definition pmparser_next (it : procmaps_iterator)
  : option procmaps_struct * procmaps_iterator :=
  match current it with
  | [] => (None, it)
  | p_current :: rest => (Some p_current, {| head := head it; current := rest |})
  end.

End Pmparser.
Import Pmparser.

(** ** Memory and the dirty-page log *)

Definition memory := Z -> byte.

Definition store (a : Z) (v : byte) (m : memory) : memory :=
  fun x => if x =? a then v else m x.

Definition within (start len x : Z) : bool :=
  (start <=? x) && (x <? start + len).

(** [page_t]: [data] is the array [uint8_t data[PAGE_SIZE]], read at the
    indices [0 <= j < PAGE_SIZE]. *)
Record page_t := {
  addr : Z;
  data : Z -> byte
}.

(** [memcpy(dst_array, (void * )src, PAGE_SIZE)]. *)
Definition memcpy_from (m : memory) (src : Z) : Z -> byte :=
  fun j => if within 0 PAGE_SIZE j then m (src + j) else x00.

(** [memcpy((void * )dst, src_array, PAGE_SIZE)]. *)
Definition memcpy_to (dst : Z) (src : Z -> byte) (m : memory) : memory :=
  fun x => if within dst PAGE_SIZE x then src (x - dst) else m x.

(** ** What the program asks of its environment *)

Inductive uffd_request :=
| UFFDIO_API
| UFFDIO_REGISTER
| UFFDIO_UNREGISTER
| UFFDIO_WRITEPROTECT.

Inductive event :=
| ev_syscall (nr : Z) (args : list Z)
| ev_copy_loop (dst src len : Z)
| ev_userfaultfd
| ev_ioctl (request : uffd_request) (start len mode : Z)
| ev_pthread_create
| ev_cond_signal
| ev_cond_wait
| ev_redirect_stdout
| ev_setaffinity (cpu : Z)
| ev_clock_gettime (t : Z)
| ev_swap_old_stack
| ev_target_main
| ev_restore_pages
| ev_store_time (i : Z) (elapsed : Z)
| ev_dup2
| ev_report_times.

(** ** The state of the process *)

(** [mem] is the memory the target can reach; the tables of the harness
    ([maps], [pages], and [times] of bench.h) and its stack pointers are
    kept apart from it, as the section [.writeignored] keeps them out of
    the monitored regions. *)
Record world := mkWorld {
  mem : memory;
  (** kernel state: the page with this number is write-protected *)
  wp : Z -> bool;
  maps : list procmaps_struct;
  pages : list page_t;
  times : list Z;
  rsp : Z;
  old_stack : Z;
  trace : list event
}.

Definition n_maps (w : world) : Z := Z.of_nat (List.length (maps w)).
Definition n_pages (w : world) : Z := Z.of_nat (List.length (pages w)).

Definition set_mem (m : memory) (w : world) : world :=
  mkWorld m (wp w) (maps w) (pages w) (times w) (rsp w) (old_stack w) (trace w).
Definition set_wp (k : Z -> bool) (w : world) : world :=
  mkWorld (mem w) k (maps w) (pages w) (times w) (rsp w) (old_stack w) (trace w).
Definition push_map (m : procmaps_struct) (w : world) : world :=
  mkWorld (mem w) (wp w) (maps w ++ [m]) (pages w) (times w) (rsp w) (old_stack w) (trace w).
Definition push_page (p : page_t) (w : world) : world :=
  mkWorld (mem w) (wp w) (maps w) (pages w ++ [p]) (times w) (rsp w) (old_stack w) (trace w).
Definition push_time (t : Z) (w : world) : world :=
  mkWorld (mem w) (wp w) (maps w) (pages w) (times w ++ [t]) (rsp w) (old_stack w) (trace w).
Definition set_stacks (sp old : Z) (w : world) : world :=
  mkWorld (mem w) (wp w) (maps w) (pages w) (times w) sp old (trace w).
Definition emit (e : event) (w : world) : world :=
  mkWorld (mem w) (wp w) (maps w) (pages w) (times w) (rsp w) (old_stack w) (trace w ++ [e]).

(** A function of the program returns, or the process ends in [_exit], or
    the program stores past the end of one of its two tables, which C
    leaves undefined. *)
Inductive outcome (A : Type) : Type :=
| Ok (a : A)
| Exit (status : Z)
| Undefined.
Arguments Ok {A} a.
Arguments Exit {A} status.
Arguments Undefined {A}.

Definition bind {A B : Type} (o : outcome A) (k : A -> outcome B) : outcome B :=
  match o with
  | Ok a => k a
  | Exit s => Exit s
  | Undefined => Undefined
  end.

Notation "x <- o ;; k" := (bind o (fun x => k))
  (at level 61, o at next level, right associativity).

(** ** Model of the kernel *)

(** The page numbered [pn] lies in the range [start, start + len).  The
    ranges the program passes are page aligned. *)
Definition page_in_range (start len pn : Z) : bool :=
  within start len (pn * PAGE_SIZE).

(** Effect of a successful [UFFDIO_WRITEPROTECT]: the pages of the range
    become protected when the mode has [UFFDIO_WRITEPROTECT_MODE_WP], and
    lose the protection otherwise. *)
Definition kernel_writeprotect (start len mode : Z) (k : Z -> bool) : Z -> bool :=
  fun pn =>
    if page_in_range start len pn
    then negb (Z.land mode UFFDIO_WRITEPROTECT_MODE_WP =? 0)
    else k pn.

(** Effect of a raw system call on the contents of memory: an anonymous
    fixed mapping reads as zeroes, the other calls change no byte. *)
Definition kernel_syscall (nr : Z) (args : list Z) (m : memory) : memory :=
  match args with
  | [a; len; _; flags; _; _] =>
      if (nr =? __NR_mmap)
         && negb (Z.land flags MAP_ANONYMOUS =? 0)
         && negb (Z.land flags MAP_FIXED =? 0)
      then fun x => if within a len x then x00 else m x
      else m
  | _ => m
  end.

(** ** Raw system calls and [remap] *)

(** [my_syscallN(nr, args...)]: the call is recorded with the number and
    the arguments the program passes. *)
Definition my_syscall (nr : Z) (args : list Z) (w : world) : world :=
  emit (ev_syscall nr args) (set_mem (kernel_syscall nr args (mem w)) w).

(** [remap_mmap] is only called with [MAP_FIXED] by the harness, and the
    kernel then grants the requested address, which is the value returned. *)
Definition remap_mmap (a len prot flags fd off : Z) (w : world) : Z * world :=
  (a, my_syscall __NR_mmap [a; len; prot; flags; fd; off] w).

Definition remap_mprotect (a len prot : Z) (w : world) : world :=
  my_syscall __NR_mprotect [a; len; prot] w.

(** The source reads [my_syscall2(__NR_mprotect, addr, length)]. *)
Definition remap_munmap (a len : Z) (w : world) : world :=
  my_syscall __NR_mprotect [a; len] w.

(** [for (j = 0; j < len; j++) dst[j] = src[j];] with [n] passes left. *)
Fixpoint copy_bytes (dst src j : Z) (n : nat) (m : memory) : memory :=
  match n with
  | O => m
  | S n' => copy_bytes dst src (j + 1) n' (store (dst + j) (m (src + j)) m)
  end.

Definition copy_loop (dst src len : Z) (w : world) : world :=
  emit (ev_copy_loop dst src len)
       (set_mem (copy_bytes dst src 0 (Z.to_nat len) (mem w)) w).

(** One pass of the loop of [remap]. *)
Definition remap_region (cur_map : procmaps_struct) (w : world) : world :=
  let prot :=
    Z.lor (Z.lor (if is_r cur_map then PROT_READ else 0)
                 (if is_w cur_map then PROT_WRITE else 0))
          (if is_x cur_map then PROT_EXEC else 0) in
  let '(tmp, w) :=
    remap_mmap SCRATCH_ADDR (length cur_map) (Z.lor PROT_READ PROT_WRITE)
               (Z.lor (Z.lor MAP_PRIVATE MAP_ANONYMOUS) MAP_FIXED) (-1) 0 w in
  let w := copy_loop tmp (addr_start cur_map) (length cur_map) w in
  let w := remap_munmap (addr_start cur_map) (length cur_map) w in
  let '(new, w) :=
    remap_mmap (addr_start cur_map) (u64 (addr_end cur_map - addr_start cur_map))
               (Z.lor PROT_READ PROT_WRITE)
               (Z.lor (Z.lor MAP_PRIVATE MAP_ANONYMOUS) MAP_FIXED) (-1) 0 w in
  let w := copy_loop new tmp (length cur_map) w in
  let w := remap_munmap SCRATCH_ADDR (length cur_map) w in
  remap_mprotect (addr_start cur_map)
                 (u64 (addr_end cur_map - addr_start cur_map)) prot w.

Definition remap (w : world) : world :=
  fold_left (fun w cur_map => remap_region cur_map w) (maps w) w.

(** ** The watcher: [uffd_monitor_thread] *)

Record uffd_msg := {
  pagefault_flags : Z;
  pagefault_address : Z
}.

(** What the kernel answers during one pass of the watcher's loop: the
    results of [poll], of [read] (with [errno] and the message read) and of
    the [UFFDIO_WRITEPROTECT] request. *)
Record reply := {
  pollres : Z;
  revents : Z;
  readret : Z;
  errno : Z;
  msg : uffd_msg;
  ioctl_ret : Z
}.

(** One pass of the [for (;;)] loop.  [Ok w] is the state in which the loop
    goes round again. *)
Definition monitor_iter (r : reply) (w : world) : outcome world :=
  if (pollres r =? -1) || (pollres r =? 0) then Ok w
  else if negb (Z.land (revents r) POLLERR =? 0) then Exit 2
  else if Z.land (revents r) POLLIN =? 0 then Ok w
  else if readret r =? -1 then
    if errno r =? EAGAIN then Ok w else Exit 3
  else if negb (readret r =? sizeof_uffd_msg) then Exit 4
  else if negb (Z.land (pagefault_flags (msg r)) UFFD_PAGEFAULT_FLAG_WP =? 0) then
    let page_addr := Z.land (pagefault_address (msg r)) (Z.lnot (PAGE_SIZE - 1)) in
    if n_pages w <? PAGES_CAPACITY then
      let w := push_page {| addr := page_addr;
                            data := memcpy_from (mem w) page_addr |} w in
      let w := emit (ev_ioctl UFFDIO_WRITEPROTECT page_addr PAGE_SIZE 0) w in
      if ioctl_ret r =? -1 then Exit 5
      else Ok (set_wp (kernel_writeprotect page_addr PAGE_SIZE 0 (wp w)) w)
    else Undefined
  else Ok w.

(** The loop over a finite prefix of the kernel's answers. *)
Fixpoint monitor_loop (rs : list reply) (w : world) : outcome world :=
  match rs with
  | [] => Ok w
  | r :: rs' => w' <- monitor_iter r w ;; monitor_loop rs' w'
  end.

(** The first loop of the thread: every monitored region is write-protected;
    [rets i] is what the [i]-th request returns. *)
Fixpoint monitor_protect (rets : nat -> Z) (i : nat) (l : list procmaps_struct)
         (w : world) : outcome world :=
  match l with
  | [] => Ok w
  | cur_map :: rest =>
      let start := addr_start cur_map in
      let len := u64 (addr_end cur_map - addr_start cur_map) in
      let w := emit (ev_ioctl UFFDIO_WRITEPROTECT start len
                              UFFDIO_WRITEPROTECT_MODE_WP) w in
      if rets i =? -1 then Exit 1
      else monitor_protect rets (S i) rest
             (set_wp (kernel_writeprotect start len
                        UFFDIO_WRITEPROTECT_MODE_WP (wp w)) w)
  end.

Definition monitor_start (rets : nat -> Z) (w : world) : outcome world :=
  w' <- monitor_protect rets 0 (maps w) w ;;
  Ok (emit ev_cond_signal w').

(** ** The target, as the kernel lets it run *)

(** The notification the kernel queues when a store hits a write-protected
    page, delivered to a watcher whose [poll] and [read] succeed and whose
    request to drop the protection is granted. *)
Definition wp_fault (a : Z) : reply :=
  {| pollres := 1;
     revents := POLLIN;
     readret := sizeof_uffd_msg;
     errno := 0;
     msg := {| pagefault_flags := Z.lor UFFD_PAGEFAULT_FLAG_WRITE UFFD_PAGEFAULT_FLAG_WP;
               pagefault_address := a |};
     ioctl_ret := 0 |}.

(** A store of the target of one byte.  On a write-protected page the
    thread is held until the watcher has gone through the notification, and
    the store is then carried out. *)
Definition target_store (a : Z) (v : byte) (w : world) : outcome world :=
  if wp w (a / PAGE_SIZE) then
    w' <- monitor_iter (wp_fault a) w ;;
    Ok (set_mem (store a v (mem w')) w')
  else Ok (set_mem (store a v (mem w)) w).

(** [target_main], seen from the harness: the sequence of its stores. *)
Fixpoint target_main (ws : list (Z * byte)) (w : world) : outcome world :=
  match ws with
  | [] => Ok w
  | (a, v) :: ws' => w' <- target_store a v w ;; target_main ws' w'
  end.

(** ** [restore_pages] *)

Definition restore_pages (w : world) : world :=
  set_mem (fold_left (fun m cur_page => memcpy_to (addr cur_page) (data cur_page) m)
                     (pages w) (mem w)) w.

(** ** Setting up and tearing down the userfaultfd *)

(** What the environment decides during one run. *)
Record iteration := {
  t_start : Z;
  writes : list (Z * byte);
  t_end : Z
}.

Record environment := {
  proc_maps : option (list procmaps_struct);
  userfaultfd_ret : Z;
  api_ret : Z;
  api_version : Z;
  api_features : Z;
  register_ret : nat -> Z;
  protect_ret : nat -> Z;
  unregister_ret : nat -> Z;
  iterations : nat -> iteration
}.

Fixpoint register_loop (rets : nat -> Z) (i : nat) (l : list procmaps_struct)
         (w : world) : bool * world :=
  match l with
  | [] => (true, w)
  | cur_map :: rest =>
      let w := emit (ev_ioctl UFFDIO_REGISTER (addr_start cur_map)
                              (u64 (addr_end cur_map - addr_start cur_map))
                              UFFDIO_REGISTER_MODE_WP) w in
      if rets i =? -1 then (false, w) else register_loop rets (S i) rest w
  end.

Definition uffd_setup (e : environment) (w : world) : Z * world :=
  let w := emit ev_userfaultfd w in
  let uffd := userfaultfd_ret e in
  if uffd <? 0 then (0, w)
  else
    let w := emit (ev_ioctl UFFDIO_API UFFD_API 0 0) w in
    if negb (api_ret e =? 0) then (0, w)
    else if negb (api_version e =? UFFD_API) then (0, w)
    else if Z.land (api_features e) UFFD_FEATURE_PAGEFAULT_FLAG_WP =? 0 then (0, w)
    else
      let '(ok, w) := register_loop (register_ret e) 0 (maps w) w in
      if ok then (uffd, w) else (0, w).

Fixpoint deregister_loop (rets : nat -> Z) (i : nat) (l : list procmaps_struct)
         (w : world) : Z * world :=
  match l with
  | [] => (0, w)
  | cur_map :: rest =>
      let w := emit (ev_ioctl UFFDIO_UNREGISTER (addr_start cur_map)
                              (u64 (addr_end cur_map - addr_start cur_map)) 0) w in
      if rets i =? -1 then (1, w) else deregister_loop rets (S i) rest w
  end.

Definition uffd_deregister (e : environment) (w : world) : Z * world :=
  deregister_loop (unregister_ret e) 0 (maps w) w.

(** ** The driver *)

(** Modelled from the spec: [timespecDiff] is declared in bench.h, which is
    not among the sources; the spec asks of it only the elapsed duration
    between two monotonic timestamps. *)
Definition timespecDiff (t_end t_start : Z) : Z := t_end - t_start.

(** [swap_old_stack()]. *)
Definition swap_old_stack (w : world) : world :=
  emit ev_swap_old_stack (set_stacks (old_stack w) (rsp w) w).

Section Harness.

(** Fixed by the build, not by the sources: the addresses of the sections
    [.remap] and [.writeignored] and of [.got.plt], and the number of
    iterations. *)
Variables REMAP_ADDR WRITE_IGNORED_ADDR GOT_PLT_ADDR : Z.
Variable ITERS : Z.

(** The loop of [load_maps] over the chain [pmparser_next] walks. *)
Fixpoint load_maps_loop (cur : list procmaps_struct) (w : world) : outcome world :=
  match cur with
  | [] => Ok w
  | cur_map :: rest =>
      if (addr_start cur_map =? REMAP_ADDR)
         || (addr_start cur_map =? WRITE_IGNORED_ADDR)
      then load_maps_loop rest w
      else if negb (is_r cur_map || is_w cur_map || is_x cur_map)
      then load_maps_loop rest w
      else if (pathname cur_map =? "[vsyscall]")%string
              || (pathname cur_map =? "[vvar]")%string
              || (pathname cur_map =? "[vdso]")%string
      then load_maps_loop rest w
      else if addr_start cur_map =? GOT_PLT_ADDR
      then load_maps_loop rest w
      else if n_maps w <? MAPS_CAPACITY
      then load_maps_loop rest (push_map cur_map w)
      else Undefined
  end.

Definition load_maps (e : environment) (w : world) : outcome (Z * world) :=
  match proc_maps e with
  | None => Ok (-1, w)
  | Some regions => w' <- load_maps_loop regions w ;; Ok (0, w')
  end.

(** The body of the loop of [run] for the iteration [i]. *)
Definition run_iteration (i : nat) (it : iteration) (w : world) : outcome world :=
  let w := emit (ev_clock_gettime (t_start it)) w in
  let w := swap_old_stack w in
  w <- target_main (writes it) (emit ev_target_main w) ;;
  let w := swap_old_stack w in
  let w := restore_pages (emit ev_restore_pages w) in
  let w := emit (ev_clock_gettime (t_end it)) w in
  let elapsed := timespecDiff (t_end it) (t_start it) in
  Ok (emit (ev_store_time (Z.of_nat i) elapsed) (push_time elapsed w)).

(** [for (i = ...; i < ITERS; i++)] with [n] passes left. *)
Fixpoint run_loop (its : nat -> iteration) (i : nat) (n : nat) (w : world)
  : outcome world :=
  match n with
  | O => Ok w
  | S n' => w' <- run_iteration i (its i) w ;; run_loop its (S i) n' w'
  end.

Definition run (e : environment) (w : world) : outcome (Z * world) :=
  rw <- load_maps e w ;;
  let '(r, w) := rw in
  if negb (r =? 0) then Ok (1, w)
  else
    let w := remap w in
    let '(uffd, w) := uffd_setup e w in
    if uffd =? 0 then Ok (1, w)
    else
      w <- monitor_start (protect_ret e) (emit ev_pthread_create w) ;;
      let w := emit ev_cond_wait w in
      let w := emit ev_redirect_stdout w in
      let w := emit (ev_setaffinity 3) w in
      w <- run_loop (iterations e) 0 (Z.to_nat ITERS) w ;;
      let w := emit ev_dup2 w in
      let w := emit ev_report_times w in
      Ok (0, w).

End Harness.

(** * Vocabulary of the properties *)

(** The pass gets as far as reading a notification. *)
Definition poll_ready (r : reply) : Prop :=
  pollres r <> -1 /\ pollres r <> 0 /\
  Z.land (revents r) POLLERR = 0 /\ Z.land (revents r) POLLIN <> 0.

(** The pass reads a whole notification. *)
Definition full_read (r : reply) : Prop :=
  poll_ready r /\ readret r = sizeof_uffd_msg.

(** The region passes the four tests of the loop of [load_maps]. *)
Definition kept (REMAP_ADDR WRITE_IGNORED_ADDR GOT_PLT_ADDR : Z)
           (m : procmaps_struct) : bool :=
  negb ((addr_start m =? REMAP_ADDR) || (addr_start m =? WRITE_IGNORED_ADDR))
  && (is_r m || is_w m || is_x m)
  && negb ((pathname m =? "[vsyscall]")%string
           || (pathname m =? "[vvar]")%string
           || (pathname m =? "[vdso]")%string)
  && negb (addr_start m =? GOT_PLT_ADDR).

(** What one pass of the loop of [remap] asks for, in order. *)
Definition remap_requests (m : procmaps_struct) : list event :=
  [ ev_syscall __NR_mmap
      [SCRATCH_ADDR; length m; Z.lor PROT_READ PROT_WRITE;
       Z.lor (Z.lor MAP_PRIVATE MAP_ANONYMOUS) MAP_FIXED; -1; 0];
    ev_copy_loop SCRATCH_ADDR (addr_start m) (length m);
    ev_syscall __NR_mprotect [addr_start m; length m];
    ev_syscall __NR_mmap
      [addr_start m; u64 (addr_end m - addr_start m); Z.lor PROT_READ PROT_WRITE;
       Z.lor (Z.lor MAP_PRIVATE MAP_ANONYMOUS) MAP_FIXED; -1; 0];
    ev_copy_loop (addr_start m) SCRATCH_ADDR (length m);
    ev_syscall __NR_mprotect [SCRATCH_ADDR; length m];
    ev_syscall __NR_mprotect
      [addr_start m; u64 (addr_end m - addr_start m);
       Z.lor (Z.lor (if is_r m then PROT_READ else 0)
                    (if is_w m then PROT_WRITE else 0))
             (if is_x m then PROT_EXEC else 0)] ].

(** The number of the page a record is for. *)
Definition page_no (r : page_t) : Z := addr r / PAGE_SIZE.

(** The record the watcher appends for a fault at [a] in the state [w]. *)
Definition saved_page (a : Z) (w : world) : page_t :=
  {| addr := Z.land a (Z.lnot (PAGE_SIZE - 1));
     data := memcpy_from (mem w) (Z.land a (Z.lnot (PAGE_SIZE - 1))) |}.

(** The three ways a store of the target can go. *)
Inductive store_step (a : Z) (v : byte) (w : world) : outcome world -> Prop :=
| step_plain :
    wp w (a / PAGE_SIZE) = false ->
    store_step a v w (Ok (set_mem (store a v (mem w)) w))
| step_fault : forall w',
    wp w (a / PAGE_SIZE) = true ->
    n_pages w < PAGES_CAPACITY ->
    mem w' = store a v (mem w) ->
    pages w' = pages w ++ [saved_page a w] ->
    (forall pn, wp w' pn = if pn =? a / PAGE_SIZE then false else wp w pn) ->
    maps w' = maps w -> times w' = times w ->
    rsp w' = rsp w -> old_stack w' = old_stack w ->
    trace w' = trace w ++ [ev_ioctl UFFDIO_WRITEPROTECT
                                    (addr (saved_page a w)) PAGE_SIZE 0] ->
    store_step a v w (Ok w')
| step_overflow :
    wp w (a / PAGE_SIZE) = true ->
    PAGES_CAPACITY <= n_pages w ->
    store_step a v w Undefined.

(** Every logged page has lost its trap, and no page is logged twice. *)
Definition log_released (w : world) : Prop :=
  (forall r, In r (pages w) -> wp w (page_no r) = false) /\
  NoDup (map page_no (pages w)).

(** Since the state [w0] only unprotected pages were stored to, [new] is
    what the log has grown by, and it holds the contents of [w0]. *)
Definition since (w0 : world) (new : list page_t) (w : world) : Prop :=
  log_released w /\
  (forall x, wp w (x / PAGE_SIZE) = true -> mem w x = mem w0 x) /\
  pages w = pages w0 ++ new /\
  (forall r j, In r new -> 0 <= j < PAGE_SIZE -> data r j = mem w0 (addr r + j)).

(** The copies of [restore_pages] for the records [l], first to last. *)
Definition restore_fold (l : list page_t) (m : memory) : memory :=
  fold_left (fun m cur_page => memcpy_to (addr cur_page) (data cur_page) m) l m.

(** What the log is to the memory [m0] and the protection [k0] the loop
    started from: a page has lost its trap exactly when it has a record,
    the record holds the page as it was in [m0], no page has two records,
    every page still protected is as in [m0], and all logged pages are in
    [dirty]. *)
Record snapshot (m0 : memory) (k0 : Z -> bool) (dirty : list Z) (w : world)
  : Prop := {
  snap_aligned : forall r, In r (pages w) -> addr r = PAGE_SIZE * page_no r;
  snap_released : forall r, In r (pages w) -> wp w (page_no r) = false;
  snap_data : forall r j, In r (pages w) -> 0 <= j < PAGE_SIZE ->
                          data r j = m0 (addr r + j);
  snap_protected : forall x, wp w (x / PAGE_SIZE) = true -> mem w x = m0 x;
  snap_logged : forall pn, k0 pn = true -> wp w pn = false ->
                           exists r, In r (pages w) /\ page_no r = pn;
  snap_monotone : forall pn, wp w pn = true -> k0 pn = true;
  snap_nodup : NoDup (map page_no (pages w));
  snap_dirty : incl (map page_no (pages w)) dirty
}.

(** The monitored bytes hold what they held at the start. *)
Definition pristine (m0 : memory) (k0 : Z -> bool) (w : world) : Prop :=
  forall x, k0 (x / PAGE_SIZE) = true -> mem w x = m0 x.

(** The stores land in pages of [dirty], as far as protected pages go. *)
Definition stores_in_dirty (k0 : Z -> bool) (dirty : list Z)
           (ws : list (Z * byte)) : Prop :=
  forall a v, In (a, v) ws -> k0 (a / PAGE_SIZE) = true -> In (a / PAGE_SIZE) dirty.

(** The stores of the iterations [0 .. n-1]. *)
Definition writes_upto (its : nat -> iteration) (n : nat) : list (Z * byte) :=
  flat_map (fun i => writes (its i)) (seq 0 n).

(** The pages among those [k] protects that the stores [ws] hit, each
    listed once. *)
Definition dirty_pages (k : Z -> bool) (ws : list (Z * byte)) : list Z :=
  nodup Z.eq_dec (filter k (map (fun s => fst s / PAGE_SIZE) ws)).

(** The request by which the watcher drops the protection of one page. *)
Definition is_release (e : event) : Prop :=
  exists a, e = ev_ioctl UFFDIO_WRITEPROTECT a PAGE_SIZE 0.

(** The state in which [run] enters its loop, [w] being the state in which
    the watcher has signalled that it is ready. *)
Definition entering_loop (w : world) : world :=
  emit (ev_setaffinity 3) (emit ev_redirect_stdout (emit ev_cond_wait w)).

(** The state in which [target_main] is entered in an iteration. *)
Definition at_target (it : iteration) (w : world) : world :=
  emit ev_target_main (swap_old_stack (emit (ev_clock_gettime (t_start it)) w)).

(** The duration the iteration [i] stores. *)
Definition elapsed (its : nat -> iteration) (i : nat) : Z :=
  timespecDiff (t_end (its i)) (t_start (its i)).

(** The events of a trace that lie between a reading of the clock and the
    next one; [inside] tells whether a reading is pending. *)
Fixpoint timed_events (inside : bool) (tr : list event) : list event :=
  match tr with
  | [] => []
  | ev_clock_gettime _ :: tr' => timed_events (negb inside) tr'
  | e :: tr' =>
      if inside then e :: timed_events inside tr' else timed_events inside tr'
  end.

(** The event is a request to unregister a range from the userfaultfd. *)
Definition is_unregister (e : event) : bool :=
  match e with
  | ev_ioctl UFFDIO_UNREGISTER _ _ _ => true
  | _ => false
  end.

(** From [w] to [w'] the trace has only grown, and by no request to
    unregister a range. *)
Definition no_unregister (w w' : world) : Prop :=
  exists added,
    trace w' = trace w ++ added /\
    Forall (fun e => is_unregister e = false) added.

(** The request [uffd_deregister] makes for a region. *)
Definition unregister_request (m : procmaps_struct) : event :=
  ev_ioctl UFFDIO_UNREGISTER (addr_start m) (u64 (addr_end m - addr_start m)) 0.

(** * Small processes to run the harness on *)

Definition region (a_start a_end : Z) (r w x : bool) (path : string)
  : procmaps_struct :=
  {| addr_start := a_start; addr_end := a_end; length := a_end - a_start;
     perm := (String (if r then "r" else "-")
               (String (if w then "w" else "-")
                 (String (if x then "x" else "-") "p")))%char;
     is_r := r; is_w := w; is_x := x; is_p := true;
     offset := 0; dev := "08:01"; inode := 0; pathname := path |}.

Definition text_region := region 0x400000 0x401000 true false true "/usr/bin/djpeg".

Definition data_region := region 0x601000 0x602000 true true false "/usr/bin/djpeg".

Definition got_plt_region := region 0x603000 0x604000 true true false "/usr/bin/djpeg".

Definition remap_section := region 0x700000 0x701000 true false true "/usr/bin/djpeg".

Definition writeignored_section := region 0x800000 0x1900000 true true false "".

Definition guard_region := region 0x7f0000000000 0x7f0000001000 false false false "".

Definition vdso_region := region 0x7ffff7fc1000 0x7ffff7fc3000 true false true "[vdso]".

Definition regions_example : list procmaps_struct :=
  [text_region; data_region; got_plt_region; remap_section;
   writeignored_section; guard_region; vdso_region].

(** The target stores twice into the page at 0x601000. *)
Definition iteration_example (i : nat) : iteration :=
  {| t_start := 1000 * Z.of_nat i;
     writes := [(0x601008, "A"%byte); (0x601010, "B"%byte)];
     t_end := 1000 * Z.of_nat i + 250 |}.

Definition env_example : environment :=
  {| proc_maps := Some regions_example;
     userfaultfd_ret := 3;
     api_ret := 0;
     api_version := UFFD_API;
     api_features := UFFD_FEATURE_PAGEFAULT_FLAG_WP;
     register_ret := fun _ => 0;
     protect_ret := fun _ => 0;
     unregister_ret := fun _ => 0;
     iterations := iteration_example |}.

Definition world_init : world :=
  {| mem := fun x => if x =? 0x601008 then "a"%byte else x00;
     wp := fun _ => false;
     maps := []; pages := []; times := [];
     rsp := 0x80f000; old_stack := 0x7ffffffde000; trace := [] |}.

Definition reply_example : reply :=
  {| pollres := 1; revents := POLLIN; readret := 32; errno := 0;
     msg := {| pagefault_flags := 3; pagefault_address := 0x601234 |};
     ioctl_ret := 0 |}.

Definition world_example : world :=
  {| mem := fun x => if x =? 0x601008 then "a"%byte else x00;
     wp := fun pn => pn =? 0x601;
     maps := []; pages := []; times := [];
     rsp := 0x7ffc0000; old_stack := 0x7ffd0000; trace := [] |}.

Definition writes_example : list (Z * byte) :=
  [(0x601008, "A"%byte); (0x601010, "B"%byte)].

(** A process whose only monitored region is the data page at 0x601000,
    before the watcher starts. *)
Definition world_setup : world :=
  {| mem := fun x => if x =? 0x601008 then "a"%byte else x00;
     wp := fun _ => false;
     maps := [data_region]; pages := []; times := [];
     rsp := 0x80f000; old_stack := 0x7ffffffde000; trace := [] |}.

(** The watcher has protected the data page of [world_setup]. *)
Definition world_ready : world :=
  match monitor_start (fun _ => 0) world_setup with
  | Ok w0 => w0
  | _ => world_setup
  end.

(** A process with one monitored region of 4097 pages at 0x10000000.  The
    first call of the target stores one byte into each of the first 4096
    pages, the second call stores one byte into the last page. *)
Definition wide_region : procmaps_struct :=
  region 0x10000000 (0x10000000 + 4097 * PAGE_SIZE) true true false "".

Definition world_wide : world :=
  {| mem := fun _ => x00;
     wp := fun _ => false;
     maps := [wide_region]; pages := []; times := [];
     rsp := 0x80f000; old_stack := 0x7ffffffde000; trace := [] |}.

Definition iterations_wide (i : nat) : iteration :=
  match i with
  | O => {| t_start := 0;
            writes := map (fun k => (0x10000000 + PAGE_SIZE * Z.of_nat k, "A"%byte))
                          (seq 0 4096);
            t_end := 250 |}
  | S _ => {| t_start := 1000;
              writes := [(0x10000000 + PAGE_SIZE * 4096, "A"%byte)];
              t_end := 1250 |}
  end.

From Stdlib Require Import DecimalString.

(** * The rest of the harness *)

(** ** [main] and the stack of the harness *)


Section Main.

Variables REMAP_ADDR WRITE_IGNORED_ADDR GOT_PLT_ADDR ITERS : Z.

(** The address of the array [main_stack], which the linker fixes. *)
Variable MAIN_STACK : Z.



End Main.

(** ** Vocabulary of the further properties *)

(** The memory after the stores [ws], carried out in order. *)
Definition apply_stores (ws : list (Z * byte)) (m : memory) : memory :=
  fold_left (fun m s => store (fst s) (snd s) m) ws m.

(** What the last record of [l] that covers [x] holds for [x], if a record
    covers [x]. *)
Fixpoint last_cover (l : list page_t) (x : Z) : option byte :=
  match l with
  | [] => None
  | r :: l' =>
      match last_cover l' x with
      | Some v => Some v
      | None => if within (addr r) PAGE_SIZE x then Some (data r (x - addr r)) else None
      end
  end.

(** The requests of [uffd_setup] and of the first loop of the watcher for a
    region. *)
Definition register_request (m : procmaps_struct) : event :=
  ev_ioctl UFFDIO_REGISTER (addr_start m) (u64 (addr_end m - addr_start m))
           UFFDIO_REGISTER_MODE_WP.

Definition protect_request (m : procmaps_struct) : event :=
  ev_ioctl UFFDIO_WRITEPROTECT (addr_start m) (u64 (addr_end m - addr_start m))
           UFFDIO_WRITEPROTECT_MODE_WP.

(** The handshake of [uffd_setup] goes through. *)
Definition handshake_ok (e : environment) : Prop :=
  0 <= userfaultfd_ret e /\ api_ret e = 0 /\ api_version e = UFFD_API /\
  Z.land (api_features e) UFFD_FEATURE_PAGEFAULT_FLAG_WP <> 0.

(** The kernel grants the requests numbered below [n]. *)
Definition all_granted (rets : nat -> Z) (n : nat) : Prop :=
  forall j, (j < n)%nat -> rets j <> -1.

(** The request numbered [k] is the first the kernel refuses. *)
Definition first_refused (rets : nat -> Z) (k : nat) : Prop :=
  all_granted rets k /\ rets k = -1.

(** Some region of [l] holds the page numbered [pn]. *)
Definition in_some_region (l : list procmaps_struct) (pn : Z) : bool :=
  existsb (fun m => page_in_range (addr_start m)
                                  (u64 (addr_end m - addr_start m)) pn) l.




(** From [w] to [w'] nothing but the trace has changed. *)
Definition only_trace (w w' : world) : Prop :=
  mem w' = mem w /\ wp w' = wp w /\ maps w' = maps w /\ pages w' = pages w /\
  times w' = times w /\ rsp w' = rsp w /\ old_stack w' = old_stack w.

(** A pass of the watcher's loop after which the loop goes round again in
    the same state. *)
Definition retryable (r : reply) : Prop :=
  pollres r = -1 \/ pollres r = 0 \/
  (Z.land (revents r) POLLERR = 0 /\ Z.land (revents r) POLLIN = 0) \/
  (poll_ready r /\ readret r = -1 /\ errno r = EAGAIN) \/
  (full_read r /\ Z.land (pagefault_flags (msg r)) UFFD_PAGEFAULT_FLAG_WP = 0).

(** The region has the length the parser gives it, and lies clear of the
    scratch range [remap] uses for it. *)
Definition clear_of_scratch (m : procmaps_struct) : Prop :=
  length m = u64 (addr_end m - addr_start m) /\
  (addr_start m + length m <= SCRATCH_ADDR \/
   SCRATCH_ADDR + length m <= addr_start m).



(** * The marker processor of the target *)

(** Values of stdlib.h and jpeglib.h. *)
Definition EXIT_FAILURE : Z := 1.
Definition JPEG_COM : Z := 0xFE.
Definition JPEG_APP0 : Z := 0xE0.

(** [struct jpeg_source_mgr]: [in_buffer] holds the [bytes_in_buffer] bytes
    at [next_input_byte], and [refills] the buffers that the calls of
    [fill_input_buffer] to come will hand out. *)
Record jpeg_source_mgr := {
  in_buffer : list byte;
  refills : list (list byte)
}.

(** [fill_input_buffer], which the library provides: the next buffer, or
    FALSE when there is none. *)
Definition fill_input_buffer (src : jpeg_source_mgr) : bool * jpeg_source_mgr :=
  match refills src with
  | [] => (false, src)
  | b :: bs => (true, {| in_buffer := b; refills := bs |})
  end.

(** [jpeg_getc].  [ERREXIT] goes to the [error_exit] of [jpeg_std_error],
    which ends the process with [EXIT_FAILURE]; a refill that hands out no
    byte makes the decrement of [bytes_in_buffer] wrap and the read leave
    the buffer. *)
Definition jpeg_getc (src : jpeg_source_mgr) : outcome (Z * jpeg_source_mgr) :=
  src1 <- (if Z.of_nat (List.length (in_buffer src)) =? 0
           then let '(ok, src') := fill_input_buffer src in
                if ok then Ok src' else Exit EXIT_FAILURE
           else Ok src) ;;
  match in_buffer src1 with
  | [] => Undefined
  | b :: rest => Ok (Z.of_N (Byte.to_N b),
                     {| in_buffer := rest; refills := refills src1 |})
  end.

(** [isprint] in the C locale, in which the program runs. *)
Definition isprint (ch : Z) : bool := (0x20 <=? ch) && (ch <=? 0x7e).

Definition char_of (ch : Z) : ascii := ascii_of_N (Z.to_N ch).

(** [%ld] and [%d]. *)
Definition decimal (z : Z) : list ascii :=
  list_ascii_of_string (NilZero.string_of_int (Z.to_int z)).

(** [%03o] for a character code. *)
Definition octal3 (ch : Z) : list ascii :=
  [char_of (48 + ch / 64); char_of (48 + (ch / 8) mod 8); char_of (48 + ch mod 8)].

(** What [print_text_marker] writes to stderr for the character [ch] that
    follows [lastch]. *)
Definition emit_char (ch lastch : Z) : list ascii :=
  if ch =? 13 then ["010"%char]
  else if ch =? 10 then (if negb (lastch =? 13) then ["010"%char] else [])
  else if ch =? 92 then ["\"%char; "\"%char]
  else if isprint ch then [char_of ch]
  else "\"%char :: octal3 ch.

(** [while (--length >= 0)] with [n] passes left. *)
Fixpoint marker_loop (traceit : bool) (n : nat) (lastch : Z) (out : list ascii)
         (src : jpeg_source_mgr) : outcome (list ascii * jpeg_source_mgr) :=
  match n with
  | O => Ok (out, src)
  | S n' =>
      r <- jpeg_getc src ;;
      let '(ch, src') := r in
      if traceit
      then marker_loop traceit n' ch (out ++ emit_char ch lastch) src'
      else marker_loop traceit n' lastch out src'
  end.

(** [print_text_marker]: the value returned, what is written to stderr, and
    the source afterwards. *)
Definition print_text_marker (trace_level unread_marker : Z) (src : jpeg_source_mgr)
  : outcome (bool * list ascii * jpeg_source_mgr) :=
  let traceit := 1 <=? trace_level in
  r <- jpeg_getc src ;;
  let '(hi, src) := r in
  r <- jpeg_getc src ;;
  let '(lo, src) := r in
  let length := Z.shiftl hi 8 + lo - 2 in
  let out :=
    if traceit then
      if unread_marker =? JPEG_COM
      then list_ascii_of_string "Comment, length " ++ decimal length
           ++ list_ascii_of_string (String ":" (String "010" ""))
      else list_ascii_of_string "APP" ++ decimal (unread_marker - JPEG_APP0)
           ++ list_ascii_of_string ", length " ++ decimal length
           ++ list_ascii_of_string (String ":" (String "010" ""))
    else [] in
  r <- marker_loop traceit (Z.to_nat length) 0 out src ;;
  let '(out, src) := r in
  let out := if traceit then out ++ ["010"%char] else out in
  Ok (true, out, src).

(** The bytes the source has yet to deliver. *)
Definition pending (src : jpeg_source_mgr) : list byte :=
  in_buffer src ++ List.concat (refills src).

(** No refill is empty. *)
Definition well_fed (src : jpeg_source_mgr) : Prop :=
  Forall (fun b => b <> []) (refills src).

(** A character that is safe to show: printable, or a newline. *)
Definition shown (c : ascii) : bool :=
  (c =? "010")%char || isprint (Z.of_N (N_of_ascii c)).

Definition byte_code (b : byte) : Z := Z.of_N (Byte.to_N b).

(** A comment marker of four characters, split over two buffers. *)
Definition source_example : jpeg_source_mgr :=
  {| in_buffer := [x00; x06; "h"%byte];
     refills := [["i"%byte; x0d; x0a]; [xff; xd9]] |}.

(** The text that the loop of [print_text_marker] writes for the bytes
    [body] when the character before them was [lastch]. *)
Fixpoint text_of (lastch : Z) (body : list byte) : list ascii :=
  match body with
  | [] => []
  | b :: bs => emit_char (byte_code b) lastch ++ text_of (byte_code b) bs
  end.

(** The length that the two bytes of a marker's length word announce for
    the rest of the marker. *)
Definition announced (hi lo : byte) : Z :=
  byte_code hi * 256 + byte_code lo - 2.

(** A byte that [print_text_marker] writes as it is. *)
Definition plain (b : byte) : bool :=
  isprint (byte_code b) && negb (byte_code b =? 92).

(** * The parser of the memory map (pmparser) *)

Module Parser.

(** linux/limits.h. *)
Definition PATH_MAX : nat := 4096.
Definition PROCMAPS_LINE_MAX_LENGTH : nat := PATH_MAX + 100.

Definition NUL : ascii := "000"%char.
Definition NL : ascii := "010"%char.

(** An array of [char]: its cells. *)
Definition carray := list ascii.

(** [a[i] = c]; there is no such cell when [i] is not below the size. *)
Fixpoint put (i : nat) (c : ascii) (a : carray) : option carray :=
  match a, i with
  | [], _ => None
  | _ :: t, O => Some (c :: t)
  | x :: t, S i' =>
      match put i' c t with
      | Some t' => Some (x :: t')
      | None => None
      end
  end.

(** The string that starts at the first cell: the cells before the first
    NUL, if there is one in the array. *)
Fixpoint cstring (a : carray) : option (list ascii) :=
  match a with
  | [] => None
  | c :: t =>
      if (c =? NUL)%char then Some []
      else match cstring t with
           | Some s => Some (c :: s)
           | None => None
           end
  end.

(** [c == '\t' || c == ' ']. *)
Definition blank (c : ascii) : bool := ((c =? "009") || (c =? " "))%char.

(** ** [_pmparser_split_line] *)

(** [while (!stop(buf[i])) { dst[i-orig] = buf[i]; i++; }], where [buf]
    stands for the cells of the buffer from [i] on and [k] for [i-orig].
    A read past the last cell of the buffer and a store past the last cell
    of [dst] are undefined. *)
Fixpoint copy_until (stop : ascii -> bool) (buf : list ascii) (k : nat) (dst : carray)
  : outcome (list ascii * nat * carray) :=
  match buf with
  | [] => Undefined
  | c :: rest =>
      if stop c then Ok (buf, k, dst)
      else match put k c dst with
           | Some dst' => copy_until stop rest (S k) dst'
           | None => Undefined
           end
  end.

(** The loop above followed by [dst[i-orig] = '\0']. *)
Definition copy_field (stop : ascii -> bool) (buf : list ascii) (dst : carray)
  : outcome (list ascii * carray) :=
  r <- copy_until stop buf 0 dst ;;
  let '(rest, k, dst) := r in
  match put k NUL dst with
  | Some dst' => Ok (rest, dst')
  | None => Undefined
  end.

(** [while (buf[i]=='\t' || buf[i]==' ') i++;]. *)
Fixpoint skip_blanks (buf : list ascii) : outcome (list ascii) :=
  match buf with
  | [] => Undefined
  | c :: rest => if blank c then skip_blanks rest else Ok buf
  end.

(** The seven arrays that [_pmparser_split_line] fills. *)
Record locals := {
  addr1 : carray;
  addr2 : carray;
  perm : carray;
  offset : carray;
  dev : carray;
  inode : carray;
  pathname : carray
}.

Definition _pmparser_split_line (buf : carray) (l : locals) : outcome locals :=
  (* addr1 *)
  r <- copy_field (fun c => (c =? "-")%char) buf (addr1 l) ;;
  let '(rest, addr1) := r in
  match rest with
  | [] => Undefined
  | _ :: rest =>
      (* addr2 *)
      r <- copy_field blank rest (addr2 l) ;;
      let '(rest, addr2) := r in
      (* perm *)
      rest <- skip_blanks rest ;;
      r <- copy_field blank rest (perm l) ;;
      let '(rest, perm) := r in
      (* offset *)
      rest <- skip_blanks rest ;;
      r <- copy_field blank rest (offset l) ;;
      let '(rest, offset) := r in
      (* dev *)
      rest <- skip_blanks rest ;;
      r <- copy_field blank rest (dev l) ;;
      let '(rest, device) := r in
      (* inode *)
      rest <- skip_blanks rest ;;
      r <- copy_field blank rest (inode l) ;;
      let '(rest, inode) := r in
      (* pathname *)
      match put 0 NUL (pathname l) with
      | None => Undefined
      | Some pathname =>
          rest <- skip_blanks rest ;;
          r <- copy_field (fun c => blank c || (c =? NL)%char) rest pathname ;;
          let '(_, pathname) := r in
          Ok {| addr1 := addr1; addr2 := addr2; perm := perm; offset := offset;
                dev := device; inode := inode; pathname := pathname |}
      end
  end.

(** ** The stream *)

(** A stream open for reading: what is left to read, and its end-of-file
    indicator. *)
Record FILE := {
  unread : list ascii;
  at_eof : bool
}.

(** What [fgets] takes when it may store [n] characters: up to and
    including a newline; the flag tells that it met the end of the file. *)
Fixpoint take_line (n : nat) (s : list ascii) : list ascii * list ascii * bool :=
  match n with
  | O => ([], s, false)
  | S n' =>
      match s with
      | [] => ([], [], true)
      | c :: rest =>
          if (c =? NL)%char then ([c], rest, false)
          else let '(l, r, e) := take_line n' rest in (c :: l, r, e)
      end
  end.

(** The first cells of [a] replaced by [s]. *)
Fixpoint overwrite (s : list ascii) (a : carray) : option carray :=
  match s, a with
  | [], _ => Some a
  | c :: s', _ :: a' =>
      match overwrite s' a' with
      | Some r => Some (c :: r)
      | None => None
      end
  | _ :: _, [] => None
  end.

(** [fgets(buf, n, file)] as the C standard has it: at the end of the file
    with nothing read, the array is left as it was. *)
Definition fgets (buf : carray) (n : nat) (f : FILE) : outcome (carray * FILE) :=
  let '(line, rest, e) := take_line (n - 1) (unread f) in
  let f' := {| unread := rest; at_eof := at_eof f || e |} in
  match line, e with
  | [], true => Ok (buf, f')
  | _, _ =>
      match overwrite (line ++ [NUL]) buf with
      | Some buf' => Ok (buf', f')
      | None => Undefined
      end
  end.

Definition feof (f : FILE) : bool := at_eof f.

(** ** The chained list *)

(** [procmaps_struct] with its [next] link.  A pointer to a node is the
    rank of the [malloc] that made it. *)
Record procmaps_struct := {
  area : Pmparser.procmaps_struct;
  next : option nat
}.

Record procmaps_iterator := {
  head : option nat;
  current : option nat
}.

Definition heap := list procmaps_struct.

(** [p->next = q]. *)
Fixpoint set_next (p : nat) (q : option nat) (h : heap) : option heap :=
  match h, p with
  | [], _ => None
  | x :: t, O => Some ({| area := area x; next := q |} :: t)
  | x :: t, S p' =>
      match set_next p' q t with
      | Some t' => Some (x :: t')
      | None => None
      end
  end.

(** [strcpy(dst, src)] into an array of [size] cells: the string copied. *)
Definition strcpy (size : nat) (src : carray) : outcome string :=
  match cstring src with
  | Some s =>
      if Nat.ltb (List.length s) size then Ok (string_of_list_ascii s)
      else Undefined
  | None => Undefined
  end.

(** [a[i]], read. *)
Definition cell (a : carray) (i : nat) : outcome ascii :=
  match nth_error a i with
  | Some c => Ok c
  | None => Undefined
  end.

(** An [unsigned long] stored in a [long]. *)
Definition to_long (v : Z) : Z := if v <? 2 ^ 63 then v else v - 2 ^ 64.

(** The state of [pmparser_parse] in its loop. *)
Record frame := {
  file : FILE;
  buf : carray;
  vars : locals;
  blocks : heap;
  ind : nat;
  list_maps : option nat;
  current_node : option nat
}.

Section Libc.

(** [fopen(path, "r")]: the content of the file, when it can be opened. *)
Variable fopen : string -> option (list ascii).
(** [sscanf(s, "%lx", &x)]: the value stored, when the string converts. *)
Variable sscanf_lx : list ascii -> option Z.
Variable atoi : list ascii -> Z.
(** What the block of the [k]-th [malloc] holds when it is handed out;
    [malloc] is taken to succeed. *)
Variable fresh : nat -> Pmparser.procmaps_struct.
(** What the cells of a local array hold before the first store. *)
Variable stale : string -> nat -> ascii.

Definition auto (name : string) (size : nat) : carray :=
  map (stale name) (seq 0 size).

(** The statements of the loop that fill the node [tmp]. *)
Definition fill_node (k : nat) (l : locals) : outcome Pmparser.procmaps_struct :=
  s1 <- match cstring (addr1 l) with Some s => Ok s | None => Undefined end ;;
  s2 <- match cstring (addr2 l) with Some s => Ok s | None => Undefined end ;;
  let addr_start :=
    match sscanf_lx s1 with Some v => v | None => Pmparser.addr_start (fresh k) end in
  let addr_end :=
    match sscanf_lx s2 with Some v => v | None => Pmparser.addr_end (fresh k) end in
  let length := u64 (addr_end - addr_start) in
  perm_s <- strcpy 5 (perm l) ;;
  c0 <- cell (perm l) 0 ;;
  c1 <- cell (perm l) 1 ;;
  c2 <- cell (perm l) 2 ;;
  c3 <- cell (perm l) 3 ;;
  s3 <- match cstring (offset l) with Some s => Ok s | None => Undefined end ;;
  let offset :=
    match sscanf_lx s3 with
    | Some v => to_long v
    | None => Pmparser.offset (fresh k)
    end in
  dev_s <- strcpy 12 (dev l) ;;
  s4 <- match cstring (inode l) with Some s => Ok s | None => Undefined end ;;
  path_s <- strcpy 600 (pathname l) ;;
  Ok {| Pmparser.addr_start := addr_start;
        Pmparser.addr_end := addr_end;
        Pmparser.length := length;
        Pmparser.perm := perm_s;
        Pmparser.is_r := (c0 =? "r")%char;
        Pmparser.is_w := (c1 =? "w")%char;
        Pmparser.is_x := (c2 =? "x")%char;
        Pmparser.is_p := (c3 =? "p")%char;
        Pmparser.offset := offset;
        Pmparser.dev := dev_s;
        Pmparser.inode := atoi s4;
        Pmparser.pathname := path_s |}.

(** One pass of [while (!feof(file))]. *)
Definition parse_body (st : frame) : outcome frame :=
  r <- fgets (buf st) PROCMAPS_LINE_MAX_LENGTH (file st) ;;
  let '(buf, file) := r in
  (* allocate a node *)
  let tmp := List.length (blocks st) in
  (* fill the node *)
  vars <- _pmparser_split_line buf (vars st) ;;
  a <- fill_node tmp vars ;;
  let blocks := blocks st ++ [{| area := a; next := None |}] in
  (* attach the node *)
  let '(list_maps, current_node) :=
    if Nat.eqb (ind st) 0 then (Some tmp, Some tmp)
    else (list_maps st, current_node st) in
  match current_node with
  | None => Undefined
  | Some cur =>
      match set_next cur (Some tmp) blocks with
      | None => Undefined
      | Some blocks =>
          Ok {| file := file; buf := buf; vars := vars; blocks := blocks;
                ind := S (ind st); list_maps := list_maps;
                current_node := Some tmp |}
      end
  end.

(** [while (!feof(file)) ...]; every pass reads a character or sets the
    end-of-file indicator, so that [fuel] passes are enough when [fuel]
    exceeds the number of unread characters by two. *)
Fixpoint parse_loop (fuel : nat) (st : frame) : outcome frame :=
  match fuel with
  | O => Undefined
  | S fuel' =>
      if feof (file st) then Ok st
      else st' <- parse_body st ;; parse_loop fuel' st'
  end.

(** [pmparser_parse]: the iterator returned, NULL when the file cannot be
    opened, and the nodes allocated. *)
Definition pmparser_parse (pid : Z) : outcome (option procmaps_iterator * heap) :=
  let maps_path :=
    if 0 <=? pid
    then String.append "/proc/"
           (String.append (string_of_list_ascii (decimal pid)) "/maps")
    else "/proc/self/maps"%string in
  match fopen maps_path with
  | None => Ok (None, [])
  | Some content =>
      st <- parse_loop (S (S (List.length content)))
              {| file := {| unread := content; at_eof := false |};
                 buf := auto "buf" PROCMAPS_LINE_MAX_LENGTH;
                 vars := {| addr1 := auto "addr1" 20;
                            addr2 := auto "addr2" 20;
                            perm := auto "perm" 8;
                            offset := auto "offset" 20;
                            dev := auto "dev" 10;
                            inode := auto "inode" 30;
                            pathname := auto "pathname" PATH_MAX |};
                 blocks := [];
                 ind := 0;
                 list_maps := None;
                 current_node := None |} ;;
      Ok (Some {| head := list_maps st; current := list_maps st |}, blocks st)
  end.

End Libc.

(** [pmparser_next]: the node returned, and the iterator afterwards. *)
Definition pmparser_next (h : heap) (it : procmaps_iterator)
  : outcome (option nat * procmaps_iterator) :=
  match current it with
  | None => Ok (None, it)
  | Some p_current =>
      match nth_error h p_current with
      | None => Undefined
      | Some nd => Ok (Some p_current, {| head := head it; current := next nd |})
      end
  end.

(** The loop of [pmparser_free]; [freed] lists the nodes handed to [free]
    so far.  Freeing a node twice and reading a freed node are undefined.
    Every pass frees another node, so that [fuel] passes are enough when
    [fuel] exceeds the number of nodes. *)
Fixpoint free_loop (fuel : nat) (h : heap) (freed : list nat) (act nxt : option nat)
  : outcome (list nat) :=
  match act with
  | None => Ok freed
  | Some a =>
      match fuel with
      | O => Undefined
      | S fuel' =>
          if existsb (Nat.eqb a) freed || negb (Nat.ltb a (List.length h))
          then Undefined
          else
            let freed := freed ++ [a] in
            match nxt with
            | None => free_loop fuel' h freed nxt None
            | Some n =>
                if existsb (Nat.eqb n) freed then Undefined
                else match nth_error h n with
                     | None => Undefined
                     | Some nd => free_loop fuel' h freed nxt (next nd)
                     end
            end
      end
  end.

(** [pmparser_free]: the nodes freed, in order. *)
Definition pmparser_free (h : heap) (it : procmaps_iterator) : outcome (list nat) :=
  match head it with
  | None => Ok []
  | Some maps_list =>
      match nth_error h maps_list with
      | None => Undefined
      | Some nd => free_loop (S (List.length h)) h [] (Some maps_list) (next nd)
      end
  end.

End Parser.

(** ** Vocabulary of the parser's properties *)

(** A line of the memory map, by its parts: the two addresses, the
    permissions, the offset, the device, the inode, the blanks before the
    path, the path, and what follows the path before the newline. *)
Record row := {
  r_addr1 : list ascii;
  r_addr2 : list ascii;
  r_perm : list ascii;
  r_offset : list ascii;
  r_dev : list ascii;
  r_inode : list ascii;
  r_pad : list ascii;
  r_path : list ascii;
  r_rest : list ascii
}.

Definition text_of_row (r : row) : list ascii :=
  r_addr1 r ++ "-"%char :: r_addr2 r ++ " "%char :: r_perm r ++ " "%char
  :: r_offset r ++ " "%char :: r_dev r ++ " "%char :: r_inode r ++ " "%char
  :: r_pad r ++ r_path r ++ r_rest r.

Definition line_of (r : row) : list ascii := text_of_row r ++ [Parser.NL].

(** A string without blank, newline or NUL. *)
Definition word (s : list ascii) : bool :=
  forallb (fun c => negb (Parser.blank c) && negb (c =? Parser.NL)%char
                    && negb (c =? Parser.NUL)%char) s.

Definition nonempty (s : list ascii) : bool :=
  match s with
  | [] => false
  | _ :: _ => true
  end.

(** The parts of the row are words, of which only the second address and
    the path may be empty; what follows a path starts with a blank. *)
Definition clean (r : row) : bool :=
  word (r_addr1 r) && forallb (fun c => negb (c =? "-")%char) (r_addr1 r)
  && word (r_addr2 r)
  && word (r_perm r) && nonempty (r_perm r)
  && word (r_offset r) && nonempty (r_offset r)
  && word (r_dev r) && nonempty (r_dev r)
  && word (r_inode r) && nonempty (r_inode r)
  && forallb Parser.blank (r_pad r)
  && word (r_path r)
  && match r_rest r with
     | [] => true
     | c :: _ => Parser.blank c && nonempty (r_path r)
                 && forallb (fun c => negb (c =? Parser.NL)%char) (r_rest r)
     end.

(** Every part is shorter than the local array of [pmparser_parse] that
    receives it. *)
Definition fits (r : row) : bool :=
  Nat.ltb (List.length (r_addr1 r)) 20
  && Nat.ltb (List.length (r_addr2 r)) 20
  && Nat.ltb (List.length (r_perm r)) 8
  && Nat.ltb (List.length (r_offset r)) 20
  && Nat.ltb (List.length (r_dev r)) 10
  && Nat.ltb (List.length (r_inode r)) 30
  && Nat.ltb (List.length (r_path r)) Parser.PATH_MAX.

(** The arrays have the sizes that [pmparser_parse] declares. *)
Definition sized (l : Parser.locals) : Prop :=
  List.length (Parser.addr1 l) = 20%nat
  /\ List.length (Parser.addr2 l) = 20%nat
  /\ List.length (Parser.perm l) = 8%nat
  /\ List.length (Parser.offset l) = 20%nat
  /\ List.length (Parser.dev l) = 10%nat
  /\ List.length (Parser.inode l) = 30%nat
  /\ List.length (Parser.pathname l) = Parser.PATH_MAX.

(** The array starts with the string [s] and its NUL. *)
Definition starts_with (a : Parser.carray) (s : list ascii) : Prop :=
  exists t, a = s ++ Parser.NUL :: t.

(** The arrays hold the parts of the row. *)
Definition holds (l : Parser.locals) (r : row) : Prop :=
  starts_with (Parser.addr1 l) (r_addr1 r)
  /\ starts_with (Parser.addr2 l) (r_addr2 r)
  /\ starts_with (Parser.perm l) (r_perm r)
  /\ starts_with (Parser.offset l) (r_offset r)
  /\ starts_with (Parser.dev l) (r_dev r)
  /\ starts_with (Parser.inode l) (r_inode r)
  /\ starts_with (Parser.pathname l) (r_path r).

(** A line as the kernel writes it: four permission characters, and a
    line and a path that fit the buffer of [pmparser_parse] and the field
    of the node. *)
Definition parsable (r : row) : bool :=
  clean r && fits r
  && Nat.eqb (List.length (r_perm r)) 4
  && Nat.ltb (List.length (r_path r)) 600
  && Nat.ltb (List.length (line_of r)) Parser.PROCMAPS_LINE_MAX_LENGTH.

(** The nodes of a well-formed chain that starts at the pointer [k]. *)
Fixpoint chain_from (k : nat) (areas : list procmaps_struct) : Parser.heap :=
  match areas with
  | [] => []
  | a :: rest =>
      {| Parser.area := a;
         Parser.next := match rest with [] => None | _ :: _ => Some (S k) end |}
      :: chain_from (S k) rest
  end.

(** The nodes as [pmparser_parse] has linked them after some passes of its
    loop: after the first pass the only node points to itself. *)
Definition links (areas : list procmaps_struct) : Parser.heap :=
  match areas with
  | [a] => [{| Parser.area := a; Parser.next := Some 0%nat |}]
  | _ => chain_from 0 areas
  end.

Section NodeOf.

Variable sscanf_lx : list ascii -> option Z.
Variable atoi : list ascii -> Z.
Variable fresh : nat -> procmaps_struct.

(** The node that describes the row [r], made by the [k]-th [malloc]. *)
Definition node_of (k : nat) (r : row) : procmaps_struct :=
  let a1 := match sscanf_lx (r_addr1 r) with
            | Some v => v
            | None => addr_start (fresh k)
            end in
  let a2 := match sscanf_lx (r_addr2 r) with
            | Some v => v
            | None => addr_end (fresh k)
            end in
  {| addr_start := a1;
     addr_end := a2;
     length := u64 (a2 - a1);
     perm := string_of_list_ascii (r_perm r);
     is_r := (nth 0 (r_perm r) Parser.NUL =? "r")%char;
     is_w := (nth 1 (r_perm r) Parser.NUL =? "w")%char;
     is_x := (nth 2 (r_perm r) Parser.NUL =? "x")%char;
     is_p := (nth 3 (r_perm r) Parser.NUL =? "p")%char;
     offset := match sscanf_lx (r_offset r) with
               | Some v => Parser.to_long v
               | None => offset (fresh k)
               end;
     dev := string_of_list_ascii (r_dev r);
     inode := atoi (r_inode r);
     pathname := string_of_list_ascii (r_path r) |}.

Fixpoint nodes_from (k : nat) (rows : list row) : list procmaps_struct :=
  match rows with
  | [] => []
  | r :: rest => node_of k r :: nodes_from (S k) rest
  end.

End NodeOf.

(** The invariant of the loop of [pmparser_parse] after the nodes [areas]. *)
Definition parsing (areas : list procmaps_struct) (st : Parser.frame) : Prop :=
  Parser.blocks st = links areas
  /\ Parser.ind st = List.length areas
  /\ Parser.list_maps st = match areas with [] => None | _ :: _ => Some 0%nat end
  /\ Parser.current_node st
     = match areas with [] => None | _ :: _ => Some (List.length areas - 1)%nat end
  /\ List.length (Parser.buf st) = Parser.PROCMAPS_LINE_MAX_LENGTH
  /\ sized (Parser.vars st).

(** The [n]-th call of [pmparser_next] on an iterator, counted from 0: what
    it returns, and the iterator afterwards. *)
Fixpoint nth_call (n : nat) (h : Parser.heap) (it : Parser.procmaps_iterator)
  : outcome (option nat * Parser.procmaps_iterator) :=
  match n with
  | O => Parser.pmparser_next h it
  | S n' =>
      r <- Parser.pmparser_next h it ;;
      nth_call n' h (snd r)
  end.

(** The pointer to the [i]-th of [n] nodes, NULL past the last. *)
Definition ptr (n i : nat) : option nat :=
  if Nat.ltb i n then Some i else None.

(** The area that a pointer designates. *)
Definition area_at (h : Parser.heap) (p : option nat) : option procmaps_struct :=
  match p with
  | None => None
  | Some q =>
      match nth_error h q with
      | Some nd => Some (Parser.area nd)
      | None => None
      end
  end.

(** ** A small memory map *)

Definition hex_digit (c : ascii) : option Z :=
  let n := Z.of_N (N_of_ascii c) in
  if (48 <=? n) && (n <=? 57) then Some (n - 48)
  else if (97 <=? n) && (n <=? 102) then Some (n - 87)
  else if (65 <=? n) && (n <=? 70) then Some (n - 55)
  else None.

(** A conversion that reads strings of hexadecimal digits. *)
Definition sscanf_example (s : list ascii) : option Z :=
  match s with
  | [] => None
  | _ :: _ =>
      fold_left (fun acc c =>
                   match acc, hex_digit c with
                   | Some v, Some d => Some (16 * v + d)
                   | _, _ => None
                   end) s (Some 0)
  end.

(** A conversion that reads strings of decimal digits. *)
Definition atoi_example (s : list ascii) : Z :=
  fold_left (fun acc c => 10 * acc + (Z.of_N (N_of_ascii c) - 48)) s 0.

Definition fresh_example (k : nat) : procmaps_struct :=
  {| addr_start := 0; addr_end := 0; length := 0; perm := EmptyString;
     is_r := false; is_w := false; is_x := false; is_p := false;
     offset := 0; dev := EmptyString; inode := 0; pathname := EmptyString |}.

(** The line of a mapped file that has been deleted since. *)
Definition row_text : row :=
  {| r_addr1 := list_ascii_of_string "00400000";
     r_addr2 := list_ascii_of_string "00452000";
     r_perm := list_ascii_of_string "r-xp";
     r_offset := list_ascii_of_string "00000000";
     r_dev := list_ascii_of_string "08:02";
     r_inode := list_ascii_of_string "173521";
     r_pad := list_ascii_of_string "     ";
     r_path := list_ascii_of_string "/usr/bin/djpeg";
     r_rest := list_ascii_of_string " (deleted)" |}.

(** The line of an anonymous mapping. *)
Definition row_anon : row :=
  {| r_addr1 := list_ascii_of_string "7ffd1000";
     r_addr2 := list_ascii_of_string "7ffd3000";
     r_perm := list_ascii_of_string "rw-p";
     r_offset := list_ascii_of_string "00000000";
     r_dev := list_ascii_of_string "00:00";
     r_inode := list_ascii_of_string "0";
     r_pad := [];
     r_path := [];
     r_rest := [] |}.

(** A line whose permissions do not fit the array [perm]. *)
Definition row_wide : row :=
  {| r_addr1 := list_ascii_of_string "00400000";
     r_addr2 := list_ascii_of_string "00452000";
     r_perm := list_ascii_of_string "rwxprwxp";
     r_offset := list_ascii_of_string "00000000";
     r_dev := list_ascii_of_string "08:02";
     r_inode := list_ascii_of_string "173521";
     r_pad := [];
     r_path := [];
     r_rest := [] |}.

(** A line whose path has 600 characters. *)
Definition row_deep : row :=
  {| r_addr1 := list_ascii_of_string "00400000";
     r_addr2 := list_ascii_of_string "00452000";
     r_perm := list_ascii_of_string "r-xp";
     r_offset := list_ascii_of_string "00000000";
     r_dev := list_ascii_of_string "08:02";
     r_inode := list_ascii_of_string "173521";
     r_pad := [];
     r_path := repeat "/"%char 600;
     r_rest := [] |}.

(** Local arrays of the sizes of [pmparser_parse], with arbitrary cells. *)
Definition locals_example : Parser.locals :=
  {| Parser.addr1 := repeat "?"%char 20;
     Parser.addr2 := repeat "?"%char 20;
     Parser.perm := repeat "?"%char 8;
     Parser.offset := repeat "?"%char 20;
     Parser.dev := repeat "?"%char 10;
     Parser.inode := repeat "?"%char 30;
     Parser.pathname := repeat "?"%char Parser.PATH_MAX |}.

(** A file system whose every memory map is [content]. *)
Definition fopen_example (content : list ascii) (path : string) : option (list ascii) :=
  Some content.

(** A stack on which the buffer of [pmparser_parse] happens to hold a line
    of an earlier call. *)
Definition stale_example (name : string) (i : nat) : ascii :=
  if String.eqb name "buf" then nth i (line_of row_anon) "?"%char else "?"%char.

(** The areas of the nodes that [pmparser_next] hands out before it returns
    NULL, or before [fuel] calls: what the loop of [load_maps] goes
    through. *)
Fixpoint handed_out (fuel : nat) (h : Parser.heap) (it : Parser.procmaps_iterator)
  : list procmaps_struct :=
  match fuel with
  | O => []
  | S fuel' =>
      match Parser.pmparser_next h it with
      | Ok (Some p, it') =>
          match nth_error h p with
          | Some nd => Parser.area nd :: handed_out fuel' h it'
          | None => []
          end
      | _ => []
      end
  end.

(** The memory map of two lines, the second of which is anonymous memory. *)
Definition content_example : list ascii :=
  List.concat (map line_of ([row_text] ++ [row_anon])).

(** An environment whose memory map is what the parser makes of it. *)
Definition env_parsed : environment :=
  {| proc_maps :=
       Some (nodes_from sscanf_example atoi_example fresh_example 0
               ([row_text] ++ [row_anon; row_anon]));
     userfaultfd_ret := 3;
     api_ret := 0;
     api_version := UFFD_API;
     api_features := UFFD_FEATURE_PAGEFAULT_FLAG_WP;
     register_ret := fun _ => 0;
     protect_ret := fun _ => 0;
     unregister_ret := fun _ => 0;
     iterations := iteration_example |}.

(** * Properties *)

(** ** Walking the parsed map *)

(** The loop of [load_maps] visits the nodes that [pmparser_next] hands
    out, in order, until it returns [NULL]. *)
Lemma pmparser_next_walk (h : list procmaps_struct) (l : list procmaps_struct) :
  pmparser_next {| head := h; current := l |}
  = match l with
    | [] => (None, {| head := h; current := [] |})
    | m :: rest => (Some m, {| head := h; current := rest |})
    end.
Proof. destruct l; reflexivity. Qed.

(** ** Pages *)

Lemma page_mask (a : Z) :
  Z.land a (Z.lnot (PAGE_SIZE - 1)) = PAGE_SIZE * (a / PAGE_SIZE).
Proof.
  rewrite <- Z.ldiff_land.
  change (PAGE_SIZE - 1) with (Z.ones 12).
  rewrite Z.ldiff_ones_r by lia.
  rewrite Z.shiftr_div_pow2, Z.shiftl_mul_pow2 by lia.
  change (2 ^ 12) with PAGE_SIZE. lia.
Qed.

Lemma page_bounds (a : Z) :
  PAGE_SIZE * (a / PAGE_SIZE) <= a < PAGE_SIZE * (a / PAGE_SIZE) + PAGE_SIZE.
Proof.
  unfold PAGE_SIZE.
  pose proof (Z.mod_pos_bound a 4096 ltac:(lia)).
  pose proof (Z.div_mod a 4096 ltac:(lia)). lia.
Qed.

Lemma page_number_unique (q x : Z) :
  PAGE_SIZE * q <= x < PAGE_SIZE * q + PAGE_SIZE -> x / PAGE_SIZE = q.
Proof.
  unfold PAGE_SIZE. intros H.
  symmetry. apply (Z.div_unique x 4096 q (x - 4096 * q)); lia.
Qed.

Lemma page_in_range_single (q pn : Z) :
  page_in_range (PAGE_SIZE * q) PAGE_SIZE pn = (pn =? q).
Proof.
  unfold page_in_range, within, PAGE_SIZE.
  destruct (Z.eqb_spec pn q) as [->|Hne].
  - apply andb_true_iff. split; [apply Z.leb_le | apply Z.ltb_lt]; lia.
  - apply andb_false_iff.
    destruct (Z_lt_le_dec pn q); [left; apply Z.leb_gt | right; apply Z.ltb_ge]; lia.
Qed.

Lemma release_single_page (a : Z) (k : Z -> bool) (pn : Z) :
  kernel_writeprotect (Z.land a (Z.lnot (PAGE_SIZE - 1))) PAGE_SIZE 0 k pn
  = if pn =? a / PAGE_SIZE then false else k pn.
Proof.
  unfold kernel_writeprotect.
  rewrite page_mask, page_in_range_single. reflexivity.
Qed.

Lemma within_spec (start len x : Z) :
  within start len x = true <-> start <= x < start + len.
Proof.
  unfold within. rewrite andb_true_iff, Z.leb_le, Z.ltb_lt. reflexivity.
Qed.

(** ** One pass of the watcher *)

Lemma monitor_iter_read (r : reply) (w : world) :
  poll_ready r ->
  monitor_iter r w =
    if readret r =? -1 then
      if errno r =? EAGAIN then Ok w else Exit 3
    else if negb (readret r =? sizeof_uffd_msg) then Exit 4
    else if negb (Z.land (pagefault_flags (msg r)) UFFD_PAGEFAULT_FLAG_WP =? 0) then
      let page_addr := Z.land (pagefault_address (msg r)) (Z.lnot (PAGE_SIZE - 1)) in
      if n_pages w <? PAGES_CAPACITY then
        let w := push_page {| addr := page_addr;
                              data := memcpy_from (mem w) page_addr |} w in
        let w := emit (ev_ioctl UFFDIO_WRITEPROTECT page_addr PAGE_SIZE 0) w in
        if ioctl_ret r =? -1 then Exit 5
        else Ok (set_wp (kernel_writeprotect page_addr PAGE_SIZE 0 (wp w)) w)
      else Undefined
    else Ok w.
Proof.
  intros (H1 & H2 & H3 & H4). unfold monitor_iter.
  apply Z.eqb_neq in H1, H2, H4. apply Z.eqb_eq in H3.
  rewrite H1, H2, H3, H4. reflexivity.
Qed.

Lemma monitor_iter_wp (r : reply) (w : world) :
  full_read r ->
  Z.land (pagefault_flags (msg r)) UFFD_PAGEFAULT_FLAG_WP <> 0 ->
  n_pages w < PAGES_CAPACITY ->
  monitor_iter r w =
    let page_addr := Z.land (pagefault_address (msg r)) (Z.lnot (PAGE_SIZE - 1)) in
    let w := push_page {| addr := page_addr;
                          data := memcpy_from (mem w) page_addr |} w in
    let w := emit (ev_ioctl UFFDIO_WRITEPROTECT page_addr PAGE_SIZE 0) w in
    if ioctl_ret r =? -1 then Exit 5
    else Ok (set_wp (kernel_writeprotect page_addr PAGE_SIZE 0 (wp w)) w).
Proof.
  intros [Hp Hr] Hf Hn. rewrite (monitor_iter_read r w Hp), Hr.
  apply Z.eqb_neq in Hf. apply Z.ltb_lt in Hn.
  change (sizeof_uffd_msg =? -1) with false.
  rewrite Z.eqb_refl. cbn [negb]. rewrite Hf. cbn [negb]. cbv zeta.
  rewrite Hn. reflexivity.
Qed.

(** C5: on a write-protect fault the watcher takes the fault address masked
    down to its page boundary, appends to the log a record that holds this
    address and the current contents of the whole page, and then asks the
    kernel to drop the protection of the range of one page that starts
    there, so that exactly this page loses its trap. *)
Theorem wp_fault_saves_and_releases_page (r : reply) (w : world) :
  full_read r ->
  Z.land (pagefault_flags (msg r)) UFFD_PAGEFAULT_FLAG_WP <> 0 ->
  n_pages w < PAGES_CAPACITY ->
  ioctl_ret r <> -1 ->
  let fault := pagefault_address (msg r) in
  let page_addr := Z.land fault (Z.lnot (PAGE_SIZE - 1)) in
  exists (w' : world) (rec : page_t),
    monitor_iter r w = Ok w' /\
    page_addr mod PAGE_SIZE = 0 /\
    page_addr <= fault < page_addr + PAGE_SIZE /\
    pages w' = pages w ++ [rec] /\
    addr rec = page_addr /\
    (forall j, 0 <= j < PAGE_SIZE -> data rec j = mem w (page_addr + j)) /\
    trace w' = trace w ++ [ev_ioctl UFFDIO_WRITEPROTECT page_addr PAGE_SIZE 0] /\
    (forall pn, wp w' pn = if pn =? fault / PAGE_SIZE then false else wp w pn) /\
    (forall x, mem w' x = mem w x).
Proof.
  intros Hread Hflag Hcap Hioctl fault page_addr.
  rewrite (monitor_iter_wp r w Hread Hflag Hcap). cbv zeta.
  apply Z.eqb_neq in Hioctl. rewrite Hioctl.
  eexists. eexists. split; [reflexivity|].
  fold fault. fold page_addr.
  assert (Hpa : page_addr = PAGE_SIZE * (fault / PAGE_SIZE)) by apply page_mask.
  repeat split.
  - rewrite Hpa, Z.mul_comm. apply Z.mod_mul. discriminate.
  - rewrite Hpa. apply page_bounds.
  - rewrite Hpa. apply page_bounds.
  - intros j Hj. cbn. unfold memcpy_from.
    replace (within 0 PAGE_SIZE j) with true; [reflexivity|].
    symmetry. apply within_spec. lia.
  - intros pn. cbn. apply release_single_page.
Qed.

Lemma wp_fault_saves_and_releases_page_witness :
  exists (w' : world) (rec : page_t),
    monitor_iter reply_example world_example = Ok w' /\
    pages w' = [rec] /\ addr rec = 0x601000 /\ data rec 8 = "a"%byte /\
    wp w' 0x601 = false.
Proof.
  destruct (wp_fault_saves_and_releases_page reply_example world_example)
    as (w' & rec & H1 & _ & _ & H4 & H5 & H6 & _ & H8 & _).
  - repeat split; cbn; discriminate.
  - cbn; discriminate.
  - reflexivity.
  - cbn; discriminate.
  - exists w', rec. repeat split.
    + exact H1.
    + exact H4.
    + exact H5.
    + rewrite (H6 8) by (unfold PAGE_SIZE; lia). reflexivity.
    + rewrite H8. reflexivity.
Defined.

(** C8: a pass of the watcher whose poll fails or reports nothing, or whose
    read reports that no data is available, goes round again in the state it
    started from; a short read of the notification ends the process with
    status 4, and a refused request to drop the protection ends it with
    status 5. *)
Theorem watcher_retries_and_fatal_errors (r : reply) (w : world) :
  (pollres r = -1 \/ pollres r = 0 -> monitor_iter r w = Ok w) /\
  (poll_ready r -> readret r = -1 -> errno r = EAGAIN ->
   monitor_iter r w = Ok w) /\
  (poll_ready r -> readret r <> -1 -> readret r <> sizeof_uffd_msg ->
   monitor_iter r w = Exit 4) /\
  (full_read r ->
   Z.land (pagefault_flags (msg r)) UFFD_PAGEFAULT_FLAG_WP <> 0 ->
   n_pages w < PAGES_CAPACITY ->
   ioctl_ret r = -1 ->
   monitor_iter r w = Exit 5).
Proof.
  repeat split.
  - intros [H|H]; unfold monitor_iter; rewrite H; reflexivity.
  - intros Hp Hr He. rewrite (monitor_iter_read r w Hp), Hr, He. reflexivity.
  - intros Hp Hr Hs. rewrite (monitor_iter_read r w Hp).
    apply Z.eqb_neq in Hr, Hs. rewrite Hr, Hs. reflexivity.
  - intros Hread Hflag Hcap Hioctl.
    rewrite (monitor_iter_wp r w Hread Hflag Hcap). cbv zeta.
    rewrite Hioctl. reflexivity.
Qed.

Lemma watcher_retries_and_fatal_errors_witness :
  monitor_iter {| pollres := -1; revents := 0; readret := 0; errno := 4;
                  msg := msg reply_example; ioctl_ret := 0 |} world_example
  = Ok world_example /\
  monitor_iter {| pollres := 1; revents := POLLIN; readret := -1; errno := EAGAIN;
                  msg := msg reply_example; ioctl_ret := 0 |} world_example
  = Ok world_example /\
  monitor_iter {| pollres := 1; revents := POLLIN; readret := 16; errno := 0;
                  msg := msg reply_example; ioctl_ret := 0 |} world_example
  = Exit 4 /\
  monitor_iter {| pollres := 1; revents := POLLIN; readret := 32; errno := 0;
                  msg := msg reply_example; ioctl_ret := -1 |} world_example
  = Exit 5.
Proof.
  split; [|split; [|split]].
  - apply (proj1 (watcher_retries_and_fatal_errors _ _)). left. reflexivity.
  - apply (proj1 (proj2 (watcher_retries_and_fatal_errors _ _)));
      [repeat split; cbn; discriminate | reflexivity | reflexivity].
  - apply (proj1 (proj2 (proj2 (watcher_retries_and_fatal_errors _ _))));
      [repeat split; cbn; discriminate | cbn; discriminate | cbn; discriminate].
  - apply (proj2 (proj2 (proj2 (watcher_retries_and_fatal_errors _ _))));
      [repeat split; cbn; discriminate | cbn; discriminate | reflexivity
      | reflexivity].
Defined.

(** C10: when the notification the watcher has read does not carry the
    write-protect flag, the pass changes nothing: the loop goes round again
    in the same state, with the same log and the same trace of requests. *)
Theorem fault_without_wp_flag_is_ignored (r : reply) (w : world) :
  full_read r ->
  Z.land (pagefault_flags (msg r)) UFFD_PAGEFAULT_FLAG_WP = 0 ->
  monitor_iter r w = Ok w /\
  (forall w', monitor_iter r w = Ok w' ->
     pages w' = pages w /\ n_pages w' = n_pages w /\
     trace w' = trace w /\ wp w' = wp w).
Proof.
  intros [Hp Hr] Hflag.
  assert (H : monitor_iter r w = Ok w).
  { rewrite (monitor_iter_read r w Hp), Hr, Hflag. reflexivity. }
  split; [exact H|].
  intros w' H'. rewrite H in H'. injection H' as <-. repeat split.
Qed.

Lemma fault_without_wp_flag_is_ignored_witness :
  monitor_iter {| pollres := 1; revents := POLLIN; readret := 32; errno := 0;
                  msg := {| pagefault_flags := UFFD_PAGEFAULT_FLAG_WRITE;
                            pagefault_address := 0x601234 |};
                  ioctl_ret := 0 |} world_example
  = Ok world_example.
Proof.
  apply fault_without_wp_flag_is_ignored.
  - repeat split; cbn; discriminate.
  - reflexivity.
Defined.

(** ** Which regions are monitored *)

Section LoadMaps.

Variables REMAP_ADDR WRITE_IGNORED_ADDR GOT_PLT_ADDR : Z.

Lemma load_maps_loop_filter (regions : list procmaps_struct) :
  forall w,
    n_maps w
    + Z.of_nat (List.length
                  (filter (kept REMAP_ADDR WRITE_IGNORED_ADDR GOT_PLT_ADDR) regions))
    <= MAPS_CAPACITY ->
    exists w',
      load_maps_loop REMAP_ADDR WRITE_IGNORED_ADDR GOT_PLT_ADDR regions w = Ok w' /\
      maps w' = maps w
                ++ filter (kept REMAP_ADDR WRITE_IGNORED_ADDR GOT_PLT_ADDR) regions /\
      mem w' = mem w /\ wp w' = wp w /\ pages w' = pages w /\
      times w' = times w /\ trace w' = trace w.
Proof.
  induction regions as [|m rest IH]; intros w Hcap.
  - exists w. cbn. rewrite app_nil_r. repeat split.
  - cbn [load_maps_loop filter] in *. unfold kept at 1 in Hcap. unfold kept at 1.
    destruct ((addr_start m =? REMAP_ADDR) || (addr_start m =? WRITE_IGNORED_ADDR));
      cbn [negb andb] in *; [apply IH; exact Hcap|].
    destruct (is_r m || is_w m || is_x m);
      cbn [negb andb] in *; [|apply IH; exact Hcap].
    destruct ((pathname m =? "[vsyscall]")%string
              || (pathname m =? "[vvar]")%string
              || (pathname m =? "[vdso]")%string);
      cbn [negb andb] in *; [apply IH; exact Hcap|].
    destruct (addr_start m =? GOT_PLT_ADDR);
      cbn [negb andb] in *; [apply IH; exact Hcap|].
    cbn [List.length] in Hcap.
    assert (Hlt : (n_maps w <? MAPS_CAPACITY) = true) by (apply Z.ltb_lt; lia).
    rewrite Hlt.
    destruct (IH (push_map m w)) as (w' & Hrun & Hmaps & Hrest).
    { unfold n_maps in *. cbn [maps push_map]. rewrite length_app. cbn [List.length]. lia. }
    exists w'. split; [exact Hrun|]. split; [|exact Hrest].
    rewrite Hmaps. cbn [maps push_map]. rewrite <- app_assoc. reflexivity.
Qed.

Lemma kept_spec (m : procmaps_struct) :
  kept REMAP_ADDR WRITE_IGNORED_ADDR GOT_PLT_ADDR m = true <->
  addr_start m <> REMAP_ADDR /\ addr_start m <> WRITE_IGNORED_ADDR /\
  (is_r m = true \/ is_w m = true \/ is_x m = true) /\
  pathname m <> "[vsyscall]"%string /\ pathname m <> "[vvar]"%string /\
  pathname m <> "[vdso]"%string /\
  addr_start m <> GOT_PLT_ADDR.
Proof.
  unfold kept.
  rewrite !andb_true_iff, !negb_true_iff, !orb_false_iff, !orb_true_iff.
  rewrite !Z.eqb_neq, !String.eqb_neq. tauto.
Qed.

(** C7: when the regions that pass the tests fit the table, [load_maps]
    returns 0 and the monitored set holds, in the order of the memory map,
    exactly the enumerated regions that do not start at the address of
    the [.remap] or [.writeignored] section, have one of the read, write
    and execute permissions, are not named [vsyscall], [vvar] or [vdso]
    (in brackets), and do not start at the address of [.got.plt]. *)
Theorem load_maps_monitors_exactly_the_kept_regions
        (e : environment) (regions : list procmaps_struct) (w : world) :
  proc_maps e = Some regions ->
  maps w = [] ->
  Z.of_nat (List.length (filter (kept REMAP_ADDR WRITE_IGNORED_ADDR GOT_PLT_ADDR) regions))
  <= MAPS_CAPACITY ->
  exists w',
    load_maps REMAP_ADDR WRITE_IGNORED_ADDR GOT_PLT_ADDR e w = Ok (0, w') /\
    maps w' = filter (kept REMAP_ADDR WRITE_IGNORED_ADDR GOT_PLT_ADDR) regions /\
    forall m,
      In m (maps w') <->
      In m regions /\
      addr_start m <> REMAP_ADDR /\ addr_start m <> WRITE_IGNORED_ADDR /\
      (is_r m = true \/ is_w m = true \/ is_x m = true) /\
      pathname m <> "[vsyscall]"%string /\ pathname m <> "[vvar]"%string /\
      pathname m <> "[vdso]"%string /\
      addr_start m <> GOT_PLT_ADDR.
Proof.
  intros He Hw Hcap. unfold load_maps. rewrite He.
  destruct (load_maps_loop_filter regions w) as (w' & Hrun & Hmaps & _).
  { unfold n_maps. rewrite Hw. cbn [List.length]. lia. }
  exists w'. rewrite Hrun. cbn [bind]. split; [reflexivity|].
  rewrite Hw in Hmaps. cbn [app] in Hmaps. split; [exact Hmaps|].
  intros m. rewrite Hmaps, filter_In, kept_spec. reflexivity.
Qed.

End LoadMaps.

Lemma load_maps_monitors_exactly_the_kept_regions_witness :
  exists w',
    load_maps 0x700000 0x800000 0x603000 env_example world_init = Ok (0, w') /\
    maps w' = [text_region; data_region].
Proof.
  destruct (load_maps_monitors_exactly_the_kept_regions
              0x700000 0x800000 0x603000 env_example regions_example world_init)
    as (w' & Hrun & Hmaps & _).
  - reflexivity.
  - reflexivity.
  - vm_compute. discriminate.
  - exists w'. split; [exact Hrun | rewrite Hmaps; reflexivity].
Defined.

(** ** [remap] *)

Lemma remap_region_trace (m : procmaps_struct) (w : world) :
  trace (remap_region m w) = trace w ++ remap_requests m.
Proof.
  unfold remap_region, remap_mmap, remap_munmap, remap_mprotect, copy_loop,
    my_syscall, remap_requests.
  cbn [trace emit set_mem]. repeat rewrite <- app_assoc. reflexivity.
Qed.

Lemma remap_fold_trace (l : list procmaps_struct) :
  forall w,
    trace (fold_left (fun w cur_map => remap_region cur_map w) l w)
    = trace w ++ flat_map remap_requests l.
Proof.
  induction l as [|m l IH]; intros w; cbn [fold_left flat_map].
  - symmetry. apply app_nil_r.
  - rewrite IH, remap_region_trace, app_assoc. reflexivity.
Qed.

(** C3, as the code has it: for every monitored region [remap] maps the
    scratch range, copies the region out, maps the range of the region
    anew, copies the contents back in and sets the permissions of the
    region, in this order; but each of its two unmap steps issues the
    system call numbered [__NR_mprotect], and no call numbered
    [__NR_munmap] is ever issued. *)
Theorem remap_unmap_steps_issue_mprotect (w : world) :
  trace (remap w) = trace w ++ flat_map remap_requests (maps w) /\
  (forall m, In m (maps w) ->
     nth 2 (remap_requests m) ev_dup2
       = ev_syscall __NR_mprotect [addr_start m; length m] /\
     nth 5 (remap_requests m) ev_dup2
       = ev_syscall __NR_mprotect [SCRATCH_ADDR; length m]) /\
  (forall args,
     In (ev_syscall __NR_munmap args) (trace (remap w)) ->
     In (ev_syscall __NR_munmap args) (trace w)).
Proof.
  assert (Htrace : trace (remap w) = trace w ++ flat_map remap_requests (maps w))
    by apply remap_fold_trace.
  split; [exact Htrace|]. split.
  - intros m _. split; reflexivity.
  - intros args. rewrite Htrace, in_app_iff.
    intros [H|H]; [exact H|]. exfalso.
    apply in_flat_map in H. destruct H as (m & _ & H).
    unfold remap_requests in H. cbn [In] in H.
    repeat (destruct H as [H|H]; [discriminate H|]). exact H.
Qed.

(** The same on the process above: the system calls of [remap] for the
    data region at 0x601000. *)
Example remap_data_region_trace :
  trace (remap {| mem := mem world_init; wp := wp world_init;
                  maps := [data_region]; pages := []; times := [];
                  rsp := 0; old_stack := 0; trace := [] |})
  = [ ev_syscall 9 [0xdead0000; 0x1000; 3; 0x32; -1; 0];
      ev_copy_loop 0xdead0000 0x601000 0x1000;
      ev_syscall 10 [0x601000; 0x1000];
      ev_syscall 9 [0x601000; 0x1000; 3; 0x32; -1; 0];
      ev_copy_loop 0x601000 0xdead0000 0x1000;
      ev_syscall 10 [0xdead0000; 0x1000];
      ev_syscall 10 [0x601000; 0x1000; 3] ].
Proof. unfold remap. rewrite remap_fold_trace. reflexivity. Qed.

(** ** Stores of the target *)

Lemma full_read_wp_fault (a : Z) : full_read (wp_fault a).
Proof. repeat split; cbn; discriminate. Qed.

Lemma saved_page_no (a : Z) (w : world) : page_no (saved_page a w) = a / PAGE_SIZE.
Proof.
  unfold page_no, saved_page. cbn [addr]. rewrite page_mask.
  rewrite Z.mul_comm. apply Z.div_mul. discriminate.
Qed.

Lemma saved_page_addr (a : Z) (w : world) :
  addr (saved_page a w) = PAGE_SIZE * page_no (saved_page a w).
Proof. rewrite saved_page_no. apply page_mask. Qed.

Lemma saved_page_data (a : Z) (w : world) (j : Z) :
  0 <= j < PAGE_SIZE ->
  data (saved_page a w) j = mem w (addr (saved_page a w) + j).
Proof.
  intros Hj. cbn. unfold memcpy_from.
  replace (within 0 PAGE_SIZE j) with true; [reflexivity|].
  symmetry. apply within_spec. lia.
Qed.

Lemma target_store_step (a : Z) (v : byte) (w : world) :
  store_step a v w (target_store a v w).
Proof.
  unfold target_store. destruct (wp w (a / PAGE_SIZE)) eqn:Hwp.
  - destruct (Z_lt_le_dec (n_pages w) PAGES_CAPACITY) as [Hlt|Hge].
    + rewrite (monitor_iter_wp (wp_fault a) w (full_read_wp_fault a))
        by (cbn; try discriminate; exact Hlt).
      cbn [bind wp_fault ioctl_ret msg pagefault_address]. cbv zeta.
      change (0 =? -1) with false. cbv iota. cbn [bind].
      apply step_fault; try assumption; try reflexivity.
      intros pn. cbn [wp set_mem set_wp emit push_page].
      apply release_single_page.
    + unfold monitor_iter. cbn [wp_fault pollres revents readret errno msg
                                 pagefault_flags pagefault_address ioctl_ret].
      change ((1 =? -1) || (1 =? 0)) with false.
      change (negb (Z.land POLLIN POLLERR =? 0)) with false.
      change (Z.land POLLIN POLLIN =? 0) with false.
      change (sizeof_uffd_msg =? -1) with false.
      change (negb (sizeof_uffd_msg =? sizeof_uffd_msg)) with false.
      change (negb (Z.land (Z.lor UFFD_PAGEFAULT_FLAG_WRITE UFFD_PAGEFAULT_FLAG_WP)
                           UFFD_PAGEFAULT_FLAG_WP =? 0)) with true.
      cbv iota.
      replace (n_pages w <? PAGES_CAPACITY) with false
        by (symmetry; apply Z.ltb_ge; exact Hge).
      cbn [bind]. apply step_overflow; assumption.
  - apply step_plain. exact Hwp.
Qed.

(** ** At most one record per page *)

Lemma store_other_page (a : Z) (v : byte) (m : memory) (x : Z) :
  x / PAGE_SIZE <> a / PAGE_SIZE -> store a v m x = m x.
Proof.
  intros H. unfold store. destruct (Z.eqb_spec x a); [subst; contradiction | reflexivity].
Qed.

Lemma same_page_offset (a : Z) (w : world) (j : Z) :
  0 <= j < PAGE_SIZE -> (addr (saved_page a w) + j) / PAGE_SIZE = a / PAGE_SIZE.
Proof.
  intros Hj. cbn [addr saved_page]. rewrite page_mask.
  apply page_number_unique. lia.
Qed.

Lemma target_store_since (w0 : world) (a : Z) (v : byte) (new : list page_t)
      (w w' : world) :
  since w0 new w ->
  target_store a v w = Ok w' ->
  exists new', since w0 new' w' /\
               (new' = new \/ new' = new ++ [saved_page a w]) /\
               ((exists r, In r (pages w) /\ page_no r = a / PAGE_SIZE) ->
                pages w' = pages w).
Proof.
  intros ((Hrel & Hnd) & Hmem & Hlog & Hdata) Hrun.
  pose proof (target_store_step a v w) as Hstep. rewrite Hrun in Hstep.
  inversion Hstep as [Hwp Heq | w1 Hwp Hcap Hm Hp Hk _ _ _ _ _ Heq | ]; subst.
  - exists new. split; [|split; [left; reflexivity | reflexivity]].
    repeat split; cbn [pages wp mem set_mem]; try assumption.
    intros x Hx. rewrite store_other_page; [apply Hmem; exact Hx|].
    intros E. rewrite E in Hx. congruence.
  - exists (new ++ [saved_page a w]).
    split; [|split; [right; reflexivity|]].
    + repeat split.
      * intros r Hr. rewrite Hk. rewrite Hp in Hr. apply in_app_iff in Hr.
        destruct (Z.eqb_spec (page_no r) (a / PAGE_SIZE)); [reflexivity|].
        destruct Hr as [Hr|[<-|[]]]; [apply Hrel; exact Hr|].
        rewrite saved_page_no in *. contradiction.
      * rewrite Hp, map_app. cbn [map]. rewrite saved_page_no.
        apply NoDup_app; [exact Hnd | repeat constructor; intros [] |].
        intros pn Hin [<-|[]]. apply in_map_iff in Hin.
        destruct Hin as (r & Hr1 & Hr2). apply Hrel in Hr2. congruence.
      * intros x Hx. rewrite Hk in Hx. rewrite Hm.
        destruct (Z.eqb_spec (x / PAGE_SIZE) (a / PAGE_SIZE)); [discriminate|].
        rewrite store_other_page by assumption. apply Hmem. exact Hx.
      * rewrite Hp, Hlog, app_assoc. reflexivity.
      * intros r j Hr Hj. apply in_app_iff in Hr.
        destruct Hr as [Hr|[<-|[]]]; [apply Hdata; assumption|].
        rewrite saved_page_data by exact Hj. apply Hmem.
        rewrite same_page_offset by exact Hj. exact Hwp.
    + intros (r & Hr1 & Hr2). apply Hrel in Hr1. congruence.
Qed.

Lemma target_main_since (w0 : world) (ws : list (Z * byte)) :
  forall (new : list page_t) (w w' : world),
    since w0 new w ->
    target_main ws w = Ok w' ->
    exists new', since w0 new' w'.
Proof.
  induction ws as [|[a v] ws IH]; intros new w w' Hs Hrun; cbn [target_main] in Hrun.
  - injection Hrun as <-. exists new. exact Hs.
  - destruct (target_store a v w) as [w1| |] eqn:E; cbn [bind] in Hrun;
      try discriminate.
    destruct (target_store_since w0 a v new w w1 Hs E) as (new1 & Hs1 & _).
    apply (IH new1 w1 w' Hs1 Hrun).
Qed.

Lemma since_start (w : world) : log_released w -> since w [] w.
Proof.
  intros H. repeat split; try apply H.
  - symmetry. apply app_nil_r.
  - intros r j [].
Qed.

Lemma target_main_defined (ws : list (Z * byte)) :
  forall w,
    n_pages w + Z.of_nat (List.length ws) <= PAGES_CAPACITY ->
    exists w', target_main ws w = Ok w'.
Proof.
  induction ws as [|[a v] ws IH]; intros w Hcap; cbn [target_main].
  - exists w. reflexivity.
  - cbn [List.length] in Hcap.
    pose proof (target_store_step a v w) as Hstep.
    inversion Hstep as [Hwp Heq | w1 Hwp Hlt Hm Hp _ _ _ _ _ _ Heq | Hwp Hge Heq];
      cbn [bind].
    + apply IH. unfold n_pages in *. cbn [pages set_mem]. lia.
    + apply IH. unfold n_pages in *. rewrite Hp, length_app. cbn [List.length]. lia.
    + lia.
Qed.

Lemma NoDup_map_addr (l : list page_t) :
  NoDup (map page_no l) -> NoDup (map addr l).
Proof.
  intros H. apply (NoDup_map_inv (fun a => a / PAGE_SIZE)).
  rewrite map_map. exact H.
Qed.

(** C6: while the target runs, from a state in which every logged page has
    lost its trap and is logged once, no page gets a second record: the log
    keeps its records and grows by records of distinct pages, a store into a
    page that already has a record appends nothing, and a record appended
    during the call holds what the page held when the call began.  The call
    returns when the log has room for one record per store. *)
Theorem one_record_per_page (ws : list (Z * byte)) (w : world) :
  log_released w ->
  (n_pages w + Z.of_nat (List.length ws) <= PAGES_CAPACITY ->
   exists w', target_main ws w = Ok w') /\
  (forall w', target_main ws w = Ok w' ->
     log_released w' /\
     NoDup (map addr (pages w')) /\
     exists new,
       pages w' = pages w ++ new /\
       forall r j, In r new -> 0 <= j < PAGE_SIZE ->
                   data r j = mem w (addr r + j)) /\
  (forall a v w1,
     target_store a v w = Ok w1 ->
     (exists r, In r (pages w) /\ page_no r = a / PAGE_SIZE) ->
     pages w1 = pages w).
Proof.
  intros Hrel. split; [apply target_main_defined|]. split.
  - intros w' Hrun.
    destruct (target_main_since w ws [] w w' (since_start w Hrel) Hrun)
      as (new & Hrel' & _ & Hlog & Hdata).
    split; [exact Hrel'|]. split; [apply NoDup_map_addr, Hrel'|].
    exists new. split; assumption.
  - intros a v w1 Hrun Hin.
    destruct (target_store_since w a v [] w w1 (since_start w Hrel) Hrun)
      as (_ & _ & _ & H). apply H. exact Hin.
Qed.

Lemma one_record_per_page_witness :
  exists w',
    target_main writes_example world_example = Ok w' /\
    NoDup (map addr (pages w')).
Proof.
  assert (Hrel : log_released world_example)
    by (split; [intros r [] | constructor]).
  destruct (one_record_per_page writes_example world_example Hrel)
    as (Hdef & Hinv & _).
  destruct Hdef as (w' & Hrun).
  - vm_compute. discriminate.
  - exists w'. split; [exact Hrun | apply (Hinv w' Hrun)].
Defined.

(** ** [restore_pages] *)

(** After the copies the byte at [x] is [v] when every record that covers
    [x] holds [v] there, unless no record covers [x]. *)
Lemma restore_fold_agree (v : byte) (x : Z) (l : list page_t) :
  forall m,
    (forall r, In r l -> within (addr r) PAGE_SIZE x = true ->
               data r (x - addr r) = v) ->
    restore_fold l m x = v \/
    (restore_fold l m x = m x /\
     forall r, In r l -> within (addr r) PAGE_SIZE x = false).
Proof.
  induction l as [|r l IH]; intros m Hv.
  - right. split; [reflexivity | intros r []].
  - cbn [restore_fold fold_left]. fold (restore_fold l (memcpy_to (addr r) (data r) m)).
    destruct (IH (memcpy_to (addr r) (data r) m)) as [H|[H Hnone]].
    + intros r' Hr'. apply Hv. right. exact Hr'.
    + left. exact H.
    + rewrite H. unfold memcpy_to.
      destruct (within (addr r) PAGE_SIZE x) eqn:Hin.
      * left. apply Hv; [left; reflexivity | exact Hin].
      * right. split; [reflexivity|].
        intros r' [<-|Hr']; [exact Hin | apply Hnone; exact Hr'].
Qed.

Lemma restore_pages_frame (w : world) :
  pages (restore_pages w) = pages w /\
  n_pages (restore_pages w) = n_pages w /\
  wp (restore_pages w) = wp w /\
  maps (restore_pages w) = maps w /\
  times (restore_pages w) = times w /\
  trace (restore_pages w) = trace w.
Proof. repeat split. Qed.

Lemma covers_page (r : page_t) (x : Z) :
  addr r = PAGE_SIZE * page_no r ->
  (within (addr r) PAGE_SIZE x = true <-> page_no r = x / PAGE_SIZE).
Proof.
  intros Ha. rewrite within_spec, Ha. split.
  - intros H. symmetry. apply page_number_unique. exact H.
  - intros ->. apply page_bounds.
Qed.

Lemma NoDup_map_inj {A B : Type} (f : A -> B) (l : list A) :
  NoDup (map f l) ->
  forall a b, In a l -> In b l -> f a = f b -> a = b.
Proof.
  induction l as [|c l IH]; intros Hnd a b Ha Hb Hf; [destruct Ha|].
  cbn [map] in Hnd. inversion Hnd as [|? ? Hnotin Hnd']; subst.
  destruct Ha as [<-|Ha], Hb as [<-|Hb].
  - reflexivity.
  - exfalso. apply Hnotin. rewrite Hf. apply in_map. exact Hb.
  - exfalso. apply Hnotin. rewrite <- Hf. apply in_map. exact Ha.
  - apply IH; assumption.
Qed.

(** ** The snapshot kept by the log *)

Section Snapshot.

(** The contents of memory and the protected pages when the loop of [run]
    begins, and a list that holds every protected page the target stores
    to. *)
Variable m0 : memory.
Variable k0 : Z -> bool.
Variable dirty : list Z.
Hypothesis dirty_fits : Z.of_nat (List.length dirty) <= PAGES_CAPACITY.

Lemma snapshot_ext (w w' : world) :
  mem w' = mem w -> wp w' = wp w -> pages w' = pages w ->
  snapshot m0 k0 dirty w -> snapshot m0 k0 dirty w'.
Proof.
  intros Hm Hk Hp [H1 H2 H3 H4 H5 H6 H7 H8].
  constructor; rewrite ?Hm, ?Hk, ?Hp; assumption.
Qed.

Lemma snapshot_room (w : world) (pn : Z) :
  snapshot m0 k0 dirty w -> wp w pn = true -> In pn dirty -> n_pages w < PAGES_CAPACITY.
Proof.
  intros Hs Hwp Hin.
  assert (Hnd : NoDup (pn :: map page_no (pages w))).
  { constructor; [|apply (snap_nodup m0 k0 dirty w Hs)].
    intros H. apply in_map_iff in H. destruct H as (r & Hr1 & Hr2).
    apply (snap_released m0 k0 dirty w Hs) in Hr2. congruence. }
  assert (Hincl : incl (pn :: map page_no (pages w)) dirty).
  { intros y [<-|Hy]; [exact Hin | apply (snap_dirty m0 k0 dirty w Hs); exact Hy]. }
  pose proof (NoDup_incl_length Hnd Hincl) as Hlen.
  cbn [List.length] in Hlen. rewrite length_map in Hlen.
  unfold n_pages. lia.
Qed.

Lemma target_store_snapshot (a : Z) (v : byte) (w : world) :
  snapshot m0 k0 dirty w ->
  (k0 (a / PAGE_SIZE) = true -> In (a / PAGE_SIZE) dirty) ->
  exists w', target_store a v w = Ok w' /\ snapshot m0 k0 dirty w'.
Proof.
  intros Hs Hd.
  pose proof (target_store_step a v w) as Hstep.
  inversion Hstep as [Hwp Heq | w1 Hwp Hlt Hm Hp Hk _ _ _ _ _ Heq | Hwp Hge Heq].
  - eexists. split; [reflexivity|].
    destruct Hs as [H1 H2 H3 H4 H5 H6 H7 H8].
    constructor; cbn [mem wp pages set_mem]; try assumption.
    intros x Hx. rewrite store_other_page; [apply H4; exact Hx|].
    intros E. rewrite E in Hx. congruence.
  - exists w1. split; [reflexivity|].
    destruct Hs as [H1 H2 H3 H4 H5 H6 H7 H8].
    assert (Hin : forall r, In r (pages w1) -> In r (pages w) \/ r = saved_page a w).
    { intros r Hr. rewrite Hp in Hr. apply in_app_iff in Hr.
      destruct Hr as [Hr|[<-|[]]]; auto. }
    constructor.
    + intros r Hr. destruct (Hin r Hr) as [Hr'| ->];
        [apply H1; exact Hr' | apply saved_page_addr].
    + intros r Hr. rewrite Hk.
      destruct (Z.eqb_spec (page_no r) (a / PAGE_SIZE)); [reflexivity|].
      destruct (Hin r Hr) as [Hr'| ->]; [apply H2; exact Hr'|].
      rewrite saved_page_no in *. contradiction.
    + intros r j Hr Hj. destruct (Hin r Hr) as [Hr'| ->];
        [apply H3; assumption|].
      rewrite saved_page_data by exact Hj. apply H4.
      rewrite same_page_offset by exact Hj. exact Hwp.
    + intros x Hx. rewrite Hk in Hx. rewrite Hm.
      destruct (Z.eqb_spec (x / PAGE_SIZE) (a / PAGE_SIZE)); [discriminate|].
      rewrite store_other_page by assumption. apply H4. exact Hx.
    + intros pn Hpn Hrel. rewrite Hk in Hrel.
      destruct (Z.eqb_spec pn (a / PAGE_SIZE)) as [->|Hne].
      * exists (saved_page a w). split; [|apply saved_page_no].
        rewrite Hp. apply in_app_iff. right. left. reflexivity.
      * destruct (H5 pn Hpn Hrel) as (r & Hr1 & Hr2).
        exists r. split; [|exact Hr2].
        rewrite Hp. apply in_app_iff. left. exact Hr1.
    + intros pn Hpn. rewrite Hk in Hpn.
      destruct (pn =? a / PAGE_SIZE); [discriminate | apply H6; exact Hpn].
    + rewrite Hp, map_app. cbn [map]. rewrite saved_page_no.
      apply NoDup_app; [exact H7 | repeat constructor; intros [] |].
      intros pn Hpn [<-|[]]. apply in_map_iff in Hpn.
      destruct Hpn as (r & Hr1 & Hr2). apply H2 in Hr2. congruence.
    + rewrite Hp, map_app. cbn [map]. rewrite saved_page_no.
      apply incl_app; [exact H8|].
      intros y [<-|[]]. apply Hd, H6. exact Hwp.
  - exfalso.
    pose proof (snapshot_room w (a / PAGE_SIZE) Hs Hwp
                  (Hd (snap_monotone m0 k0 dirty w Hs _ Hwp))). lia.
Qed.

Lemma target_main_snapshot (ws : list (Z * byte)) :
  forall w,
    snapshot m0 k0 dirty w -> stores_in_dirty k0 dirty ws ->
    exists w', target_main ws w = Ok w' /\ snapshot m0 k0 dirty w'.
Proof.
  induction ws as [|[a v] ws IH]; intros w Hs Hd; cbn [target_main].
  - exists w. split; [reflexivity | exact Hs].
  - destruct (target_store_snapshot a v w Hs) as (w1 & Hrun & Hs1).
    { apply (Hd a v). left. reflexivity. }
    rewrite Hrun. cbn [bind]. apply IH; [exact Hs1|].
    intros a' v' Hin. apply (Hd a' v'). right. exact Hin.
Qed.

Lemma restore_pages_snapshot (w : world) :
  snapshot m0 k0 dirty w -> snapshot m0 k0 dirty (restore_pages w) /\ pristine m0 k0 (restore_pages w).
Proof.
  intros Hs.
  assert (Hx : forall x, mem (restore_pages w) x = m0 x \/
                         (mem (restore_pages w) x = mem w x /\
                          forall r, In r (pages w) ->
                                    within (addr r) PAGE_SIZE x = false)).
  { intros x. apply (restore_fold_agree (m0 x) x (pages w) (mem w)).
    intros r Hr Hin. rewrite (snap_data m0 k0 dirty w Hs r (x - addr r) Hr).
    - f_equal. lia.
    - apply within_spec in Hin. lia. }
  split.
  - destruct Hs as [H1 H2 H3 H4 H5 H6 H7 H8].
    constructor; cbn [wp pages restore_pages set_mem]; try assumption.
    intros x Hwp. destruct (Hx x) as [H|[H _]]; [exact H|].
    rewrite H. apply H4. exact Hwp.
  - intros x Hk. destruct (Hx x) as [H|[H Hnone]]; [exact H|].
    rewrite H. destruct (wp w (x / PAGE_SIZE)) eqn:Hwp.
    + apply (snap_protected m0 k0 dirty w Hs). exact Hwp.
    + destruct (snap_logged m0 k0 dirty w Hs _ Hk Hwp) as (r & Hr1 & Hr2).
      pose proof (Hnone r Hr1) as Hout.
      apply (covers_page r x (snap_aligned m0 k0 dirty w Hs r Hr1)) in Hr2. congruence.
Qed.

Lemma run_iteration_snapshot (i : nat) (it : iteration) (w : world) :
  snapshot m0 k0 dirty w -> stores_in_dirty k0 dirty (writes it) ->
  exists w', run_iteration i it w = Ok w' /\ snapshot m0 k0 dirty w' /\ pristine m0 k0 w'.
Proof.
  intros Hs Hd. unfold run_iteration.
  destruct (target_main_snapshot (writes it)
              (emit ev_target_main
                 (swap_old_stack (emit (ev_clock_gettime (t_start it)) w))))
    as (w1 & Hrun & Hs1).
  { apply (snapshot_ext w); [reflexivity .. | exact Hs]. }
  { exact Hd. }
  rewrite Hrun. cbn [bind]. eexists. split; [reflexivity|].
  destruct (restore_pages_snapshot w1 Hs1) as (Hs2 & Hp2).
  split.
  - apply (snapshot_ext (restore_pages w1)); [reflexivity .. | exact Hs2].
  - exact Hp2.
Qed.

Lemma run_loop_snapshot (its : nat -> iteration) (n : nat) :
  forall (i : nat) (w : world),
    snapshot m0 k0 dirty w ->
    (forall j, (i <= j < i + n)%nat -> stores_in_dirty k0 dirty (writes (its j))) ->
    exists w', run_loop its i n w = Ok w' /\ snapshot m0 k0 dirty w' /\
               (pristine m0 k0 w -> pristine m0 k0 w').
Proof.
  induction n as [|n IH]; intros i w Hs Hd; cbn [run_loop].
  - exists w. split; [reflexivity|]. split; [exact Hs | trivial].
  - destruct (run_iteration_snapshot i (its i) w Hs) as (w1 & Hrun & Hs1 & Hp1).
    { apply Hd. lia. }
    rewrite Hrun. cbn [bind].
    destruct (IH (S i) w1 Hs1) as (w' & Hloop & Hs' & Hp').
    { intros j Hj. apply Hd. lia. }
    exists w'. split; [exact Hloop|]. split; [exact Hs' | auto].
Qed.

End Snapshot.

(** ** Every iteration starts from the same monitored memory *)

Lemma stores_in_dirty_pages (k : Z -> bool) (its : nat -> iteration) (n j : nat) :
  (j < n)%nat ->
  stores_in_dirty k (dirty_pages k (writes_upto its n)) (writes (its j)).
Proof.
  intros Hj a v Hin Hk. unfold dirty_pages.
  apply nodup_In, filter_In. split; [|exact Hk].
  apply in_map_iff. exists (a, v). split; [reflexivity|].
  apply in_flat_map. exists j. split; [apply in_seq; lia | exact Hin].
Qed.

Lemma snapshot_start (w : world) (dirty : list Z) :
  pages w = [] -> snapshot (mem w) (wp w) dirty w.
Proof.
  intros Hp. constructor; rewrite ?Hp; cbn [map In]; try (intros; tauto).
  - intros pn H1 H2. congruence.
  - constructor.
  - intros y [].
Qed.

Lemma monitor_protect_frame (rets : nat -> Z) (l : list procmaps_struct) :
  forall (i : nat) (w w' : world),
    monitor_protect rets i l w = Ok w' ->
    mem w' = mem w /\ pages w' = pages w /\ maps w' = maps w /\
    forall pn,
      wp w pn = true \/
      (exists m, In m l /\
                 page_in_range (addr_start m)
                               (u64 (addr_end m - addr_start m)) pn = true) ->
      wp w' pn = true.
Proof.
  induction l as [|m l IH]; intros i w w' Hrun; cbn [monitor_protect] in Hrun.
  - injection Hrun as <-. repeat split.
    intros pn [H|(m & [] & _)]. exact H.
  - cbv zeta in Hrun. destruct (rets i =? -1); [discriminate|].
    apply IH in Hrun. destruct Hrun as (Hm & Hp & Hmaps & Hwp).
    repeat split; try assumption.
    intros pn H. apply Hwp. cbn [wp set_wp emit].
    unfold kernel_writeprotect.
    destruct (page_in_range (addr_start m) (u64 (addr_end m - addr_start m)) pn)
      eqn:Hin.
    + left. reflexivity.
    + destruct H as [H|(m' & [<-|Hm'] & Hr)].
      * left. exact H.
      * congruence.
      * right. exists m'. split; assumption.
Qed.

Lemma monitor_start_frame (rets : nat -> Z) (w w' : world) :
  monitor_start rets w = Ok w' ->
  mem w' = mem w /\ pages w' = pages w /\ maps w' = maps w /\
  forall m pn,
    In m (maps w) ->
    page_in_range (addr_start m) (u64 (addr_end m - addr_start m)) pn = true ->
    wp w' pn = true.
Proof.
  unfold monitor_start. intros Hrun.
  destruct (monitor_protect rets 0 (maps w) w) as [w1| |] eqn:E;
    cbn [bind] in Hrun; try discriminate.
  injection Hrun as <-.
  destruct (monitor_protect_frame rets (maps w) 0 w w1 E) as (Hm & Hp & Hmaps & Hwp).
  repeat split; try assumption.
  intros m pn Hin Hr. apply Hwp. right. exists m. split; assumption.
Qed.

Lemma region_page_in_range (m : procmaps_struct) (a : Z) :
  addr_start m mod PAGE_SIZE = 0 ->
  0 <= addr_start m <= addr_end m ->
  addr_end m < 2 ^ 64 ->
  addr_start m <= a < addr_end m ->
  page_in_range (addr_start m) (u64 (addr_end m - addr_start m)) (a / PAGE_SIZE) = true.
Proof.
  intros Hal Hse He Ha. unfold page_in_range, u64.
  rewrite Z.mod_small by lia. apply within_spec.
  pose proof (page_bounds a) as Hb.
  apply Z.mod_divide in Hal; [|discriminate]. destruct Hal as [s Hs].
  unfold PAGE_SIZE in *. lia.
Qed.

(** C1, as the code has it: let the watcher have write-protected the
    monitored regions with an empty log, and let the pages that the target
    dirties over the iterations 0 to n, counted together and each once,
    fit the log.  Then the iterations before the n-th run to their end, the
    n-th runs to its end, and after its restore step every byte of every
    monitored region holds what it held just before the n-th call of the
    target. *)
Theorem restore_returns_monitored_memory
        (rets : nat -> Z) (its : nat -> iteration) (n : nat) (w_s w_m : world) :
  pages w_s = [] ->
  monitor_start rets w_s = Ok w_m ->
  Z.of_nat (List.length (dirty_pages (wp w_m) (writes_upto its (S n))))
    <= PAGES_CAPACITY ->
  exists w w',
    run_loop its 0 n (entering_loop w_m) = Ok w /\
    run_iteration n (its n) w = Ok w' /\
    forall R a,
      In R (maps w_s) ->
      addr_start R mod PAGE_SIZE = 0 ->
      0 <= addr_start R <= addr_end R ->
      addr_end R < 2 ^ 64 ->
      addr_start R <= a < addr_end R ->
      mem w' a = mem w a.
Proof.
  intros Hempty Hstart Hfits.
  destruct (monitor_start_frame rets w_s w_m Hstart) as (_ & Hp & Hmaps & Hwp).
  rewrite Hempty in Hp.
  set (dirty := dirty_pages (wp w_m) (writes_upto its (S n))) in *.
  set (w0 := entering_loop w_m).
  assert (Hs0 : snapshot (mem w0) (wp w0) dirty w0)
    by (apply snapshot_start; exact Hp).
  destruct (run_loop_snapshot (mem w0) (wp w0) dirty Hfits its n 0 w0 Hs0)
    as (w & Hloop & Hs & Hpr).
  { intros j Hj. apply (stores_in_dirty_pages (wp w_m)). lia. }
  destruct (run_iteration_snapshot (mem w0) (wp w0) dirty Hfits n (its n) w Hs)
    as (w' & Hiter & _ & Hpr').
  { apply (stores_in_dirty_pages (wp w_m)). lia. }
  exists w, w'. split; [exact Hloop|]. split; [exact Hiter|].
  intros R a HR Hal Hse He Ha.
  assert (Hk : wp w0 (a / PAGE_SIZE) = true).
  { apply (Hwp R); [exact HR|]. apply region_page_in_range; assumption. }
  rewrite (Hpr' a Hk). symmetry. apply Hpr; [|exact Hk].
  intros x _. reflexivity.
Qed.

Lemma restore_returns_monitored_memory_witness :
  exists w_m w w',
    monitor_start (fun _ => 0) world_setup = Ok w_m /\
    run_loop iteration_example 0 2 (entering_loop w_m) = Ok w /\
    run_iteration 2 (iteration_example 2%nat) w = Ok w' /\
    mem w' 0x601008 = mem w 0x601008.
Proof.
  eexists.
  destruct (restore_returns_monitored_memory
              (fun _ => 0) iteration_example 2 world_setup _ eq_refl eq_refl)
    as (w & w' & Hloop & Hiter & Hmem).
  - vm_compute. discriminate.
  - exists w, w'. split; [reflexivity|]. split; [exact Hloop|].
    split; [exact Hiter|].
    apply (Hmem data_region).
    + left. reflexivity.
    + reflexivity.
    + cbn. lia.
    + reflexivity.
    + cbn. lia.
Defined.

Lemma dirty_pages_length (k : Z -> bool) (ws : list (Z * byte)) :
  (List.length (dirty_pages k ws) <= List.length ws)%nat.
Proof.
  unfold dirty_pages.
  transitivity (List.length (filter k (map (fun s => fst s / PAGE_SIZE) ws))).
  - apply NoDup_incl_length; [apply NoDup_nodup|].
    intros y Hy. apply nodup_In in Hy. exact Hy.
  - rewrite <- (length_map (fun s => fst s / PAGE_SIZE) ws). apply filter_length_le.
Qed.

(** Stores into protected pages that differ from each other: each store
    appends one record. *)
Lemma target_main_fresh_pages (v : byte) (l : list Z) :
  forall w,
    NoDup (map (fun a => a / PAGE_SIZE) l) ->
    (forall a, In a l -> wp w (a / PAGE_SIZE) = true) ->
    n_pages w + Z.of_nat (List.length l) <= PAGES_CAPACITY ->
    exists w',
      target_main (map (fun a => (a, v)) l) w = Ok w' /\
      n_pages w' = n_pages w + Z.of_nat (List.length l) /\
      forall pn, ~ In pn (map (fun a => a / PAGE_SIZE) l) -> wp w' pn = wp w pn.
Proof.
  induction l as [|a l IH]; intros w Hnd Hwp Hcap; cbn [map target_main].
  - exists w. cbn [List.length]. repeat split. lia.
  - cbn [map] in Hnd. inversion Hnd as [|? ? Hnotin Hnd']; subst.
    cbn [List.length] in Hcap.
    pose proof (target_store_step a v w) as Hstep.
    inversion Hstep as [Hf Heq | w1 _ Hlt Hm Hp Hk _ _ _ _ _ Heq | _ Hge Heq].
    + rewrite Hwp in Hf by (left; reflexivity). discriminate.
    + cbn [bind].
      assert (Hn1 : n_pages w1 = n_pages w + 1).
      { unfold n_pages. rewrite Hp, length_app. cbn [List.length]. lia. }
      destruct (IH w1 Hnd') as (w' & Hrun & Hn & Hkeep).
      * intros a' Ha'. rewrite Hk.
        destruct (Z.eqb_spec (a' / PAGE_SIZE) (a / PAGE_SIZE)) as [E|_].
        -- exfalso. apply Hnotin. rewrite <- E.
           apply (in_map (fun a => a / PAGE_SIZE)). exact Ha'.
        -- apply Hwp. right. exact Ha'.
      * lia.
      * exists w'. split; [exact Hrun|]. split; [cbn [List.length]; lia|].
        intros pn Hpn. rewrite Hkeep by (intros H; apply Hpn; right; exact H).
        rewrite Hk. destruct (Z.eqb_spec pn (a / PAGE_SIZE)) as [->|_];
          [exfalso; apply Hpn; left; reflexivity | reflexivity].
    + lia.
Qed.

Lemma target_store_overflow (a : Z) (v : byte) (w : world) :
  wp w (a / PAGE_SIZE) = true ->
  PAGES_CAPACITY <= n_pages w ->
  target_store a v w = Undefined.
Proof.
  intros Hwp Hge.
  pose proof (target_store_step a v w) as Hstep.
  inversion Hstep as [Hf Heq | w1 Ht Hlt Hm Hp Hk H1 H2 H3 H4 H5 Heq | Ht Hg Heq].
  - congruence.
  - lia.
  - reflexivity.
Qed.

Lemma wide_page (k : nat) :
  (0x10000000 + PAGE_SIZE * Z.of_nat k) / PAGE_SIZE = 0x10000 + Z.of_nat k.
Proof.
  apply page_number_unique. unfold PAGE_SIZE. lia.
Qed.

Lemma wide_pages_protected (w0 : world) (k : nat) :
  monitor_start (fun _ => 0) world_wide = Ok w0 ->
  (k < 4097)%nat ->
  wp w0 (0x10000 + Z.of_nat k) = true.
Proof.
  intros Hstart Hk.
  destruct (monitor_start_frame _ _ _ Hstart) as (_ & _ & _ & Hwp).
  apply (Hwp wide_region); [left; reflexivity|].
  unfold page_in_range. apply within_spec.
  cbn [wide_region region addr_start addr_end]. unfold u64, PAGE_SIZE.
  rewrite Z.mod_small; lia.
Qed.

(** C1 fails as stated: in each of the two iterations the target dirties no
    more pages than the log has room for, and yet the second iteration
    stores a record past the end of the log, because the records of the
    first iteration are still in it. *)
Lemma per_iteration_capacity_does_not_suffice :
  exists w0,
    monitor_start (fun _ => 0) world_wide = Ok w0 /\
    (forall i, Z.of_nat (List.length (dirty_pages (wp w0) (writes (iterations_wide i))))
               <= PAGES_CAPACITY) /\
    (exists w1, run_iteration 0 (iterations_wide 0%nat) (entering_loop w0) = Ok w1 /\
                n_pages w1 = PAGES_CAPACITY) /\
    run_loop iterations_wide 0 2 (entering_loop w0) = Undefined.
Proof.
  eexists. split; [reflexivity|].
  match goal with |- context [wp ?w] => set (w0 := w) end.
  assert (Hstart : monitor_start (fun _ => 0) world_wide = Ok w0) by reflexivity.
  clearbody w0.
  assert (Hfirst : exists w1,
             run_iteration 0 (iterations_wide 0%nat) (entering_loop w0) = Ok w1 /\
             n_pages w1 = PAGES_CAPACITY /\
             wp w1 (0x10000 + 4096) = true).
  { unfold run_iteration. cbn [iterations_wide writes t_start t_end].
    rewrite <- (map_map (fun k => 0x10000000 + PAGE_SIZE * Z.of_nat k)
                        (fun a => (a, "A"%byte))).
    match goal with
    | |- context [target_main _ ?w] =>
        destruct (target_main_fresh_pages "A"%byte
                    (map (fun k => 0x10000000 + PAGE_SIZE * Z.of_nat k) (seq 0 4096)) w)
          as (wt & Hrun & Hn & Hkeep)
    end.
    - rewrite map_map. apply NoDup_map_inv with (f := fun p => Z.to_nat (p - 0x10000)).
      rewrite map_map. erewrite map_ext; [rewrite map_id; apply seq_NoDup|].
      intros k. cbv beta. rewrite wide_page. lia.
    - intros a Ha. apply in_map_iff in Ha. destruct Ha as (k & <- & Hk).
      apply in_seq in Hk. rewrite wide_page.
      cbn [wp emit swap_old_stack set_stacks entering_loop].
      apply wide_pages_protected; [exact Hstart | lia].
    - rewrite length_map, length_seq.
      destruct (monitor_start_frame _ _ _ Hstart) as (_ & Hp & _).
      unfold n_pages. cbn [pages emit swap_old_stack set_stacks entering_loop].
      rewrite Hp. cbn [pages world_wide List.length]. unfold PAGES_CAPACITY. lia.
    - rewrite Hrun. cbn [bind]. eexists. split; [reflexivity|].
      rewrite length_map, length_seq in Hn.
      destruct (monitor_start_frame _ _ _ Hstart) as (_ & Hp & _).
      split.
      + unfold n_pages in *. cbn [pages emit swap_old_stack set_stacks entering_loop push_time
                                   restore_pages set_mem] in *.
        rewrite Hn, Hp. reflexivity.
      + cbn [wp emit swap_old_stack set_stacks entering_loop push_time restore_pages set_mem].
        rewrite Hkeep.
        * cbn [wp emit swap_old_stack set_stacks entering_loop].
          apply (wide_pages_protected w0 4096 Hstart). lia.
        * rewrite map_map. intros Hin. apply in_map_iff in Hin.
          destruct Hin as (k & Hk & Hin). apply in_seq in Hin.
          rewrite wide_page in Hk. lia. }
  destruct Hfirst as (w1 & Hrun1 & Hn1 & Hwp1).
  split; [|split].
  - intros i. pose proof (dirty_pages_length (wp w0) (writes (iterations_wide i))) as H.
    assert (Hlen : (List.length (writes (iterations_wide i)) <= 4096)%nat).
    { destruct i as [|i]; cbn [iterations_wide writes List.length].
      - rewrite length_map, length_seq. lia.
      - lia. }
    unfold PAGES_CAPACITY. lia.
  - exists w1. split; assumption.
  - cbn [run_loop]. rewrite Hrun1. cbn [bind].
    unfold run_iteration. cbn [iterations_wide writes t_start t_end target_main].
    rewrite target_store_overflow; [reflexivity | |].
    + cbn [wp emit swap_old_stack set_stacks entering_loop]. exact Hwp1.
    + unfold n_pages in *. cbn [pages emit swap_old_stack set_stacks entering_loop]. lia.
Qed.

(** ** What an iteration does around the call of the target *)

Lemma target_store_trace (a : Z) (v : byte) (w w' : world) :
  target_store a v w = Ok w' ->
  times w' = times w /\ maps w' = maps w /\
  exists faults, trace w' = trace w ++ faults /\ Forall is_release faults.
Proof.
  intros Hrun. pose proof (target_store_step a v w) as Hstep.
  rewrite Hrun in Hstep.
  inversion Hstep as [Hwp Heq | w1 Hwp Hcap Hm Hp Hk Hmaps Ht Hr Ho Htr Heq | ]; subst.
  - repeat split. exists []. split; [symmetry; apply app_nil_r | constructor].
  - repeat split; try assumption.
    eexists. split; [exact Htr|]. repeat constructor. eexists. reflexivity.
Qed.

Lemma target_main_trace (ws : list (Z * byte)) :
  forall w w',
    target_main ws w = Ok w' ->
    times w' = times w /\ maps w' = maps w /\
    exists faults, trace w' = trace w ++ faults /\ Forall is_release faults.
Proof.
  induction ws as [|[a v] ws IH]; intros w w' Hrun; cbn [target_main] in Hrun.
  - injection Hrun as <-. repeat split.
    exists []. split; [symmetry; apply app_nil_r | constructor].
  - destruct (target_store a v w) as [w1| |] eqn:E; cbn [bind] in Hrun;
      try discriminate.
    destruct (target_store_trace a v w w1 E) as (Ht1 & Hm1 & f1 & Htr1 & Hf1).
    destruct (IH w1 w' Hrun) as (Ht2 & Hm2 & f2 & Htr2 & Hf2).
    split; [congruence|]. split; [congruence|].
    exists (f1 ++ f2). split; [|apply Forall_app; split; assumption].
    rewrite Htr2, Htr1, app_assoc. reflexivity.
Qed.

Lemma run_iteration_inv (i : nat) (it : iteration) (w w' : world) :
  run_iteration i it w = Ok w' ->
  exists wt,
    target_main (writes it) (at_target it w) = Ok wt /\
    w' = emit (ev_store_time (Z.of_nat i) (timespecDiff (t_end it) (t_start it)))
           (push_time (timespecDiff (t_end it) (t_start it))
              (emit (ev_clock_gettime (t_end it))
                 (restore_pages (emit ev_restore_pages (swap_old_stack wt))))).
Proof.
  unfold run_iteration. fold (at_target it w). intros Hrun.
  destruct (target_main (writes it) (at_target it w)) as [wt| |] eqn:E;
    cbn [bind] in Hrun; try discriminate.
  injection Hrun as <-. exists wt. split; reflexivity.
Qed.

(** C2, as the code has it: when the call of the target has returned, the
    iteration copies the saved contents of every record back to the address
    of the record (the records being those of distinct, page-aligned pages,
    as the watcher writes them); the log and its count are left as they
    are, no page is write-protected again, and the iteration ends with the
    second reading of the clock and the store of the elapsed time. *)
Theorem restore_copies_back_and_keeps_log
        (i : nat) (it : iteration) (w w' : world) :
  run_iteration i it w = Ok w' ->
  exists wt,
    target_main (writes it) (at_target it w) = Ok wt /\
    (NoDup (map page_no (pages wt)) ->
     (forall r, In r (pages wt) -> addr r = PAGE_SIZE * page_no r) ->
     forall r j, In r (pages wt) -> 0 <= j < PAGE_SIZE ->
                 mem w' (addr r + j) = data r j) /\
    (forall x, (forall r, In r (pages wt) -> within (addr r) PAGE_SIZE x = false) ->
               mem w' x = mem wt x) /\
    pages w' = pages wt /\
    n_pages w' = n_pages wt /\
    wp w' = wp wt /\
    trace w' = trace wt ++ [ev_swap_old_stack; ev_restore_pages;
                            ev_clock_gettime (t_end it);
                            ev_store_time (Z.of_nat i)
                                          (timespecDiff (t_end it) (t_start it))].
Proof.
  intros Hrun. destruct (run_iteration_inv i it w w' Hrun) as (wt & Ht & ->).
  exists wt. split; [exact Ht|].
  split; [|split; [|split; [reflexivity|split; [reflexivity|split; [reflexivity|]]]]].
  - intros Hnd Hal r j Hr Hj.
    change (restore_fold (pages wt) (mem wt) (addr r + j) = data r j).
    destruct (restore_fold_agree (data r j) (addr r + j) (pages wt) (mem wt))
      as [H|[_ Hnone]]; [|exact H|].
    + intros r' Hr' Hin.
      assert (Hr0 : within (addr r) PAGE_SIZE (addr r + j) = true)
        by (apply within_spec; lia).
      apply (covers_page r' _ (Hal r' Hr')) in Hin.
      apply (covers_page r _ (Hal r Hr)) in Hr0.
      assert (r' = r) as ->
          by (apply (NoDup_map_inj page_no (pages wt) Hnd); congruence).
      f_equal. lia.
    + specialize (Hnone r Hr).
      assert (within (addr r) PAGE_SIZE (addr r + j) = true)
        by (apply within_spec; lia).
      congruence.
  - intros x Hnone.
    change (restore_fold (pages wt) (mem wt) x = mem wt x).
    destruct (restore_fold_agree (mem wt x) x (pages wt) (mem wt))
      as [H|[H _]]; [|exact H|exact H].
    intros r Hr Hin. rewrite (Hnone r Hr) in Hin. discriminate.
  - cbn [trace emit push_time restore_pages set_mem swap_old_stack set_stacks].
    repeat rewrite <- app_assoc. reflexivity.
Qed.

Lemma restore_copies_back_and_keeps_log_witness :
  exists w' wt,
    run_iteration 0 (iteration_example 0%nat) world_ready = Ok w' /\
    target_main writes_example (at_target (iteration_example 0%nat) world_ready) = Ok wt /\
    pages w' = pages wt /\ wp w' = wp wt.
Proof.
  eexists.
  destruct (restore_copies_back_and_keeps_log
              0 (iteration_example 0%nat) world_ready _ eq_refl)
    as (wt & Ht & _ & _ & Hp & _ & Hk & _).
  exists wt. split; [reflexivity|]. split; [exact Ht|]. split; assumption.
Defined.

(** C2 fails as stated: after an iteration in which the target has dirtied
    the data page, the log still holds its record, the page is still
    without its trap, and between the return of the target and the end of
    the iteration no request has gone to the userfaultfd. *)
Lemma restore_neither_clears_nor_rearms :
  exists w',
    run_iteration 0 (iteration_example 0%nat) world_ready = Ok w' /\
    n_pages world_ready = 0 /\ n_pages w' = 1 /\
    wp world_ready 0x601 = true /\ wp w' 0x601 = false /\
    trace w' = trace world_ready ++
               [ev_clock_gettime 0; ev_swap_old_stack; ev_target_main;
                ev_ioctl UFFDIO_WRITEPROTECT 0x601000 0x1000 0;
                ev_swap_old_stack; ev_restore_pages;
                ev_clock_gettime 250; ev_store_time 0 250].
Proof.
  assert (H : match run_iteration 0 (iteration_example 0%nat) world_ready with
              | Ok w' =>
                  n_pages world_ready = 0 /\ n_pages w' = 1 /\
                  wp world_ready 0x601 = true /\ wp w' 0x601 = false /\
                  trace w' = trace world_ready ++
                             [ev_clock_gettime 0; ev_swap_old_stack; ev_target_main;
                              ev_ioctl UFFDIO_WRITEPROTECT 0x601000 0x1000 0;
                              ev_swap_old_stack; ev_restore_pages;
                              ev_clock_gettime 250; ev_store_time 0 250]
              | _ => False
              end) by (vm_compute; repeat split).
  destruct (run_iteration 0 (iteration_example 0%nat) world_ready) as [w'| |];
    [exists w'; split; [reflexivity | exact H] | destruct H ..].
Qed.

(** ** Timing *)

Lemma run_loop_times (its : nat -> iteration) (n : nat) :
  forall (i : nat) (w w' : world),
    run_loop its i n w = Ok w' ->
    times w' = times w ++ map (elapsed its) (seq i n).
Proof.
  induction n as [|n IH]; intros i w w' Hrun; cbn [run_loop] in Hrun.
  - injection Hrun as <-. cbn [seq map]. symmetry. apply app_nil_r.
  - destruct (run_iteration i (its i) w) as [w1| |] eqn:E; cbn [bind] in Hrun;
      try discriminate.
    rewrite (IH (S i) w1 w' Hrun). cbn [seq map].
    destruct (run_iteration_inv i (its i) w w1 E) as (wt & Ht & ->).
    destruct (target_main_trace _ _ _ Ht) as (Htimes & _).
    cbn [times emit push_time restore_pages set_mem swap_old_stack set_stacks].
    rewrite Htimes. cbn [times at_target emit swap_old_stack set_stacks].
    rewrite <- app_assoc. reflexivity.
Qed.

Lemma run_iteration_trace (i : nat) (it : iteration) (w w' : world) :
  run_iteration i it w = Ok w' ->
  exists faults,
    Forall is_release faults /\
    trace w' = trace w ++
               [ev_clock_gettime (t_start it); ev_swap_old_stack; ev_target_main]
               ++ faults ++
               [ev_swap_old_stack; ev_restore_pages; ev_clock_gettime (t_end it);
                ev_store_time (Z.of_nat i) (timespecDiff (t_end it) (t_start it))].
Proof.
  intros Hrun.
  destruct (run_iteration_inv i it w w' Hrun) as (wt & Ht & ->).
  destruct (target_main_trace _ _ _ Ht) as (_ & _ & faults & Htr & Hf).
  exists faults. split; [exact Hf|].
  cbn [trace emit push_time restore_pages set_mem swap_old_stack set_stacks].
  rewrite Htr. cbn [trace at_target emit swap_old_stack set_stacks].
  repeat rewrite <- app_assoc. reflexivity.
Qed.

(** C4, as the code has it: an iteration reads the clock, swaps the stacks,
    calls the target, swaps the stacks back, restores the pages, and only
    then reads the clock again; the duration it stores is the difference of
    the two readings, so that it covers the restore step.  One duration is
    stored per iteration, in the order of the iterations, and the loop runs
    to its end when the pages the target dirties over all iterations fit
    the log. *)
Theorem elapsed_time_covers_target_and_restore
        (its : nat -> iteration) (n : nat) (w0 : world) :
  (pages w0 = [] ->
   Z.of_nat (List.length (dirty_pages (wp w0) (writes_upto its n))) <= PAGES_CAPACITY ->
   exists w', run_loop its 0 n w0 = Ok w') /\
  (forall w', run_loop its 0 n w0 = Ok w' ->
     times w' = times w0 ++ map (elapsed its) (seq 0 n) /\
     List.length (times w') = (List.length (times w0) + n)%nat) /\
  (forall i w w', run_iteration i (its i) w = Ok w' ->
     exists faults,
       Forall is_release faults /\
       trace w' = trace w ++
                  [ev_clock_gettime (t_start (its i)); ev_swap_old_stack;
                   ev_target_main] ++ faults ++
                  [ev_swap_old_stack; ev_restore_pages;
                   ev_clock_gettime (t_end (its i));
                   ev_store_time (Z.of_nat i) (elapsed its i)]).
Proof.
  split; [|split].
  - intros Hp Hfits.
    destruct (run_loop_snapshot (mem w0) (wp w0) _ Hfits its n 0 w0
                (snapshot_start w0 _ Hp)) as (w' & Hrun & _).
    + intros j Hj. apply stores_in_dirty_pages. lia.
    + exists w'. exact Hrun.
  - intros w' Hrun. pose proof (run_loop_times its n 0 w0 w' Hrun) as H.
    split; [exact H|]. rewrite H, length_app, length_map, length_seq. reflexivity.
  - intros i w w' Hrun. apply run_iteration_trace. exact Hrun.
Qed.

Lemma elapsed_time_covers_target_and_restore_witness :
  exists w',
    run_loop iteration_example 0 3 world_ready = Ok w' /\
    times w' = [250; 250; 250].
Proof.
  destruct (elapsed_time_covers_target_and_restore iteration_example 3 world_ready)
    as (Hdef & Htimes & _).
  destruct Hdef as (w' & Hrun).
  - reflexivity.
  - vm_compute. discriminate.
  - exists w'. split; [exact Hrun|].
    rewrite (proj1 (Htimes w' Hrun)). reflexivity.
Defined.

(** C4 fails as stated: in the iteration below the second reading of the
    clock comes after [restore_pages], not right after the stacks are
    swapped back, so that the restore step lies within the timed
    interval. *)
Lemma restore_step_is_timed :
  exists w',
    run_iteration 0 (iteration_example 0%nat) world_ready = Ok w' /\
    skipn (List.length (trace world_ready)) (trace w')
    = [ev_clock_gettime 0; ev_swap_old_stack; ev_target_main;
       ev_ioctl UFFDIO_WRITEPROTECT 0x601000 0x1000 0;
       ev_swap_old_stack; ev_restore_pages;
       ev_clock_gettime 250; ev_store_time 0 250] /\
    In ev_restore_pages
       (timed_events false (skipn (List.length (trace world_ready)) (trace w'))).
Proof.
  assert (H : match run_iteration 0 (iteration_example 0%nat) world_ready with
              | Ok w' =>
                  skipn (List.length (trace world_ready)) (trace w')
                  = [ev_clock_gettime 0; ev_swap_old_stack; ev_target_main;
                     ev_ioctl UFFDIO_WRITEPROTECT 0x601000 0x1000 0;
                     ev_swap_old_stack; ev_restore_pages;
                     ev_clock_gettime 250; ev_store_time 0 250] /\
                  In ev_restore_pages
                     (timed_events false
                        (skipn (List.length (trace world_ready)) (trace w')))
              | _ => False
              end).
  { vm_compute. split; [reflexivity|]. do 4 right. left. reflexivity. }
  destruct (run_iteration 0 (iteration_example 0%nat) world_ready) as [w'| |];
    [exists w'; split; [reflexivity | exact H] | destruct H ..].
Qed.

(** ** Teardown *)

Lemma no_unregister_refl (w w' : world) :
  trace w' = trace w -> no_unregister w w'.
Proof.
  intros H. exists []. split; [rewrite H; symmetry; apply app_nil_r | constructor].
Qed.

Lemma no_unregister_trans (w1 w2 w3 : world) :
  no_unregister w1 w2 -> no_unregister w2 w3 -> no_unregister w1 w3.
Proof.
  intros (a1 & H1 & F1) (a2 & H2 & F2). exists (a1 ++ a2).
  split; [rewrite H2, H1, app_assoc; reflexivity | apply Forall_app; split; assumption].
Qed.

Lemma no_unregister_emit (e : event) (w w' : world) :
  is_unregister e = false -> no_unregister w w' -> no_unregister w (emit e w').
Proof.
  intros He H. apply (no_unregister_trans w w' _ H).
  exists [e]. split; [reflexivity | repeat constructor; exact He].
Qed.

Lemma load_maps_loop_trace (R W G : Z) (regions : list procmaps_struct) :
  forall w w', load_maps_loop R W G regions w = Ok w' -> trace w' = trace w.
Proof.
  induction regions as [|m rest IH]; intros w w' Hrun; cbn [load_maps_loop] in Hrun.
  - injection Hrun as <-. reflexivity.
  - repeat match type of Hrun with
           | (if ?c then _ else _) = _ => destruct c
           end;
      try discriminate; apply IH in Hrun; exact Hrun.
Qed.

Lemma remap_no_unregister (w : world) : no_unregister w (remap w).
Proof.
  exists (flat_map remap_requests (maps w)). split; [apply remap_fold_trace|].
  apply Forall_flat_map, Forall_forall. intros m _.
  repeat constructor.
Qed.

Lemma register_loop_no_unregister (rets : nat -> Z) (l : list procmaps_struct) :
  forall i w, no_unregister w (snd (register_loop rets i l w)).
Proof.
  induction l as [|m l IH]; intros i w; cbn [register_loop].
  - apply no_unregister_refl. reflexivity.
  - cbv zeta. destruct (rets i =? -1); cbn [snd].
    + apply no_unregister_emit; [reflexivity | apply no_unregister_refl; reflexivity].
    + eapply no_unregister_trans; [|apply IH].
      apply no_unregister_emit; [reflexivity | apply no_unregister_refl; reflexivity].
Qed.

Lemma uffd_setup_no_unregister (e : environment) (w : world) :
  no_unregister w (snd (uffd_setup e w)).
Proof.
  unfold uffd_setup. cbv zeta.
  assert (H1 : no_unregister w (emit ev_userfaultfd w))
    by (apply no_unregister_emit; [reflexivity | apply no_unregister_refl; reflexivity]).
  assert (H2 : no_unregister w (emit (ev_ioctl UFFDIO_API UFFD_API 0 0)
                                     (emit ev_userfaultfd w)))
    by (apply no_unregister_emit; [reflexivity | exact H1]).
  destruct (userfaultfd_ret e <? 0); [exact H1|].
  destruct (negb (api_ret e =? 0)); [exact H2|].
  destruct (negb (api_version e =? UFFD_API)); [exact H2|].
  destruct (Z.land (api_features e) UFFD_FEATURE_PAGEFAULT_FLAG_WP =? 0); [exact H2|].
  pose proof (register_loop_no_unregister (register_ret e)
                (maps (emit (ev_ioctl UFFDIO_API UFFD_API 0 0) (emit ev_userfaultfd w)))
                0 (emit (ev_ioctl UFFDIO_API UFFD_API 0 0) (emit ev_userfaultfd w)))
    as H3.
  destruct (register_loop _ _ _ _) as [ok w1]. cbn [snd] in H3.
  destruct ok; cbn [snd]; apply (no_unregister_trans _ _ _ H2 H3).
Qed.

Lemma monitor_protect_no_unregister (rets : nat -> Z) (l : list procmaps_struct) :
  forall i w w', monitor_protect rets i l w = Ok w' -> no_unregister w w'.
Proof.
  induction l as [|m l IH]; intros i w w' Hrun; cbn [monitor_protect] in Hrun.
  - injection Hrun as <-. apply no_unregister_refl. reflexivity.
  - cbv zeta in Hrun. destruct (rets i =? -1); [discriminate|].
    apply IH in Hrun. eapply no_unregister_trans; [|exact Hrun].
    exists [ev_ioctl UFFDIO_WRITEPROTECT (addr_start m)
                     (u64 (addr_end m - addr_start m)) UFFDIO_WRITEPROTECT_MODE_WP].
    split; [reflexivity | repeat constructor].
Qed.

Lemma run_iteration_no_unregister (i : nat) (it : iteration) (w w' : world) :
  run_iteration i it w = Ok w' -> no_unregister w w'.
Proof.
  intros Hrun.
  destruct (run_iteration_trace i it w w' Hrun) as (faults & Hf & Htr).
  eexists. split; [exact Htr|].
  repeat (apply Forall_cons; [reflexivity|]). apply Forall_app. split.
  - apply Forall_forall. intros e He.
    rewrite Forall_forall in Hf. destruct (Hf e He) as (a & ->). reflexivity.
  - repeat constructor.
Qed.

Lemma run_loop_no_unregister (its : nat -> iteration) (n : nat) :
  forall i w w', run_loop its i n w = Ok w' -> no_unregister w w'.
Proof.
  induction n as [|n IH]; intros i w w' Hrun; cbn [run_loop] in Hrun.
  - injection Hrun as <-. apply no_unregister_refl. reflexivity.
  - destruct (run_iteration i (its i) w) as [w1| |] eqn:E; cbn [bind] in Hrun;
      try discriminate.
    apply (no_unregister_trans _ w1);
      [apply (run_iteration_no_unregister _ _ _ _ E) | apply (IH _ _ _ Hrun)].
Qed.

(** What [uffd_deregister] would do: it asks the kernel to unregister the
    range of every monitored region, in order, and returns 0; it returns 1
    at the first request the kernel refuses. *)
Lemma deregister_loop_spec (rets : nat -> Z) (l : list procmaps_struct) :
  forall i w,
    ((forall j, (i <= j < i + List.length l)%nat -> rets j <> -1) ->
     fst (deregister_loop rets i l w) = 0 /\
     trace (snd (deregister_loop rets i l w)) = trace w ++ map unregister_request l) /\
    (forall j, (i <= j < i + List.length l)%nat -> rets j = -1 ->
     fst (deregister_loop rets i l w) = 1).
Proof.
  induction l as [|m l IH]; intros i w; cbn [deregister_loop List.length].
  - split.
    + intros _. split; [reflexivity | symmetry; apply app_nil_r].
    + intros j Hj. lia.
  - cbv zeta. fold (unregister_request m). split.
    + intros Hok. destruct (Z.eqb_spec (rets i) (-1)) as [E|_].
      * exfalso. apply (Hok i); [lia | exact E].
      * destruct (IH (S i) (emit (unregister_request m) w)) as ((H1 & H2) & _).
        { intros j Hj. apply Hok. lia. }
        split; [exact H1|]. rewrite H2. cbn [trace emit map].
        rewrite <- app_assoc. reflexivity.
    + intros j Hj Hfail. destruct (Z.eqb_spec (rets i) (-1)) as [_|Hne];
        [reflexivity|].
      destruct (Nat.eq_dec j i) as [->|Hji]; [contradiction|].
      apply (proj2 (IH (S i) (emit (unregister_request m) w)) j); [lia | exact Hfail].
Qed.

Section Run.

Variables REMAP_ADDR WRITE_IGNORED_ADDR GOT_PLT_ADDR ITERS : Z.

(** C9 does not hold of the code: whatever the environment answers, a call
    of [run] that returns has sent no request to unregister a range to the
    userfaultfd; after the last iteration it restores the standard output,
    reports the times and returns. *)
Theorem run_never_deregisters (e : environment) (w w' : world) (ret : Z) :
  run REMAP_ADDR WRITE_IGNORED_ADDR GOT_PLT_ADDR ITERS e w = Ok (ret, w') ->
  exists added,
    trace w' = trace w ++ added /\
    Forall (fun ev => is_unregister ev = false) added /\
    (ret = 0 -> exists before, added = before ++ [ev_dup2; ev_report_times]).
Proof.
  unfold run, load_maps. intros Hrun.
  destruct (proc_maps e) as [regions|]; cbn [bind] in Hrun.
  - destruct (load_maps_loop _ _ _ regions w) as [w1| |] eqn:E1; cbn [bind] in Hrun;
      try discriminate.
    apply load_maps_loop_trace in E1.
    change (negb (0 =? 0)) with false in Hrun. cbv iota in Hrun.
    pose proof (remap_no_unregister w1) as H2.
    pose proof (uffd_setup_no_unregister e (remap w1)) as H3.
    destruct (uffd_setup e (remap w1)) as [uffd w3]. cbn [snd] in H3.
    assert (H13 : no_unregister w w3).
    { apply (no_unregister_trans _ w1); [apply no_unregister_refl; exact E1|].
      apply (no_unregister_trans _ _ _ H2 H3). }
    destruct (uffd =? 0).
    + injection Hrun as <- <-. destruct H13 as (added & Ha & Hf).
      exists added. repeat split; try assumption. discriminate.
    + unfold monitor_start in Hrun.
      destruct (monitor_protect _ 0 _ _) as [w4| |] eqn:E4; cbn [bind] in Hrun;
        try discriminate.
      apply monitor_protect_no_unregister in E4.
      destruct (run_loop _ 0 _ _) as [w5| |] eqn:E5; cbn [bind] in Hrun;
        try discriminate.
      apply run_loop_no_unregister in E5.
      injection Hrun as <- <-.
      assert (H15 : no_unregister w w5).
      { apply (no_unregister_trans _ w3 _ H13).
        apply (no_unregister_trans _ (emit ev_pthread_create w3)).
        - apply no_unregister_emit; [reflexivity | apply no_unregister_refl; reflexivity].
        - apply (no_unregister_trans _ w4 _ E4).
          eapply no_unregister_trans; [|exact E5].
          repeat (apply no_unregister_emit; [reflexivity|]).
          apply no_unregister_refl. reflexivity. }
      destruct H15 as (added & Ha & Hf).
      exists (added ++ [ev_dup2; ev_report_times]). split; [|split].
      * cbn [trace emit]. rewrite Ha, <- !app_assoc. reflexivity.
      * apply Forall_app. split; [exact Hf | repeat constructor].
      * intros _. exists added. reflexivity.
  - injection Hrun as <- <-. exists []. split; [symmetry; apply app_nil_r|].
    split; [constructor | discriminate].
Qed.

End Run.

Lemma run_never_deregisters_witness :
  exists w',
    run 0x700000 0x800000 0x603000 2 env_example world_init = Ok (0, w') /\
    Forall (fun ev => is_unregister ev = false) (trace w').
Proof.
  assert (H : match run 0x700000 0x800000 0x603000 2 env_example world_init with
              | Ok (ret, _) => ret = 0
              | _ => False
              end) by (vm_compute; reflexivity).
  destruct (run 0x700000 0x800000 0x603000 2 env_example world_init)
    as [[ret w']| |] eqn:E; [|destruct H ..].
  subst ret. exists w'. split; [reflexivity|].
  destruct (run_never_deregisters 0x700000 0x800000 0x603000 2
              env_example world_init w' 0 E) as (added & Ha & Hf & _).
  rewrite Ha. exact Hf.
Defined.

(** On the same process [uffd_deregister] itself, were it called at the
    end of [run], would unregister the two monitored regions. *)
Example uffd_deregister_unregisters_the_maps :
  forall w, maps w = [text_region; data_region] ->
    fst (uffd_deregister env_example w) = 0 /\
    trace (snd (uffd_deregister env_example w))
    = trace w ++ [ev_ioctl UFFDIO_UNREGISTER 0x400000 0x1000 0;
                  ev_ioctl UFFDIO_UNREGISTER 0x601000 0x1000 0].
Proof.
  intros w Hmaps. unfold uffd_deregister. rewrite Hmaps.
  apply (deregister_loop_spec (unregister_ret env_example)
           [text_region; data_region] 0 w).
  intros j _. cbn. discriminate.
Qed.

(** * Further properties of the harness *)

(** ** What the watcher leaves alone *)

Lemma target_store_frame (a : Z) (v : byte) (w w' : world) :
  target_store a v w = Ok w' ->
  mem w' = store a v (mem w) /\
  maps w' = maps w /\ times w' = times w /\
  rsp w' = rsp w /\ old_stack w' = old_stack w /\
  (forall pn, wp w' pn = true -> wp w pn = true) /\
  (pages w' = pages w \/
   (wp w (a / PAGE_SIZE) = true /\ pages w' = pages w ++ [saved_page a w])).
Proof.
  intros Hrun. pose proof (target_store_step a v w) as Hstep.
  rewrite Hrun in Hstep.
  inversion Hstep as [Hwp Heq | w1 Hwp Hcap Hm Hp Hk Hmaps Ht Hr Ho Htr Heq | ]; subst.
  - repeat split; auto.
  - repeat split; auto.
    intros pn. rewrite Hk. destruct (pn =? a / PAGE_SIZE); [discriminate | auto].
Qed.

Lemma target_main_frame (ws : list (Z * byte)) :
  forall w w',
    target_main ws w = Ok w' ->
    mem w' = apply_stores ws (mem w) /\
    maps w' = maps w /\ times w' = times w /\
    rsp w' = rsp w /\ old_stack w' = old_stack w.
Proof.
  induction ws as [|[a v] ws IH]; intros w w' Hrun; cbn [target_main] in Hrun.
  - injection Hrun as <-. repeat split.
  - destruct (target_store a v w) as [w1| |] eqn:E; cbn [bind] in Hrun;
      try discriminate.
    destruct (target_store_frame a v w w1 E) as (Hm & Hmaps & Ht & Hr & Ho & _).
    destruct (IH w1 w' Hrun) as (Hm' & Hmaps' & Ht' & Hr' & Ho').
    repeat split; try congruence.
    rewrite Hm', Hm. reflexivity.
Qed.

(** X1: the watcher is invisible to the target: when a call of the target
    returns, memory holds exactly what the stores of the target put there,
    in their order, whether or not they faulted; the table of regions, the
    timings and the two stack pointers are as before. *)
Theorem target_sees_its_own_stores (ws : list (Z * byte)) (w w' : world) :
  target_main ws w = Ok w' ->
  mem w' = apply_stores ws (mem w) /\
  maps w' = maps w /\ times w' = times w /\
  rsp w' = rsp w /\ old_stack w' = old_stack w.
Proof. apply target_main_frame. Qed.

Lemma target_sees_its_own_stores_witness :
  exists w',
    target_main writes_example world_example = Ok w' /\
    mem w' 0x601008 = "A"%byte /\ mem w' 0x601010 = "B"%byte.
Proof.
  destruct (target_main_defined writes_example world_example) as (w' & Hrun).
  { vm_compute. discriminate. }
  exists w'. split; [exact Hrun|].
  destruct (target_sees_its_own_stores writes_example world_example w' Hrun)
    as (Hm & _).
  rewrite Hm. split; reflexivity.
Defined.

(** ** The log holds written pages only *)

Lemma target_main_new_records (ws : list (Z * byte)) :
  forall w w',
    target_main ws w = Ok w' ->
    (forall pn, wp w' pn = true -> wp w pn = true) /\
    exists new,
      pages w' = pages w ++ new /\
      forall r, In r new ->
        exists a v, In (a, v) ws /\ wp w (a / PAGE_SIZE) = true /\
                    addr r = PAGE_SIZE * (a / PAGE_SIZE).
Proof.
  induction ws as [|[a v] ws IH]; intros w w' Hrun; cbn [target_main] in Hrun.
  - injection Hrun as <-. split; [auto|].
    exists []. split; [symmetry; apply app_nil_r | intros r []].
  - destruct (target_store a v w) as [w1| |] eqn:E; cbn [bind] in Hrun;
      try discriminate.
    destruct (target_store_frame a v w w1 E) as (_ & _ & _ & _ & _ & Hmono & Hp).
    destruct (IH w1 w' Hrun) as (Hmono' & new & Hnew & Hrec).
    split; [auto|].
    assert (Hold : forall r, In r new ->
               exists a0 v0, In (a0, v0) ((a, v) :: ws) /\
                             wp w (a0 / PAGE_SIZE) = true /\
                             addr r = PAGE_SIZE * (a0 / PAGE_SIZE)).
    { intros r Hr. destruct (Hrec r Hr) as (a0 & v0 & Hin & Hwp & Ha).
      exists a0, v0. split; [right; exact Hin|]. split; [auto | exact Ha]. }
    destruct Hp as [Hp|[Hwp Hp]].
    + exists new. split; [rewrite Hnew, Hp; reflexivity | exact Hold].
    + exists (saved_page a w :: new). split.
      * rewrite Hnew, Hp, <- app_assoc. reflexivity.
      * intros r [<-|Hr]; [|apply Hold; exact Hr].
        exists a, v. split; [left; reflexivity|]. split; [exact Hwp|].
        apply page_mask.
Qed.

(** X2: the log grows only by pages the target has written: every record
    appended during a call of the target is for the page of one of its
    stores, a page that was write-protected when the call began; a call
    without stores to protected pages appends nothing. *)
Theorem only_written_pages_are_logged (ws : list (Z * byte)) (w w' : world) :
  target_main ws w = Ok w' ->
  exists new,
    pages w' = pages w ++ new /\
    (forall r, In r new ->
       exists a v, In (a, v) ws /\ wp w (a / PAGE_SIZE) = true /\
                   addr r = PAGE_SIZE * (a / PAGE_SIZE)) /\
    ((forall a v, In (a, v) ws -> wp w (a / PAGE_SIZE) = false) -> new = []).
Proof.
  intros Hrun.
  destruct (target_main_new_records ws w w' Hrun) as (_ & new & Hnew & Hrec).
  exists new. split; [exact Hnew|]. split; [exact Hrec|].
  intros Hnone. destruct new as [|r new]; [reflexivity|].
  destruct (Hrec r (or_introl eq_refl)) as (a & v & Hin & Hwp & _).
  rewrite (Hnone a v Hin) in Hwp. discriminate.
Qed.

Lemma only_written_pages_are_logged_witness :
  exists w' new,
    target_main writes_example world_example = Ok w' /\
    pages w' = pages world_example ++ new /\
    forall r, In r new -> addr r = 0x601000.
Proof.
  destruct (target_main_defined writes_example world_example) as (w' & Hrun).
  { vm_compute. discriminate. }
  destruct (only_written_pages_are_logged writes_example world_example w' Hrun)
    as (new & Hnew & Hrec & _).
  exists w', new. split; [exact Hrun|]. split; [exact Hnew|].
  intros r Hr. destruct (Hrec r Hr) as (a & v & Hin & _ & ->).
  destruct Hin as [E|[E|[]]]; injection E as <- _; reflexivity.
Defined.

(** ** The capacity of the log *)

(** X3: the log holds 4096 records and the watcher does not check: stores
    into write-protected pages that differ from each other are all logged
    while they fit, and make the watcher store past the end of [pages] as
    soon as they are one too many. *)
Theorem log_capacity_is_unchecked (v : byte) (l : list Z) (w : world) :
  NoDup (map (fun a => a / PAGE_SIZE) l) ->
  (forall a, In a l -> wp w (a / PAGE_SIZE) = true) ->
  (n_pages w + Z.of_nat (List.length l) <= PAGES_CAPACITY ->
   exists w', target_main (map (fun a => (a, v)) l) w = Ok w' /\
              n_pages w' = n_pages w + Z.of_nat (List.length l)) /\
  (PAGES_CAPACITY < n_pages w + Z.of_nat (List.length l) ->
   n_pages w <= PAGES_CAPACITY ->
   target_main (map (fun a => (a, v)) l) w = Undefined).
Proof.
  intros Hnd Hwp. split.
  - intros Hfit.
    destruct (target_main_fresh_pages v l w Hnd Hwp Hfit) as (w' & Hrun & Hn & _).
    exists w'. split; assumption.
  - revert w Hnd Hwp. induction l as [|a l IH]; intros w Hnd Hwp Hover Hle.
    + cbn [List.length] in Hover. lia.
    + cbn [map target_main]. cbn [map] in Hnd.
      inversion Hnd as [|? ? Hnotin Hnd']; subst.
      cbn [List.length] in Hover.
      destruct (Z_lt_le_dec (n_pages w) PAGES_CAPACITY) as [Hlt|Hge].
      * pose proof (target_store_step a v w) as Hstep.
        inversion Hstep as [Hf Heq | w1 Ht Hlt' Hm Hp Hk H1 H2 H3 H4 H5 Heq
                            | Ht Hg Heq].
        -- rewrite Hwp in Hf by (left; reflexivity). discriminate.
        -- cbn [bind].
           assert (Hn1 : n_pages w1 = n_pages w + 1).
           { unfold n_pages. rewrite Hp, length_app. cbn [List.length]. lia. }
           apply IH; [exact Hnd' | | lia | lia].
           intros a' Ha'. rewrite Hk.
           destruct (Z.eqb_spec (a' / PAGE_SIZE) (a / PAGE_SIZE)) as [E|_].
           ++ exfalso. apply Hnotin. rewrite <- E.
              apply (in_map (fun a => a / PAGE_SIZE)). exact Ha'.
           ++ apply Hwp. right. exact Ha'.
        -- lia.
      * rewrite target_store_overflow;
          [reflexivity | apply Hwp; left; reflexivity | exact Hge].
Qed.

Lemma log_capacity_is_unchecked_witness :
  exists w',
    target_main (map (fun a => (a, "A"%byte)) [0x601008]) world_example = Ok w' /\
    n_pages w' = 1.
Proof.
  destruct (log_capacity_is_unchecked "A"%byte [0x601008] world_example)
    as (Hfit & _).
  - repeat constructor. intros [].
  - intros a [<-|[]]. reflexivity.
  - destruct Hfit as (w' & Hrun & Hn); [vm_compute; discriminate|].
    exists w'. split; [exact Hrun | exact Hn].
Defined.

(** ** [restore_pages], again *)

Lemma restore_fold_last_cover (l : list page_t) :
  forall m x,
    restore_fold l m x = match last_cover l x with
                         | Some v => v
                         | None => m x
                         end.
Proof.
  induction l as [|r l IH]; intros m x; [reflexivity|].
  cbn [restore_fold fold_left last_cover].
  fold (restore_fold l (memcpy_to (addr r) (data r) m)).
  rewrite IH. destruct (last_cover l x); [reflexivity|].
  unfold memcpy_to. destruct (within (addr r) PAGE_SIZE x); reflexivity.
Qed.

(** X4: [restore_pages] can be repeated: every byte is given what the last
    record that covers it holds, or left alone when no record covers it, so
    that a second call changes no byte, and a call with an empty log
    changes nothing at all; the log, the protection and the trace are
    never touched. *)
Theorem restore_pages_is_idempotent (w : world) :
  (forall x, mem (restore_pages w) x = match last_cover (pages w) x with
                                       | Some v => v
                                       | None => mem w x
                                       end) /\
  (forall x, mem (restore_pages (restore_pages w)) x = mem (restore_pages w) x) /\
  (pages w = [] -> restore_pages w = w) /\
  pages (restore_pages w) = pages w /\
  wp (restore_pages w) = wp w /\
  trace (restore_pages w) = trace w.
Proof.
  assert (H1 : forall w0 x, mem (restore_pages w0) x
                            = match last_cover (pages w0) x with
                              | Some v => v
                              | None => mem w0 x
                              end).
  { intros w0 x. apply (restore_fold_last_cover (pages w0) (mem w0) x). }
  split; [apply H1|]. split; [|split].
  - intros x. rewrite (H1 (restore_pages w)), (H1 w).
    cbn [pages restore_pages set_mem].
    destruct (last_cover (pages w) x); reflexivity.
  - intros Hp. unfold restore_pages. rewrite Hp. destruct w; reflexivity.
  - repeat split.
Qed.

(** ** The requests of setup and teardown *)

Lemma only_trace_refl (w : world) : only_trace w w.
Proof. repeat split. Qed.

Lemma only_trace_trans (w1 w2 w3 : world) :
  only_trace w1 w2 -> only_trace w2 w3 -> only_trace w1 w3.
Proof.
  intros (A1 & A2 & A3 & A4 & A5 & A6 & A7) (B1 & B2 & B3 & B4 & B5 & B6 & B7).
  repeat split; congruence.
Qed.

Lemma only_trace_emit (e : event) (w w' : world) :
  only_trace w w' -> only_trace w (emit e w').
Proof. intros H. exact H. Qed.

Lemma shift_granted (rets : nat -> Z) (i n : nat) :
  all_granted (fun j => rets (i + j)%nat) (S n) ->
  rets i <> -1 /\ all_granted (fun j => rets (S i + j)%nat) n.
Proof.
  unfold all_granted. intros H. split.
  - specialize (H 0%nat). cbv beta in H. rewrite Nat.add_0_r in H. apply H. lia.
  - intros j Hj. specialize (H (S j)). cbv beta in H.
    replace (i + S j)%nat with (S i + j)%nat in H by lia. apply H. lia.
Qed.

Lemma shift_refused (rets : nat -> Z) (i k : nat) :
  first_refused (fun j => rets (i + j)%nat) (S k) ->
  rets i <> -1 /\ first_refused (fun j => rets (S i + j)%nat) k.
Proof.
  intros [Hg Hr]. destruct (shift_granted rets i k Hg) as [H0 Hg'].
  split; [exact H0|]. split; [exact Hg'|]. cbv beta in *.
  replace (S i + k)%nat with (i + S k)%nat by lia. exact Hr.
Qed.

Lemma register_loop_granted (rets : nat -> Z) (l : list procmaps_struct) :
  forall i w,
    all_granted (fun j => rets (i + j)%nat) (List.length l) ->
    fst (register_loop rets i l w) = true /\
    trace (snd (register_loop rets i l w)) = trace w ++ map register_request l /\
    only_trace w (snd (register_loop rets i l w)).
Proof.
  induction l as [|m l IH]; intros i w Hg; cbn [register_loop].
  - split; [reflexivity|]. split; [symmetry; apply app_nil_r | apply only_trace_refl].
  - cbv zeta. fold (register_request m).
    destruct (shift_granted rets i _ Hg) as [H0 Hg'].
    apply Z.eqb_neq in H0. rewrite H0.
    destruct (IH (S i) (emit (register_request m) w) Hg') as (H1 & H2 & H3).
    split; [exact H1|]. split; [|exact H3].
    rewrite H2. cbn [trace emit map]. rewrite <- app_assoc. reflexivity.
Qed.

Lemma register_loop_refused (rets : nat -> Z) (l : list procmaps_struct) :
  forall k i w,
    (k < List.length l)%nat ->
    first_refused (fun j => rets (i + j)%nat) k ->
    fst (register_loop rets i l w) = false /\
    trace (snd (register_loop rets i l w))
    = trace w ++ map register_request (firstn (S k) l) /\
    only_trace w (snd (register_loop rets i l w)).
Proof.
  induction l as [|m l IH]; intros k i w Hk Hr; cbn [List.length] in Hk; [lia|].
  cbn [register_loop]. cbv zeta. fold (register_request m).
  destruct k as [|k].
  - destruct Hr as [_ Hr]. cbv beta in Hr. rewrite Nat.add_0_r in Hr. rewrite Hr.
    change (-1 =? -1) with true. cbv iota. cbn [fst snd firstn map].
    repeat split.
  - destruct (shift_refused rets i k Hr) as [H0 Hr'].
    apply Z.eqb_neq in H0. rewrite H0.
    destruct (IH k (S i) (emit (register_request m) w) ltac:(lia) Hr')
      as (H1 & H2 & H3).
    split; [exact H1|]. split; [|exact H3].
    rewrite H2. cbn [trace emit map firstn]. rewrite <- app_assoc. reflexivity.
Qed.

Lemma register_loop_only_trace (rets : nat -> Z) (l : list procmaps_struct) :
  forall i w, only_trace w (snd (register_loop rets i l w)).
Proof.
  induction l as [|m l IH]; intros i w; cbn [register_loop];
    [apply only_trace_refl|].
  cbv zeta. destruct (rets i =? -1); [repeat split|].
  apply (only_trace_trans _ (emit (register_request m) w));
    [repeat split | apply IH].
Qed.

Lemma granted_from_zero (rets : nat -> Z) (n : nat) :
  all_granted rets n -> all_granted (fun j => rets (0 + j)%nat) n.
Proof. intros H j Hj. apply H. exact Hj. Qed.

Lemma refused_from_zero (rets : nat -> Z) (k : nat) :
  first_refused rets k -> first_refused (fun j => rets (0 + j)%nat) k.
Proof. intros [Hg Hr]. split; [apply granted_from_zero; exact Hg | exact Hr]. Qed.

Lemma uffd_setup_only_trace (e : environment) (w : world) :
  only_trace w (snd (uffd_setup e w)).
Proof.
  unfold uffd_setup. cbv zeta.
  destruct (userfaultfd_ret e <? 0); [repeat split|].
  destruct (negb (api_ret e =? 0)); [repeat split|].
  destruct (negb (api_version e =? UFFD_API)); [repeat split|].
  destruct (Z.land (api_features e) UFFD_FEATURE_PAGEFAULT_FLAG_WP =? 0);
    [repeat split|].
  pose proof (register_loop_only_trace (register_ret e)
                (maps (emit (ev_ioctl UFFDIO_API UFFD_API 0 0) (emit ev_userfaultfd w)))
                0 (emit (ev_ioctl UFFDIO_API UFFD_API 0 0) (emit ev_userfaultfd w)))
    as H.
  destruct (register_loop _ _ _ _) as [ok w3].
  destruct ok; exact H.
Qed.

(** X5: [uffd_setup] changes nothing but what it asks of the kernel, and
    returns 0 at the first step that fails, without going on: when the
    descriptor cannot be opened, when the handshake fails or the kernel
    lacks the write-protect feature, and at the first region the kernel
    refuses to register.  When all goes through it has registered every
    monitored region once, in order, in write-protect mode, and returns the
    descriptor. *)
Theorem uffd_setup_stops_at_first_failure (e : environment) (w : world) :
  only_trace w (snd (uffd_setup e w)) /\
  (userfaultfd_ret e < 0 ->
   fst (uffd_setup e w) = 0 /\
   trace (snd (uffd_setup e w)) = trace w ++ [ev_userfaultfd]) /\
  (0 <= userfaultfd_ret e -> ~ handshake_ok e ->
   fst (uffd_setup e w) = 0 /\
   trace (snd (uffd_setup e w))
   = trace w ++ [ev_userfaultfd; ev_ioctl UFFDIO_API UFFD_API 0 0]) /\
  (handshake_ok e ->
   forall k, (k < List.length (maps w))%nat -> first_refused (register_ret e) k ->
   fst (uffd_setup e w) = 0 /\
   trace (snd (uffd_setup e w))
   = trace w ++ [ev_userfaultfd; ev_ioctl UFFDIO_API UFFD_API 0 0]
             ++ map register_request (firstn (S k) (maps w))) /\
  (handshake_ok e ->
   all_granted (register_ret e) (List.length (maps w)) ->
   fst (uffd_setup e w) = userfaultfd_ret e /\
   trace (snd (uffd_setup e w))
   = trace w ++ [ev_userfaultfd; ev_ioctl UFFDIO_API UFFD_API 0 0]
             ++ map register_request (maps w)).
Proof.
  set (w2 := emit (ev_ioctl UFFDIO_API UFFD_API 0 0) (emit ev_userfaultfd w)).
  assert (Hshape : forall (Hh : handshake_ok e),
             uffd_setup e w
             = let '(ok, w3) := register_loop (register_ret e) 0 (maps w) w2 in
               if ok then (userfaultfd_ret e, w3) else (0, w3)).
  { intros (H1 & H2 & H3 & H4). unfold uffd_setup. cbv zeta.
    apply Z.ltb_ge in H1. rewrite H1, H2, H3.
    apply Z.eqb_neq in H4. rewrite H4. rewrite Z.eqb_refl. reflexivity. }
  split; [apply uffd_setup_only_trace|split; [|split; [|split]]].
  - intros Hneg. unfold uffd_setup. cbv zeta.
    apply Z.ltb_lt in Hneg. rewrite Hneg. split; reflexivity.
  - intros Hpos Hno. unfold uffd_setup. cbv zeta.
    replace (userfaultfd_ret e <? 0) with false by (symmetry; apply Z.ltb_ge; exact Hpos).
    assert (Hstop : fst (0, w2) = 0 /\
                    trace (snd (0, w2))
                    = trace w ++ [ev_userfaultfd; ev_ioctl UFFDIO_API UFFD_API 0 0]).
    { split; [reflexivity|]. subst w2. cbn [snd trace emit].
      rewrite <- app_assoc. reflexivity. }
    fold w2.
    destruct (Z.eqb_spec (api_ret e) 0) as [H2|H2]; cbn [negb]; [|exact Hstop].
    destruct (Z.eqb_spec (api_version e) UFFD_API) as [H3|H3]; cbn [negb];
      [|exact Hstop].
    destruct (Z.eqb_spec (Z.land (api_features e) UFFD_FEATURE_PAGEFAULT_FLAG_WP) 0)
      as [H4|H4]; [exact Hstop|].
    exfalso. apply Hno. repeat split; assumption.
  - intros Hh k Hk Hr. rewrite (Hshape Hh).
    destruct (register_loop_refused (register_ret e) (maps w) k 0 w2 Hk
                (refused_from_zero _ _ Hr)) as (H1 & H2 & _).
    destruct (register_loop (register_ret e) 0 (maps w) w2) as [ok w3].
    cbn [fst snd] in *. subst ok. cbv beta iota. cbn [fst snd].
    split; [reflexivity|].
    rewrite H2. subst w2. cbn [trace emit]. rewrite <- !app_assoc. reflexivity.
  - intros Hh Hg. rewrite (Hshape Hh).
    destruct (register_loop_granted (register_ret e) (maps w) 0 w2
                (granted_from_zero _ _ Hg)) as (H1 & H2 & _).
    destruct (register_loop (register_ret e) 0 (maps w) w2) as [ok w3].
    cbn [fst snd] in *. subst ok. cbv beta iota. cbn [fst snd].
    split; [reflexivity|].
    rewrite H2. subst w2. cbn [trace emit]. rewrite <- !app_assoc. reflexivity.
Qed.

Lemma deregister_loop_only_trace (rets : nat -> Z) (l : list procmaps_struct) :
  forall i w, only_trace w (snd (deregister_loop rets i l w)).
Proof.
  induction l as [|m l IH]; intros i w; cbn [deregister_loop];
    [apply only_trace_refl|].
  cbv zeta. destruct (rets i =? -1); [repeat split|].
  apply (only_trace_trans _ (emit (unregister_request m) w));
    [repeat split | apply IH].
Qed.

Lemma deregister_loop_refused (rets : nat -> Z) (l : list procmaps_struct) :
  forall k i w,
    (k < List.length l)%nat ->
    first_refused (fun j => rets (i + j)%nat) k ->
    fst (deregister_loop rets i l w) = 1 /\
    trace (snd (deregister_loop rets i l w))
    = trace w ++ map unregister_request (firstn (S k) l).
Proof.
  induction l as [|m l IH]; intros k i w Hk Hr; cbn [List.length] in Hk; [lia|].
  cbn [deregister_loop]. cbv zeta. fold (unregister_request m).
  destruct k as [|k].
  - destruct Hr as [_ Hr]. cbv beta in Hr. rewrite Nat.add_0_r in Hr. rewrite Hr.
    change (-1 =? -1) with true. cbv iota. cbn [fst snd firstn map].
    repeat split.
  - destruct (shift_refused rets i k Hr) as [H0 Hr'].
    apply Z.eqb_neq in H0. rewrite H0.
    destruct (IH k (S i) (emit (unregister_request m) w) ltac:(lia) Hr')
      as (H1 & H2).
    split; [exact H1|].
    rewrite H2. cbn [trace emit map firstn]. rewrite <- app_assoc. reflexivity.
Qed.

(** X6: [uffd_deregister] asks the kernel to unregister the monitored
    regions one by one, in the order of the table.  It returns 0 when every
    request is granted; at the first refusal it returns 1 at once, which
    leaves the regions after that one registered.  It changes nothing
    else. *)
Theorem uffd_deregister_stops_at_first_failure (e : environment) (w : world) :
  only_trace w (snd (uffd_deregister e w)) /\
  (all_granted (unregister_ret e) (List.length (maps w)) ->
   fst (uffd_deregister e w) = 0 /\
   trace (snd (uffd_deregister e w)) = trace w ++ map unregister_request (maps w)) /\
  (forall k, (k < List.length (maps w))%nat -> first_refused (unregister_ret e) k ->
   fst (uffd_deregister e w) = 1 /\
   trace (snd (uffd_deregister e w))
   = trace w ++ map unregister_request (firstn (S k) (maps w))).
Proof.
  unfold uffd_deregister. split; [apply deregister_loop_only_trace|]. split.
  - intros Hg.
    apply (proj1 (deregister_loop_spec (unregister_ret e) (maps w) 0 w)).
    intros j Hj. apply Hg. lia.
  - intros k Hk Hr. apply deregister_loop_refused; [exact Hk|].
    apply refused_from_zero. exact Hr.
Qed.

(** ** The first loop of the watcher *)

Lemma protect_effect (m : procmaps_struct) (k : Z -> bool) (pn : Z) :
  kernel_writeprotect (addr_start m) (u64 (addr_end m - addr_start m))
                      UFFDIO_WRITEPROTECT_MODE_WP k pn
  = k pn || page_in_range (addr_start m) (u64 (addr_end m - addr_start m)) pn.
Proof.
  unfold kernel_writeprotect.
  destruct (page_in_range _ _ pn); [rewrite orb_true_r | rewrite orb_false_r];
    reflexivity.
Qed.

Lemma monitor_protect_granted (rets : nat -> Z) (l : list procmaps_struct) :
  forall i w,
    all_granted (fun j => rets (i + j)%nat) (List.length l) ->
    exists w',
      monitor_protect rets i l w = Ok w' /\
      trace w' = trace w ++ map protect_request l /\
      (forall pn, wp w' pn = wp w pn || in_some_region l pn) /\
      mem w' = mem w /\ maps w' = maps w /\ pages w' = pages w /\
      times w' = times w /\ rsp w' = rsp w /\ old_stack w' = old_stack w.
Proof.
  induction l as [|m l IH]; intros i w Hg; cbn [monitor_protect].
  - exists w. split; [reflexivity|]. split; [symmetry; apply app_nil_r|].
    split; [intros pn; cbn; symmetry; apply orb_false_r | repeat split].
  - cbv zeta. fold (protect_request m).
    destruct (shift_granted rets i _ Hg) as [H0 Hg'].
    apply Z.eqb_neq in H0. rewrite H0.
    destruct (IH (S i)
                (set_wp (kernel_writeprotect (addr_start m)
                           (u64 (addr_end m - addr_start m))
                           UFFDIO_WRITEPROTECT_MODE_WP
                           (wp (emit (protect_request m) w)))
                        (emit (protect_request m) w)) Hg')
      as (w' & Hrun & Htr & Hwp & Hrest).
    exists w'. split; [exact Hrun|]. split; [|split; [|exact Hrest]].
    + rewrite Htr. cbn [trace emit set_wp map]. rewrite <- app_assoc. reflexivity.
    + intros pn. rewrite Hwp. cbn [wp emit set_wp in_some_region existsb].
      rewrite protect_effect, orb_assoc. reflexivity.
Qed.

Lemma monitor_protect_refused (rets : nat -> Z) (l : list procmaps_struct) :
  forall k i w,
    (k < List.length l)%nat ->
    first_refused (fun j => rets (i + j)%nat) k ->
    monitor_protect rets i l w = Exit 1.
Proof.
  induction l as [|m l IH]; intros k i w Hk Hr; cbn [List.length] in Hk; [lia|].
  cbn [monitor_protect]. cbv zeta.
  destruct k as [|k].
  - destruct Hr as [_ Hr]. cbv beta in Hr. rewrite Nat.add_0_r in Hr. rewrite Hr.
    reflexivity.
  - destruct (shift_refused rets i k Hr) as [H0 Hr'].
    apply Z.eqb_neq in H0. rewrite H0. apply (IH k); [lia | exact Hr'].
Qed.

(** X7: before it waits for faults the watcher write-protects the range of
    every monitored region, in the order of the table, and only then
    signals that it is ready: afterwards a page is protected exactly when
    it was already or lies in one of the regions, and memory, the table and
    the log are as before.  When the kernel refuses one of the requests the
    process ends with status 1 and the signal is never sent. *)
Theorem watcher_protects_every_region (rets : nat -> Z) (w : world) :
  (all_granted rets (List.length (maps w)) ->
   exists w',
     monitor_start rets w = Ok w' /\
     trace w' = trace w ++ map protect_request (maps w) ++ [ev_cond_signal] /\
     (forall pn, wp w' pn = wp w pn || in_some_region (maps w) pn) /\
     mem w' = mem w /\ maps w' = maps w /\ pages w' = pages w /\
     times w' = times w /\ rsp w' = rsp w /\ old_stack w' = old_stack w) /\
  (forall k, (k < List.length (maps w))%nat -> first_refused rets k ->
   monitor_start rets w = Exit 1).
Proof.
  unfold monitor_start. split.
  - intros Hg.
    destruct (monitor_protect_granted rets (maps w) 0 w (granted_from_zero _ _ Hg))
      as (w' & Hrun & Htr & Hwp & Hrest).
    rewrite Hrun. cbn [bind]. eexists. split; [reflexivity|].
    split; [|split; [exact Hwp | exact Hrest]].
    cbn [trace emit]. rewrite Htr, <- app_assoc. reflexivity.
  - intros k Hk Hr.
    rewrite (monitor_protect_refused rets (maps w) k 0 w Hk (refused_from_zero _ _ Hr)).
    reflexivity.
Qed.

(** ** The loop of the watcher *)

Lemma monitor_iter_retry (r : reply) (w : world) :
  retryable r -> monitor_iter r w = Ok w.
Proof.
  intros [H|[H|[[H1 H2]|[(Hp & H1 & H2)|[[Hp Hr] Hf]]]]].
  - unfold monitor_iter. rewrite H. reflexivity.
  - unfold monitor_iter. rewrite H. reflexivity.
  - unfold monitor_iter. rewrite H1, H2.
    destruct ((pollres r =? -1) || (pollres r =? 0)); reflexivity.
  - rewrite (monitor_iter_read r w Hp), H1, H2. reflexivity.
  - rewrite (monitor_iter_read r w Hp), Hr, Hf. reflexivity.
Qed.

Lemma monitor_iter_cases (r : reply) (w : world) :
  monitor_iter r w = Ok w \/
  monitor_iter r w = Undefined \/
  (exists s, monitor_iter r w = Exit s /\ (s = 2 \/ s = 3 \/ s = 4 \/ s = 5)) \/
  (exists w', monitor_iter r w = Ok w' /\
              mem w' = mem w /\ maps w' = maps w /\ times w' = times w /\
              (exists rec, pages w' = pages w ++ [rec]) /\
              (forall pn, wp w' pn = true -> wp w pn = true)).
Proof.
  unfold monitor_iter.
  destruct ((pollres r =? -1) || (pollres r =? 0)); [left; reflexivity|].
  destruct (negb (Z.land (revents r) POLLERR =? 0));
    [right; right; left; exists 2; split; [reflexivity | auto]|].
  destruct (Z.land (revents r) POLLIN =? 0); [left; reflexivity|].
  destruct (readret r =? -1).
  { destruct (errno r =? EAGAIN); [left; reflexivity|].
    right; right; left; exists 3; split; [reflexivity | auto]. }
  destruct (negb (readret r =? sizeof_uffd_msg));
    [right; right; left; exists 4; split; [reflexivity | auto 6]|].
  destruct (negb (Z.land (pagefault_flags (msg r)) UFFD_PAGEFAULT_FLAG_WP =? 0));
    [|left; reflexivity].
  cbv zeta. destruct (n_pages w <? PAGES_CAPACITY); [|right; left; reflexivity].
  destruct (ioctl_ret r =? -1);
    [right; right; left; exists 5; split; [reflexivity | auto 6]|].
  right; right; right. eexists. split; [reflexivity|].
  cbn [mem maps times pages wp set_wp emit push_page]. repeat split.
  - eexists. reflexivity.
  - intros pn. rewrite release_single_page.
    destruct (pn =? _); [discriminate | auto].
Qed.

(** X8: however the kernel answers, the watcher's loop never returns and
    never writes to memory: after any number of passes it is either still
    going round, with memory, the table of regions and the timings as they
    were, a log that has only grown, by at most one record per pass, and no
    page protected that was not before; or the process has ended with one
    of the statuses 2, 3, 4 and 5; or the log has overflowed.  Passes that
    only meet retryable conditions leave the state as it is. *)
Theorem watcher_loop_only_logs_and_releases (rs : list reply) (w : world) :
  (Forall retryable rs -> monitor_loop rs w = Ok w) /\
  (forall s, monitor_loop rs w = Exit s -> s = 2 \/ s = 3 \/ s = 4 \/ s = 5) /\
  (forall w', monitor_loop rs w = Ok w' ->
     mem w' = mem w /\ maps w' = maps w /\ times w' = times w /\
     (exists new, pages w' = pages w ++ new /\
                  (List.length new <= List.length rs)%nat) /\
     (forall pn, wp w' pn = true -> wp w pn = true)).
Proof.
  split; [|split].
  - revert w. induction rs as [|r rs IH]; intros w Hall; [reflexivity|].
    inversion Hall as [|? ? Hr Hrs]; subst.
    cbn [monitor_loop]. rewrite (monitor_iter_retry r w Hr). cbn [bind].
    apply IH. exact Hrs.
  - revert w. induction rs as [|r rs IH]; intros w s Hrun; cbn [monitor_loop] in Hrun;
      [discriminate|].
    destruct (monitor_iter_cases r w) as [H|[H|[(s' & H & Hs)|(w1 & H & _)]]];
      rewrite H in Hrun; cbn [bind] in Hrun.
    + apply (IH w s Hrun).
    + discriminate.
    + injection Hrun as <-. exact Hs.
    + apply (IH w1 s Hrun).
  - revert w. induction rs as [|r rs IH]; intros w w' Hrun; cbn [monitor_loop] in Hrun.
    + injection Hrun as <-. repeat split; auto.
      exists []. split; [symmetry; apply app_nil_r | cbn; lia].
    + destruct (monitor_iter_cases r w)
        as [H|[H|[(s' & H & Hs)|(w1 & H & Hm & Hmaps & Ht & (rec & Hp) & Hk)]]];
        rewrite H in Hrun; cbn [bind] in Hrun; try discriminate.
      * destruct (IH w w' Hrun) as (A & B & C & (new & Hnew & Hlen) & D).
        repeat split; auto. exists new. split; [exact Hnew | cbn; lia].
      * destruct (IH w1 w' Hrun) as (A & B & C & (new & Hnew & Hlen) & D).
        repeat split; try congruence; auto.
        exists (rec :: new). split; [|cbn; lia].
        rewrite Hnew, Hp, <- app_assoc. reflexivity.
Qed.

(** ** [load_maps] on any memory map *)

Section LoadMapsAgain.

Variables REMAP_ADDR WRITE_IGNORED_ADDR GOT_PLT_ADDR : Z.

Lemma load_maps_loop_inv (regions : list procmaps_struct) :
  forall w w',
    load_maps_loop REMAP_ADDR WRITE_IGNORED_ADDR GOT_PLT_ADDR regions w = Ok w' ->
    maps w' = maps w ++ filter (kept REMAP_ADDR WRITE_IGNORED_ADDR GOT_PLT_ADDR) regions /\
    n_maps w' <= Z.max (n_maps w) MAPS_CAPACITY /\
    mem w' = mem w /\ wp w' = wp w /\ pages w' = pages w /\ times w' = times w /\
    rsp w' = rsp w /\ old_stack w' = old_stack w /\ trace w' = trace w.
Proof.
  induction regions as [|m rest IH]; intros w w' Hrun.
  - injection Hrun as <-. cbn [filter]. rewrite app_nil_r. repeat split. lia.
  - cbn [load_maps_loop filter] in *. unfold kept at 1.
    destruct ((addr_start m =? REMAP_ADDR) || (addr_start m =? WRITE_IGNORED_ADDR));
      cbn [negb andb]; [apply IH; exact Hrun|].
    destruct (is_r m || is_w m || is_x m);
      cbn [negb andb]; [|apply IH; exact Hrun].
    destruct ((pathname m =? "[vsyscall]")%string
              || (pathname m =? "[vvar]")%string
              || (pathname m =? "[vdso]")%string);
      cbn [negb andb]; [apply IH; exact Hrun|].
    destruct (addr_start m =? GOT_PLT_ADDR);
      cbn [negb andb]; [apply IH; exact Hrun|].
    destruct (Z.ltb_spec (n_maps w) MAPS_CAPACITY) as [Hlt|Hge]; [|discriminate].
    destruct (IH _ _ Hrun) as (Hmaps & Hn & Hrest).
    split; [|split; [|exact Hrest]].
    + rewrite Hmaps. cbn [maps push_map]. rewrite <- app_assoc. reflexivity.
    + unfold n_maps in *. cbn [maps push_map] in Hn.
      rewrite length_app in Hn. cbn [List.length] in Hn. lia.
Qed.

Lemma load_maps_loop_overflow (regions : list procmaps_struct) :
  forall w,
    n_maps w <= MAPS_CAPACITY ->
    MAPS_CAPACITY
    < n_maps w
      + Z.of_nat (List.length
                    (filter (kept REMAP_ADDR WRITE_IGNORED_ADDR GOT_PLT_ADDR) regions)) ->
    load_maps_loop REMAP_ADDR WRITE_IGNORED_ADDR GOT_PLT_ADDR regions w = Undefined.
Proof.
  induction regions as [|m rest IH]; intros w Hle Hover.
  - cbn [filter List.length] in Hover. lia.
  - cbn [load_maps_loop filter] in *. unfold kept at 1 in Hover.
    destruct ((addr_start m =? REMAP_ADDR) || (addr_start m =? WRITE_IGNORED_ADDR));
      cbn [negb andb] in *; [apply IH; assumption|].
    destruct (is_r m || is_w m || is_x m);
      cbn [negb andb] in *; [|apply IH; assumption].
    destruct ((pathname m =? "[vsyscall]")%string
              || (pathname m =? "[vvar]")%string
              || (pathname m =? "[vdso]")%string);
      cbn [negb andb] in *; [apply IH; assumption|].
    destruct (addr_start m =? GOT_PLT_ADDR);
      cbn [negb andb] in *; [apply IH; assumption|].
    cbn [List.length] in Hover.
    destruct (Z.ltb_spec (n_maps w) MAPS_CAPACITY) as [Hlt|Hge]; [|reflexivity].
    apply IH; unfold n_maps in *; cbn [maps push_map];
      rewrite length_app; cbn [List.length]; lia.
Qed.

(** X9: [load_maps] touches the table of regions only.  When the memory map
    cannot be opened it returns -1 and the table is as it was; when it
    returns 0 the table has grown by the regions that pass its tests, in
    the order of the map, and holds at most 256 entries; and when more
    regions pass than the table has room for, it stores past the end of
    [maps], for it does not check. *)
Theorem load_maps_fills_the_table_unchecked (e : environment) (w : world) :
  (proc_maps e = None ->
   load_maps REMAP_ADDR WRITE_IGNORED_ADDR GOT_PLT_ADDR e w = Ok (-1, w)) /\
  (forall ret w',
     load_maps REMAP_ADDR WRITE_IGNORED_ADDR GOT_PLT_ADDR e w = Ok (ret, w') ->
     mem w' = mem w /\ wp w' = wp w /\ pages w' = pages w /\ times w' = times w /\
     rsp w' = rsp w /\ old_stack w' = old_stack w /\ trace w' = trace w /\
     (ret = 0 ->
      exists regions,
        proc_maps e = Some regions /\
        maps w' = maps w
                  ++ filter (kept REMAP_ADDR WRITE_IGNORED_ADDR GOT_PLT_ADDR) regions /\
        n_maps w' <= Z.max (n_maps w) MAPS_CAPACITY)) /\
  (forall regions,
     proc_maps e = Some regions ->
     n_maps w <= MAPS_CAPACITY ->
     MAPS_CAPACITY
     < n_maps w
       + Z.of_nat (List.length
                     (filter (kept REMAP_ADDR WRITE_IGNORED_ADDR GOT_PLT_ADDR) regions)) ->
     load_maps REMAP_ADDR WRITE_IGNORED_ADDR GOT_PLT_ADDR e w = Undefined).
Proof.
  unfold load_maps. split; [|split].
  - intros ->. reflexivity.
  - intros ret w' Hrun. destruct (proc_maps e) as [regions|].
    + destruct (load_maps_loop _ _ _ regions w) as [w1| |] eqn:E; cbn [bind] in Hrun;
        try discriminate.
      injection Hrun as <- <-.
      destruct (load_maps_loop_inv regions w w1 E)
        as (Hmaps & Hn & A & B & C & D & F & G & H).
      repeat split; try assumption.
      intros _. exists regions. repeat split; assumption.
    + injection Hrun as <- <-. repeat split. discriminate.
  - intros regions -> Hle Hover.
    rewrite (load_maps_loop_overflow regions w Hle Hover). reflexivity.
Qed.

End LoadMapsAgain.

(** ** [remap] keeps the contents of memory *)

Lemma copy_bytes_spec (dst src : Z) (n : nat) :
  forall (j : Z) (m : memory) (x : Z),
    0 <= j ->
    (forall a b, 0 <= a < j + Z.of_nat n -> 0 <= b < j + Z.of_nat n ->
                 src + a <> dst + b) ->
    copy_bytes dst src j n m x
    = if within (dst + j) (Z.of_nat n) x then m (src + (x - dst)) else m x.
Proof.
  induction n as [|n IH]; intros j m x Hj Hdis; cbn [copy_bytes].
  - unfold within. destruct (Z.leb_spec (dst + j) x), (Z.ltb_spec x (dst + j + Z.of_nat 0));
      cbn [andb]; try reflexivity. lia.
  - rewrite IH; [|lia|intros a b Ha Hb; apply Hdis; lia].
    unfold within, store.
    destruct (Z.leb_spec (dst + (j + 1)) x), (Z.ltb_spec x (dst + (j + 1) + Z.of_nat n)),
             (Z.leb_spec (dst + j) x), (Z.ltb_spec x (dst + j + Z.of_nat (S n)));
      cbn [andb]; try lia;
      repeat match goal with
             | |- context [?a =? ?b] => destruct (Z.eqb_spec a b)
             end;
      try reflexivity; try lia; try (f_equal; lia);
      try (exfalso; apply (Hdis (x - dst) j); lia).
Qed.

Lemma remap_region_frame (m : procmaps_struct) (w : world) :
  wp (remap_region m w) = wp w /\ maps (remap_region m w) = maps w /\
  pages (remap_region m w) = pages w /\ times (remap_region m w) = times w /\
  rsp (remap_region m w) = rsp w /\ old_stack (remap_region m w) = old_stack w.
Proof. repeat split. Qed.

Lemma remap_region_mem (m : procmaps_struct) (w : world) (x : Z) :
  clear_of_scratch m ->
  mem (remap_region m w) x
  = if within SCRATCH_ADDR (length m) x
    then mem w (addr_start m + (x - SCRATCH_ADDR))
    else mem w x.
Proof.
  intros [Hlen Hclear].
  assert (Hpos : 0 <= length m).
  { rewrite Hlen. unfold u64. apply Z.mod_pos_bound. reflexivity. }
  unfold remap_region, remap_mmap, remap_munmap, remap_mprotect, copy_loop,
    my_syscall.
  cbn [mem emit set_mem kernel_syscall].
  change (__NR_mmap =? __NR_mmap) with true.
  change (negb (Z.land (Z.lor (Z.lor MAP_PRIVATE MAP_ANONYMOUS) MAP_FIXED)
                       MAP_ANONYMOUS =? 0)) with true.
  change (negb (Z.land (Z.lor (Z.lor MAP_PRIVATE MAP_ANONYMOUS) MAP_FIXED)
                       MAP_FIXED =? 0)) with true.
  cbn [andb]. rewrite <- Hlen.
  rewrite copy_bytes_spec; [|lia|intros a b Ha Hb; rewrite Z2Nat.id in * by lia; lia].
  rewrite Z.add_0_r, Z2Nat.id by lia.
  destruct (within (addr_start m) (length m) x) eqn:Hin.
  - apply within_spec in Hin.
    replace (within (addr_start m) (length m) (SCRATCH_ADDR + (x - addr_start m)))
      with false by (symmetry; apply not_true_is_false; rewrite within_spec; lia).
    rewrite copy_bytes_spec;
      [|lia|intros a b Ha Hb; rewrite Z2Nat.id in * by lia; lia].
    rewrite Z.add_0_r, Z2Nat.id by lia.
    replace (within SCRATCH_ADDR (length m) (SCRATCH_ADDR + (x - addr_start m)))
      with true by (symmetry; apply within_spec; lia).
    replace (within SCRATCH_ADDR (length m) x)
      with false by (symmetry; apply not_true_is_false; rewrite within_spec; lia).
    replace (within SCRATCH_ADDR (length m)
               (addr_start m + (SCRATCH_ADDR + (x - addr_start m) - SCRATCH_ADDR)))
      with false by (symmetry; apply not_true_is_false; rewrite within_spec; lia).
    f_equal. lia.
  - rewrite copy_bytes_spec;
      [|lia|intros a b Ha Hb; rewrite Z2Nat.id in * by lia; lia].
    rewrite Z.add_0_r, Z2Nat.id by lia.
    destruct (within SCRATCH_ADDR (length m) x) eqn:Hs; [|reflexivity].
    apply within_spec in Hs.
    replace (within SCRATCH_ADDR (length m) (addr_start m + (x - SCRATCH_ADDR)))
      with false by (symmetry; apply not_true_is_false; rewrite within_spec; lia).
    reflexivity.
Qed.

Lemma remap_fold_mem (l : list procmaps_struct) :
  forall (w : world) (x : Z),
    (forall m, In m l -> clear_of_scratch m) ->
    (forall m, In m l -> within SCRATCH_ADDR (length m) x = false) ->
    mem (fold_left (fun w cur_map => remap_region cur_map w) l w) x = mem w x.
Proof.
  induction l as [|m l IH]; intros w x Hclear Hout; cbn [fold_left]; [reflexivity|].
  rewrite IH; [|intros m' Hm'; apply Hclear; right; exact Hm'
               |intros m' Hm'; apply Hout; right; exact Hm'].
  rewrite remap_region_mem by (apply Hclear; left; reflexivity).
  rewrite Hout by (left; reflexivity). reflexivity.
Qed.

Lemma remap_fold_frame (l : list procmaps_struct) :
  forall w,
    let w' := fold_left (fun w cur_map => remap_region cur_map w) l w in
    wp w' = wp w /\ maps w' = maps w /\ pages w' = pages w /\ times w' = times w /\
    rsp w' = rsp w /\ old_stack w' = old_stack w.
Proof.
  induction l as [|m l IH]; intros w; cbn [fold_left]; [repeat split|].
  cbv zeta. destruct (IH (remap_region m w)) as (A & B & C & D & F & G).
  repeat split; assumption.
Qed.

(** X10: [remap] loses no data: when every monitored region has the length
    the parser gives it and lies clear of the scratch range used for it,
    every byte outside the scratch ranges holds after [remap] what it held
    before; so do all bytes of the monitored regions when no region
    reaches into the scratch range used for another.  [remap] changes
    neither the table, nor the log, nor any protection known to the
    userfaultfd. *)
Theorem remap_keeps_the_contents (w : world) :
  (forall m, In m (maps w) -> clear_of_scratch m) ->
  (forall x, (forall m, In m (maps w) -> within SCRATCH_ADDR (length m) x = false) ->
             mem (remap w) x = mem w x) /\
  ((forall m m', In m (maps w) -> In m' (maps w) ->
                 addr_start m + length m <= SCRATCH_ADDR \/
                 SCRATCH_ADDR + length m' <= addr_start m) ->
   forall m a, In m (maps w) -> addr_start m <= a < addr_start m + length m ->
               mem (remap w) a = mem w a) /\
  wp (remap w) = wp w /\ maps (remap w) = maps w /\ pages (remap w) = pages w.
Proof.
  intros Hclear. split; [|split].
  - intros x Hout. apply remap_fold_mem; assumption.
  - intros Hcross m a Hm Ha. apply remap_fold_mem; [assumption|].
    intros m' Hm'. apply not_true_is_false. rewrite within_spec. intros Hs.
    destruct (Hcross m m' Hm Hm'); lia.
  - destruct (remap_fold_frame (maps w) w) as (A & B & C & _).
    repeat split; assumption.
Qed.

Lemma remap_keeps_the_contents_witness :
  mem (remap world_setup) 0x601008 = "a"%byte.
Proof.
  destruct (remap_keeps_the_contents world_setup) as (_ & Hregions & _).
  - intros m [<-|[]]. split; [reflexivity|]. left. vm_compute. discriminate.
  - rewrite (Hregions
               ltac:(intros m m' [<-|[]] [<-|[]]; left; vm_compute; discriminate)
               data_region 0x601008 (or_introl eq_refl)
               ltac:(split; vm_compute; [discriminate | reflexivity])).
    reflexivity.
Defined.

(** ** The phases of [run] *)







Section RunPhases.

Variables REMAP_ADDR WRITE_IGNORED_ADDR GOT_PLT_ADDR ITERS : Z.





End RunPhases.



(** ** The stacks *)



Section MainStack.

Variables REMAP_ADDR WRITE_IGNORED_ADDR GOT_PLT_ADDR ITERS MAIN_STACK : Z.


End MainStack.


(** * The marker processor *)

Lemma bind_ok {A B : Type} (x : A) (k : A -> outcome B) : bind (Ok x) k = k x.
Proof. reflexivity. Qed.

Lemma byte_code_range (b : byte) : 0 <= byte_code b < 256.
Proof.
  unfold byte_code. pose proof (Byte.to_N_bounded b) as H. lia.
Qed.

Lemma well_fed_pending_nil (src : jpeg_source_mgr) :
  well_fed src -> pending src = [] -> in_buffer src = [] /\ refills src = [].
Proof.
  unfold well_fed, pending. intros Hw Hp.
  apply app_eq_nil in Hp. destruct Hp as [Hb Hc]. split; [exact Hb|].
  destruct (refills src) as [|r rs]; [reflexivity|].
  inversion Hw as [|? ? Hr _]; subst. simpl in Hc.
  apply app_eq_nil in Hc. destruct Hc as [Hc _]. contradiction.
Qed.

(** [jpeg_getc] delivers the pending bytes one by one, and ends the process
    when none is left. *)
Lemma jpeg_getc_pending (src : jpeg_source_mgr) :
  well_fed src ->
  match pending src with
  | [] => jpeg_getc src = Exit EXIT_FAILURE
  | b :: rest =>
      exists src', jpeg_getc src = Ok (byte_code b, src')
                   /\ pending src' = rest /\ well_fed src'
  end.
Proof.
  intros Hw. destruct (pending src) as [|b rest] eqn:Hp.
  - destruct (well_fed_pending_nil src Hw Hp) as [Hb Hr].
    unfold jpeg_getc, fill_input_buffer. rewrite Hb, Hr. reflexivity.
  - unfold jpeg_getc, fill_input_buffer, pending, well_fed in *.
    destruct src as [buf rs]; simpl in *.
    destruct buf as [|b0 buf'].
    + simpl. destruct rs as [|r rs']; [discriminate|].
      inversion Hw as [|? ? Hr Hrs]; subst.
      destruct r as [|b1 r']; [contradiction|].
      simpl in Hp. inversion Hp; subst. simpl.
      exists {| in_buffer := r'; refills := rs' |}. simpl. auto.
    + simpl in Hp. inversion Hp; subst.
      replace (Z.of_nat (List.length (b :: buf')) =? 0) with false
        by (symmetry; apply Z.eqb_neq; simpl List.length; lia).
      simpl.
      exists {| in_buffer := buf'; refills := rs |}. simpl. auto.
Qed.

Lemma marker_loop_pending (traceit : bool) (body : list byte) :
  forall (lastch : Z) (out : list ascii) (src : jpeg_source_mgr) (rest : list byte),
  well_fed src -> pending src = body ++ rest ->
  exists src',
    marker_loop traceit (List.length body) lastch out src
    = Ok (if traceit then out ++ text_of lastch body else out, src')
    /\ pending src' = rest /\ well_fed src'.
Proof.
  induction body as [|b body IH]; intros lastch out src rest Hw Hp.
  - exists src. simpl. rewrite app_nil_r. destruct traceit; auto.
  - pose proof (jpeg_getc_pending src Hw) as Hg. rewrite Hp in Hg. simpl in Hg.
    destruct Hg as (src1 & Hg & Hp1 & Hw1).
    simpl marker_loop. rewrite Hg. rewrite bind_ok. cbv beta iota.
    destruct traceit.
    + destruct (IH (byte_code b) (out ++ emit_char (byte_code b) lastch) src1 rest Hw1 Hp1)
        as (src' & He & Hp' & Hw').
      exists src'. rewrite He. simpl text_of. rewrite <- app_assoc. auto.
    + destruct (IH lastch out src1 rest Hw1 Hp1) as (src' & He & Hp' & Hw').
      exists src'. rewrite He. auto.
Qed.

Lemma marker_loop_dry (traceit : bool) (body : list byte) :
  forall (n : nat) (lastch : Z) (out : list ascii) (src : jpeg_source_mgr),
  well_fed src -> pending src = body -> (List.length body < n)%nat ->
  marker_loop traceit n lastch out src = Exit EXIT_FAILURE.
Proof.
  induction body as [|b body IH]; intros n lastch out src Hw Hp Hn.
  - destruct n as [|n]; [lia|].
    pose proof (jpeg_getc_pending src Hw) as Hg. rewrite Hp in Hg.
    simpl marker_loop. rewrite Hg. reflexivity.
  - destruct n as [|n]; [simpl in Hn; lia|].
    pose proof (jpeg_getc_pending src Hw) as Hg. rewrite Hp in Hg.
    destruct Hg as (src1 & Hg & Hp1 & Hw1).
    simpl marker_loop. rewrite Hg. rewrite bind_ok. cbv beta iota.
    simpl in Hn.
    destruct traceit; apply IH; auto; lia.
Qed.

Lemma length_word (hi lo : byte) :
  Z.shiftl (byte_code hi) 8 + byte_code lo - 2 = announced hi lo.
Proof.
  unfold announced. rewrite Z.shiftl_mul_pow2 by lia. reflexivity.
Qed.

Lemma jpeg_getc_code (src src' : jpeg_source_mgr) (ch : Z) :
  jpeg_getc src = Ok (ch, src') -> 0 <= ch < 256.
Proof.
  unfold jpeg_getc.
  destruct (Z.of_nat (List.length (in_buffer src)) =? 0).
  - destruct (fill_input_buffer src) as [ok s1]. destruct ok; [|discriminate].
    simpl. destruct (in_buffer s1); [discriminate|].
    intros H. inversion H; subst. apply byte_code_range.
  - simpl. destruct (in_buffer src); [discriminate|].
    intros H. inversion H; subst. apply byte_code_range.
Qed.

Lemma shown_char_of (ch : Z) :
  0 <= ch < 256 -> isprint ch = true -> shown (char_of ch) = true.
Proof.
  intros Hr Hp. unfold shown, char_of.
  rewrite N_ascii_embedding by lia. rewrite Z2N.id by lia.
  rewrite Hp. apply orb_true_r.
Qed.

Lemma shown_digit (d : Z) : 0 <= d < 8 -> shown (char_of (48 + d)) = true.
Proof.
  intros Hd. apply shown_char_of; [lia|].
  unfold isprint. apply andb_true_iff. split; apply Z.leb_le; lia.
Qed.

Lemma emit_char_shown (ch lastch : Z) :
  0 <= ch < 256 -> Forall (fun c => shown c = true) (emit_char ch lastch).
Proof.
  intros Hr. unfold emit_char.
  destruct (ch =? 13); [repeat constructor|].
  destruct (ch =? 10); [destruct (negb (lastch =? 13)); repeat constructor|].
  destruct (ch =? 92); [repeat constructor|].
  destruct (isprint ch) eqn:Hp.
  - constructor; [|constructor]. apply shown_char_of; assumption.
  - constructor; [reflexivity|]. unfold octal3.
    repeat constructor; apply shown_digit.
    + split; [apply Z.div_pos; lia|apply Z.div_lt_upper_bound; lia].
    + apply Z.mod_pos_bound; lia.
    + apply Z.mod_pos_bound; lia.
Qed.

Lemma shown_uint (d : Decimal.uint) :
  Forall (fun c => shown c = true)
         (list_ascii_of_string (NilEmpty.string_of_uint d)).
Proof.
  induction d; simpl; constructor; try reflexivity; assumption.
Qed.

Lemma decimal_shown (z : Z) : Forall (fun c => shown c = true) (decimal z).
Proof.
  unfold decimal, NilZero.string_of_int, NilZero.string_of_uint.
  destruct (Z.to_int z) as [d|d].
  - destruct d; try (repeat constructor; fail); apply (shown_uint (_ d)) || idtac;
      simpl; constructor; try reflexivity; apply shown_uint.
  - simpl. constructor; [reflexivity|].
    destruct d; try (repeat constructor; fail);
      simpl; constructor; try reflexivity; apply shown_uint.
Qed.

Lemma marker_loop_shown (traceit : bool) (n : nat) :
  forall (lastch : Z) (out out' : list ascii) (src src' : jpeg_source_mgr),
  Forall (fun c => shown c = true) out ->
  marker_loop traceit n lastch out src = Ok (out', src') ->
  Forall (fun c => shown c = true) out'.
Proof.
  induction n as [|n IH]; intros lastch out out' src src' Ho He.
  - simpl in He. inversion He; subst. exact Ho.
  - simpl in He. destruct (jpeg_getc src) as [[ch s1]| |] eqn:Hg; try discriminate.
    simpl in He. destruct traceit.
    + eapply IH; [|exact He]. apply Forall_app. split; [exact Ho|].
      apply emit_char_shown. eapply jpeg_getc_code. exact Hg.
    + eapply IH; [exact Ho|exact He].
Qed.

Lemma marker_loop_silent (n : nat) :
  forall (lastch : Z) (out out' : list ascii) (src src' : jpeg_source_mgr),
  marker_loop false n lastch out src = Ok (out', src') -> out' = out.
Proof.
  induction n as [|n IH]; intros lastch out out' src src' He.
  - simpl in He. inversion He; reflexivity.
  - simpl in He. destruct (jpeg_getc src) as [[ch s1]| |]; try discriminate.
    simpl in He. eapply IH. exact He.
Qed.

Lemma text_of_plain (body : list byte) :
  forall lastch : Z,
  forallb plain body = true ->
  text_of lastch body = map (fun b => char_of (byte_code b)) body.
Proof.
  induction body as [|b body IH]; intros lastch Hp; [reflexivity|].
  simpl in Hp. apply andb_true_iff in Hp. destruct Hp as [Hb Hrest].
  simpl. rewrite (IH _ Hrest). f_equal.
  unfold plain in Hb. apply andb_true_iff in Hb. destruct Hb as [Hpr Hbs].
  apply negb_true_iff in Hbs.
  unfold emit_char. rewrite Hbs, Hpr.
  unfold isprint in Hpr. apply andb_true_iff in Hpr. destruct Hpr as [H1 H2].
  apply Z.leb_le in H1. apply Z.leb_le in H2.
  replace (byte_code b =? 13) with false by (symmetry; apply Z.eqb_neq; lia).
  replace (byte_code b =? 10) with false by (symmetry; apply Z.eqb_neq; lia).
  reflexivity.
Qed.

(** The marker processor on a source that holds the whole marker. *)
Lemma print_text_marker_pending (trace_level unread_marker : Z)
      (src : jpeg_source_mgr) (hi lo : byte) (body rest : list byte) :
  well_fed src ->
  pending src = hi :: lo :: body ++ rest ->
  List.length body = Z.to_nat (announced hi lo) ->
  exists head src',
    print_text_marker trace_level unread_marker src
    = Ok (true,
          if 1 <=? trace_level
          then head ++ text_of 0 body ++ ["010"%char]
          else [],
          src')
    /\ pending src' = rest /\ well_fed src'
    /\ head = (if unread_marker =? JPEG_COM
               then list_ascii_of_string "Comment, length "
                    ++ decimal (announced hi lo)
                    ++ [":"%char; "010"%char]
               else list_ascii_of_string "APP"
                    ++ decimal (unread_marker - JPEG_APP0)
                    ++ list_ascii_of_string ", length "
                    ++ decimal (announced hi lo)
                    ++ [":"%char; "010"%char]).
Proof.
  intros Hw Hp Hlen.
  pose proof (jpeg_getc_pending src Hw) as Hg. rewrite Hp in Hg.
  destruct Hg as (s1 & Hg1 & Hp1 & Hw1).
  pose proof (jpeg_getc_pending s1 Hw1) as Hg. rewrite Hp1 in Hg.
  destruct Hg as (s2 & Hg2 & Hp2 & Hw2).
  unfold print_text_marker. rewrite Hg1. rewrite bind_ok. cbv beta iota.
  rewrite Hg2. rewrite bind_ok. cbv beta iota.
  rewrite length_word. rewrite <- Hlen.
  match goal with
  | |- context [marker_loop ?t (List.length body) 0 ?o s2] =>
      destruct (marker_loop_pending t body 0 o s2 rest Hw2 Hp2)
        as (s3 & He & Hp3 & Hw3)
  end.
  rewrite He. rewrite bind_ok. cbv beta iota.
  eexists. exists s3. split; [|split; [exact Hp3|split; [exact Hw3|reflexivity]]].
  destruct (1 <=? trace_level); [|reflexivity].
  rewrite <- app_assoc. reflexivity.
Qed.

(** X14 (jpeg_getc, print_text_marker): when the source holds the marker,
    the processor returns TRUE and has read the two bytes of the length word
    and as many bytes more as the word announces less two, whatever the trace
    level and across refills of the buffer; a length word below two reads
    nothing more. *)
Theorem marker_consumes_what_its_length_announces
        (trace_level unread_marker : Z) (src : jpeg_source_mgr)
        (hi lo : byte) (body rest : list byte) :
  well_fed src ->
  pending src = hi :: lo :: body ++ rest ->
  List.length body = Z.to_nat (announced hi lo) ->
  exists out src',
    print_text_marker trace_level unread_marker src = Ok (true, out, src')
    /\ pending src' = rest
    /\ well_fed src'.
Proof.
  intros Hw Hp Hlen.
  destruct (print_text_marker_pending trace_level unread_marker src hi lo body rest
              Hw Hp Hlen) as (head & src' & He & Hp' & Hw' & _).
  eexists. exists src'. split; [exact He|]. split; assumption.
Qed.

Lemma source_example_well_fed : well_fed source_example.
Proof.
  unfold well_fed, source_example. simpl. repeat constructor; discriminate.
Qed.

Lemma marker_consumes_what_its_length_announces_witness :
  exists out src',
    print_text_marker 1 JPEG_COM source_example = Ok (true, out, src')
    /\ pending src' = [xff; xd9]
    /\ well_fed src'.
Proof.
  apply (marker_consumes_what_its_length_announces 1 JPEG_COM source_example
           x00 x06 ["h"%byte; "i"%byte; x0d; x0a] [xff; xd9]).
  - exact source_example_well_fed.
  - reflexivity.
  - reflexivity.
Defined.

(** X15 (jpeg_getc, print_text_marker): when the source ends before the
    marker does, in the length word or in the body, the processor does not
    return: the process exits with EXIT_FAILURE. *)
Theorem marker_on_a_short_source_exits
        (trace_level unread_marker : Z) (src : jpeg_source_mgr) :
  well_fed src ->
  match pending src with
  | hi :: lo :: body => (List.length body < Z.to_nat (announced hi lo))%nat
  | _ => True
  end ->
  print_text_marker trace_level unread_marker src = Exit EXIT_FAILURE.
Proof.
  intros Hw Hshort.
  pose proof (jpeg_getc_pending src Hw) as Hg.
  unfold print_text_marker.
  destruct (pending src) as [|hi l] eqn:Hp.
  - rewrite Hg. reflexivity.
  - destruct Hg as (s1 & Hg1 & Hp1 & Hw1). rewrite Hg1. rewrite bind_ok. cbv beta iota.
    pose proof (jpeg_getc_pending s1 Hw1) as Hg. rewrite Hp1 in Hg.
    destruct l as [|lo body].
    + rewrite Hg. reflexivity.
    + destruct Hg as (s2 & Hg2 & Hp2 & Hw2). rewrite Hg2. rewrite bind_ok. cbv beta iota.
      rewrite length_word.
      rewrite (marker_loop_dry _ body _ _ _ s2 Hw2 Hp2 Hshort). reflexivity.
Qed.

Lemma marker_on_a_short_source_exits_witness :
  print_text_marker 1 JPEG_COM
    {| in_buffer := [x00; x06; "h"%byte]; refills := [["i"%byte]] |}
  = Exit EXIT_FAILURE.
Proof.
  apply marker_on_a_short_source_exits.
  - unfold well_fed. simpl. repeat constructor; discriminate.
  - vm_compute. lia.
Defined.

(** X16 (print_text_marker): whatever bytes the marker holds, what the
    processor writes to stderr consists of printable characters and
    newlines only. *)
Theorem marker_text_is_sanitised
        (trace_level unread_marker : Z) (src : jpeg_source_mgr) :
  match print_text_marker trace_level unread_marker src with
  | Ok (_, out, _) => Forall (fun c => shown c = true) out
  | _ => True
  end.
Proof.
  unfold print_text_marker.
  destruct (jpeg_getc src) as [[hi s1]| |]; [|exact I|exact I].
  rewrite bind_ok. cbv beta iota.
  destruct (jpeg_getc s1) as [[lo s2]| |]; [|exact I|exact I].
  rewrite bind_ok. cbv beta iota.
  match goal with
  | |- context [marker_loop ?t ?n 0 ?o s2] =>
      assert (Ho : Forall (fun c => shown c = true) o);
      [|destruct (marker_loop t n 0 o s2) as [[out s3]| |] eqn:He;
        [|exact I|exact I]]
  end.
  { destruct (1 <=? trace_level); [|constructor].
    destruct (unread_marker =? JPEG_COM);
      repeat (apply Forall_app; split);
      try apply decimal_shown; simpl; repeat constructor. }
  rewrite bind_ok. cbv beta iota.
  pose proof (marker_loop_shown _ _ _ _ _ _ _ Ho He) as Hout.
  destruct (1 <=? trace_level); [|exact Hout].
  apply Forall_app. split; [exact Hout|repeat constructor].
Qed.

(** X17 (print_text_marker): below trace level 1 the processor writes
    nothing. *)
Theorem marker_is_silent_without_tracing
        (trace_level unread_marker : Z) (src : jpeg_source_mgr) :
  trace_level < 1 ->
  match print_text_marker trace_level unread_marker src with
  | Ok (_, out, _) => out = []
  | _ => True
  end.
Proof.
  intros Ht. unfold print_text_marker.
  replace (1 <=? trace_level) with false by (symmetry; apply Z.leb_gt; lia).
  destruct (jpeg_getc src) as [[hi s1]| |]; [|exact I|exact I].
  rewrite bind_ok. cbv beta iota.
  destruct (jpeg_getc s1) as [[lo s2]| |]; [|exact I|exact I].
  rewrite bind_ok. cbv beta iota.
  match goal with
  | |- context [marker_loop false ?n 0 [] s2] =>
      destruct (marker_loop false n 0 [] s2) as [[out s3]| |] eqn:He;
      [|exact I|exact I]
  end.
  rewrite bind_ok. cbv beta iota.
  eapply marker_loop_silent. exact He.
Qed.

Lemma marker_is_silent_without_tracing_witness :
  match print_text_marker 0 JPEG_COM source_example with
  | Ok (_, out, _) => out = []
  | _ => True
  end.
Proof.
  apply marker_is_silent_without_tracing. lia.
Defined.

(** X18 (print_text_marker): with tracing on, a comment made of printable
    characters other than the backslash is written as it is, after the
    header line that gives its length and before a final newline. *)
Theorem printable_comment_is_echoed
        (trace_level : Z) (src : jpeg_source_mgr)
        (hi lo : byte) (body rest : list byte) :
  1 <= trace_level ->
  well_fed src ->
  pending src = hi :: lo :: body ++ rest ->
  List.length body = Z.to_nat (announced hi lo) ->
  forallb plain body = true ->
  exists src',
    print_text_marker trace_level JPEG_COM src
    = Ok (true,
          list_ascii_of_string "Comment, length " ++ decimal (announced hi lo)
          ++ [":"%char; "010"%char]
          ++ map (fun b => char_of (byte_code b)) body ++ ["010"%char],
          src').
Proof.
  intros Ht Hw Hp Hlen Hplain.
  destruct (print_text_marker_pending trace_level JPEG_COM src hi lo body rest
              Hw Hp Hlen) as (head & src' & He & _ & _ & Hhead).
  exists src'. rewrite He.
  replace (1 <=? trace_level) with true by (symmetry; apply Z.leb_le; lia).
  rewrite Hhead. rewrite Z.eqb_refl. rewrite (text_of_plain body 0 Hplain).
  rewrite <- !app_assoc. reflexivity.
Qed.

Lemma printable_comment_is_echoed_witness :
  exists src',
    print_text_marker 1 JPEG_COM
      {| in_buffer := [x00; x04; "h"%byte]; refills := [["i"%byte; xff]] |}
    = Ok (true,
          list_ascii_of_string "Comment, length " ++ decimal (announced x00 x04)
          ++ [":"%char; "010"%char]
          ++ map (fun b => char_of (byte_code b)) ["h"%byte; "i"%byte]
          ++ ["010"%char],
          src').
Proof.
  apply (printable_comment_is_echoed 1 _ x00 x04 ["h"%byte; "i"%byte] [xff]).
  - lia.
  - unfold well_fed. simpl. repeat constructor; discriminate.
  - reflexivity.
  - reflexivity.
  - reflexivity.
Defined.

(** * The parser of the memory map *)

(** ** Arrays *)

Lemma put_app (pre : list ascii) (c x : ascii) (post : list ascii) :
  Parser.put (List.length pre) c (pre ++ x :: post) = Some (pre ++ c :: post).
Proof.
  induction pre as [|p pre IH]; simpl; [reflexivity|].
  rewrite IH. reflexivity.
Qed.

Lemma put_none (a : Parser.carray) :
  forall i : nat, (List.length a <= i)%nat -> forall c, Parser.put i c a = None.
Proof.
  induction a as [|x a IH]; intros i Hi c; [destruct i; reflexivity|].
  destruct i as [|i]; [simpl in Hi; lia|].
  simpl. rewrite IH by (simpl in Hi; lia). reflexivity.
Qed.

Lemma cstring_app (s t : list ascii) :
  forallb (fun c => negb (c =? Parser.NUL)%char) s = true ->
  Parser.cstring (s ++ Parser.NUL :: t) = Some s.
Proof.
  induction s as [|c s IH]; intros Hs; [reflexivity|].
  simpl in Hs. apply andb_true_iff in Hs. destruct Hs as [Hc Hs].
  apply negb_true_iff in Hc. simpl. rewrite Hc. rewrite IH by exact Hs.
  reflexivity.
Qed.

Lemma word_no_nul (s : list ascii) :
  word s = true -> forallb (fun c => negb (c =? Parser.NUL)%char) s = true.
Proof.
  unfold word. induction s as [|c s IH]; simpl; [reflexivity|].
  intros H. apply andb_true_iff in H. destruct H as [Hc Hs].
  apply andb_true_iff in Hc. destruct Hc as [_ Hc].
  rewrite Hc. simpl. apply IH. exact Hs.
Qed.

Lemma word_no_blank (s : list ascii) :
  word s = true -> forallb (fun c => negb (Parser.blank c)) s = true.
Proof.
  unfold word. induction s as [|c s IH]; simpl; [reflexivity|].
  intros H. apply andb_true_iff in H. destruct H as [Hc Hs].
  apply andb_true_iff in Hc. destruct Hc as [Hc _].
  apply andb_true_iff in Hc. destruct Hc as [Hc _].
  rewrite Hc. simpl. apply IH. exact Hs.
Qed.

Lemma word_no_nl (s : list ascii) :
  word s = true -> forallb (fun c => negb (c =? Parser.NL)%char) s = true.
Proof.
  unfold word. induction s as [|c s IH]; simpl; [reflexivity|].
  intros H. apply andb_true_iff in H. destruct H as [Hc Hs].
  apply andb_true_iff in Hc. destruct Hc as [Hc _].
  apply andb_true_iff in Hc. destruct Hc as [_ Hc].
  rewrite Hc. simpl. apply IH. exact Hs.
Qed.

Lemma word_path_stop (s : list ascii) :
  word s = true ->
  forallb (fun c => negb (Parser.blank c || (c =? Parser.NL)%char)) s = true.
Proof.
  unfold word. induction s as [|c s IH]; simpl; [reflexivity|].
  intros H. apply andb_true_iff in H. destruct H as [Hc Hs].
  apply andb_true_iff in Hc. destruct Hc as [Hc _].
  apply andb_true_iff in Hc. destruct Hc as [Hb Hn].
  apply negb_true_iff in Hb. apply negb_true_iff in Hn.
  rewrite Hb, Hn. simpl. apply IH. exact Hs.
Qed.

Lemma starts_with_cstring (a : Parser.carray) (s : list ascii) :
  word s = true -> starts_with a s -> Parser.cstring a = Some s.
Proof.
  intros Hw [t Ht]. subst a. apply cstring_app. apply word_no_nul. exact Hw.
Qed.

(** ** The loops of [_pmparser_split_line] *)

Lemma copy_until_spec (stop : ascii -> bool) (f : list ascii) :
  forall (c : ascii) (rest pre post : list ascii),
  forallb (fun x => negb (stop x)) f = true -> stop c = true ->
  (List.length f <= List.length post)%nat ->
  Parser.copy_until stop (f ++ c :: rest) (List.length pre) (pre ++ post)
  = Ok (c :: rest, (List.length pre + List.length f)%nat,
        pre ++ f ++ skipn (List.length f) post).
Proof.
  induction f as [|x f IH]; intros c rest pre post Hf Hc Hlen.
  - simpl. rewrite Hc. rewrite Nat.add_0_r. reflexivity.
  - simpl in Hf. apply andb_true_iff in Hf. destruct Hf as [Hx Hf].
    apply negb_true_iff in Hx.
    destruct post as [|y post]; [simpl in Hlen; lia|].
    simpl app at 1. simpl Parser.copy_until. rewrite Hx. rewrite put_app.
    replace (pre ++ x :: post) with ((pre ++ [x]) ++ post)
      by (rewrite <- app_assoc; reflexivity).
    replace (S (List.length pre)) with (List.length (pre ++ [x]))
      by (rewrite length_app; simpl; lia).
    rewrite (IH c rest (pre ++ [x]) post Hf Hc) by (simpl in Hlen; lia).
    rewrite length_app. simpl List.length.
    rewrite <- app_assoc. simpl.
    replace (List.length pre + S (List.length f))%nat
      with (List.length pre + 1 + List.length f)%nat by lia.
    reflexivity.
Qed.

Lemma copy_until_overflow (stop : ascii -> bool) (f : list ascii) :
  forall (c : ascii) (rest pre post : list ascii),
  forallb (fun x => negb (stop x)) f = true ->
  (List.length post < List.length f)%nat ->
  Parser.copy_until stop (f ++ c :: rest) (List.length pre) (pre ++ post)
  = Undefined.
Proof.
  induction f as [|x f IH]; intros c rest pre post Hf Hlen.
  - simpl in Hlen. lia.
  - simpl in Hf. apply andb_true_iff in Hf. destruct Hf as [Hx Hf].
    apply negb_true_iff in Hx.
    simpl app at 1. simpl Parser.copy_until. rewrite Hx.
    destruct post as [|y post].
    + rewrite put_none by (rewrite length_app; simpl; lia). reflexivity.
    + rewrite put_app.
      replace (pre ++ x :: post) with ((pre ++ [x]) ++ post)
        by (rewrite <- app_assoc; reflexivity).
      replace (S (List.length pre)) with (List.length (pre ++ [x]))
        by (rewrite length_app; simpl; lia).
      apply IH; [exact Hf|simpl in Hlen; lia].
Qed.

(** A part that is shorter than the array is copied to its start and
    closed by a NUL. *)
Lemma copy_field_fits (stop : ascii -> bool) (f : list ascii) (c : ascii)
      (rest : list ascii) (dst : Parser.carray) :
  forallb (fun x => negb (stop x)) f = true -> stop c = true ->
  (List.length f < List.length dst)%nat ->
  exists dst',
    Parser.copy_field stop (f ++ c :: rest) dst = Ok (c :: rest, dst')
    /\ starts_with dst' f
    /\ List.length dst' = List.length dst.
Proof.
  intros Hf Hc Hlen. unfold Parser.copy_field.
  pose proof (copy_until_spec stop f c rest [] dst Hf Hc) as H.
  simpl in H. rewrite H by lia. rewrite bind_ok. cbv beta iota.
  destruct (skipn (List.length f) dst) as [|y post] eqn:Hs.
  - apply (f_equal (@List.length ascii)) in Hs. rewrite length_skipn in Hs.
    simpl in Hs. lia.
  - pose proof (put_app f Parser.NUL y post) as Hp. rewrite Hp.
    exists (f ++ Parser.NUL :: post). split; [reflexivity|]. split.
    + exists post. reflexivity.
    + rewrite length_app. simpl.
      apply (f_equal (@List.length ascii)) in Hs. rewrite length_skipn in Hs.
      simpl in Hs. lia.
Qed.

(** A part that is as long as the array, or longer, is stored past its
    end. *)
Lemma copy_field_overflow (stop : ascii -> bool) (f : list ascii) (c : ascii)
      (rest : list ascii) (dst : Parser.carray) :
  forallb (fun x => negb (stop x)) f = true -> stop c = true ->
  (List.length dst <= List.length f)%nat ->
  Parser.copy_field stop (f ++ c :: rest) dst = Undefined.
Proof.
  intros Hf Hc Hlen. unfold Parser.copy_field.
  destruct (Nat.eq_dec (List.length dst) (List.length f)) as [He|Hne].
  - pose proof (copy_until_spec stop f c rest [] dst Hf Hc) as H.
    simpl in H. rewrite H by lia. rewrite bind_ok. cbv beta iota.
    rewrite put_none; [reflexivity|].
    rewrite length_app, length_skipn. lia.
  - pose proof (copy_until_overflow stop f c rest [] dst Hf) as H.
    simpl in H. rewrite H by lia. reflexivity.
Qed.

Lemma skip_blanks_spec (pad : list ascii) (c : ascii) (rest : list ascii) :
  forallb Parser.blank pad = true -> Parser.blank c = false ->
  Parser.skip_blanks (pad ++ c :: rest) = Ok (c :: rest).
Proof.
  induction pad as [|p pad IH]; intros Hp Hc.
  - simpl. rewrite Hc. reflexivity.
  - simpl in Hp. apply andb_true_iff in Hp. destruct Hp as [Hb Hp].
    simpl. rewrite Hb. apply IH; assumption.
Qed.

Lemma skip_to_word (pad f X : list ascii) :
  forallb Parser.blank pad = true -> word f = true -> nonempty f = true ->
  Parser.skip_blanks (pad ++ f ++ X) = Ok (f ++ X).
Proof.
  intros Hp Hw Hn. destruct f as [|c f]; [discriminate|].
  simpl app. apply skip_blanks_spec; [exact Hp|].
  apply word_no_blank in Hw. simpl in Hw.
  apply andb_true_iff in Hw. destruct Hw as [Hc _].
  apply negb_true_iff in Hc. exact Hc.
Qed.

Lemma skip_space_to_word (f X : list ascii) :
  word f = true -> nonempty f = true ->
  Parser.skip_blanks (" "%char :: f ++ X) = Ok (f ++ X).
Proof.
  intros Hw Hn. apply (skip_to_word [" "%char] f X eq_refl Hw Hn).
Qed.

Lemma clean_spec (r : row) :
  clean r = true ->
  (word (r_addr1 r) = true
   /\ forallb (fun c => negb (c =? "-")%char) (r_addr1 r) = true)
  /\ word (r_addr2 r) = true
  /\ (word (r_perm r) = true /\ nonempty (r_perm r) = true)
  /\ (word (r_offset r) = true /\ nonempty (r_offset r) = true)
  /\ (word (r_dev r) = true /\ nonempty (r_dev r) = true)
  /\ (word (r_inode r) = true /\ nonempty (r_inode r) = true)
  /\ forallb Parser.blank (r_pad r) = true
  /\ word (r_path r) = true
  /\ match r_rest r with
     | [] => True
     | c :: _ => Parser.blank c = true /\ nonempty (r_path r) = true
                 /\ forallb (fun c => negb (c =? Parser.NL)%char) (r_rest r) = true
     end.
Proof.
  unfold clean. intros H.
  repeat (apply andb_true_iff in H; destruct H as [H ?]).
  repeat split; try assumption.
  destruct (r_rest r) as [|c t]; [exact I|].
  match goal with
  | Hr : _ && _ && _ = true |- _ =>
      apply andb_true_iff in Hr; destruct Hr as [Hr ?];
      apply andb_true_iff in Hr; destruct Hr as [? ?]
  end.
  repeat split; assumption.
Qed.

Lemma fits_spec (r : row) :
  fits r = true ->
  (List.length (r_addr1 r) < 20)%nat
  /\ (List.length (r_addr2 r) < 20)%nat
  /\ (List.length (r_perm r) < 8)%nat
  /\ (List.length (r_offset r) < 20)%nat
  /\ (List.length (r_dev r) < 10)%nat
  /\ (List.length (r_inode r) < 30)%nat
  /\ (List.length (r_path r) < Parser.PATH_MAX)%nat.
Proof.
  unfold fits. intros H.
  repeat (apply andb_true_iff in H; destruct H as [H ?]).
  repeat match goal with
         | Hx : Nat.ltb _ _ = true |- _ => apply Nat.ltb_lt in Hx
         end.
  repeat split; assumption.
Qed.

(** The line, as the loops of [_pmparser_split_line] go through it. *)
Lemma line_of_shape (r : row) (junk : list ascii) :
  line_of r ++ junk
  = r_addr1 r ++ "-"%char
    :: (r_addr2 r ++ " "%char
    :: (r_perm r ++ " "%char
    :: (r_offset r ++ " "%char
    :: (r_dev r ++ " "%char
    :: (r_inode r ++ " "%char
    :: (r_pad r ++ r_path r ++ r_rest r ++ Parser.NL :: junk)))))).
Proof.
  unfold line_of, text_of_row.
  repeat (rewrite <- app_assoc; simpl). reflexivity.
Qed.

(** The path ends at the first blank or newline after it. *)
Lemma path_end (r : row) (junk : list ascii) :
  clean r = true ->
  exists c X,
    r_rest r ++ Parser.NL :: junk = c :: X
    /\ (Parser.blank c || (c =? Parser.NL)%char) = true
    /\ (r_path r = [] -> Parser.blank c = false).
Proof.
  intros Hc. apply clean_spec in Hc.
  destruct Hc as (_ & _ & _ & _ & _ & _ & _ & _ & Hrest).
  destruct (r_rest r) as [|c t].
  - exists Parser.NL, junk. repeat split.
  - destruct Hrest as (Hb & Hn & _).
    exists c, (t ++ Parser.NL :: junk). split; [reflexivity|]. split.
    + rewrite Hb. reflexivity.
    + intros Hp. rewrite Hp in Hn. discriminate.
Qed.

Lemma split_line_holds (r : row) (l : Parser.locals) (junk : list ascii) :
  clean r = true -> fits r = true -> sized l ->
  exists l',
    Parser._pmparser_split_line (line_of r ++ junk) l = Ok l'
    /\ holds l' r /\ sized l'.
Proof.
  intros Hclean Hfits Hsized.
  destruct (path_end r junk Hclean) as (pc & PX & Hpe & Hpstop & Hpempty).
  pose proof (clean_spec r Hclean) as
    ((Hw1 & Hd1) & Hw2 & (Hw3 & Hn3) & (Hw4 & Hn4) & (Hw5 & Hn5) & (Hw6 & Hn6)
     & Hpad & Hw7 & _).
  destruct (fits_spec r Hfits) as (F1 & F2 & F3 & F4 & F5 & F6 & F7).
  destruct Hsized as (S1 & S2 & S3 & S4 & S5 & S6 & S7).
  rewrite line_of_shape. rewrite Hpe.
  unfold Parser._pmparser_split_line.
  (* addr1 *)
  destruct (copy_field_fits (fun c => (c =? "-")%char) (r_addr1 r) "-"%char
              (r_addr2 r ++ " "%char :: r_perm r ++ " "%char :: r_offset r
               ++ " "%char :: r_dev r ++ " "%char :: r_inode r ++ " "%char
               :: r_pad r ++ r_path r ++ pc :: PX) (Parser.addr1 l))
    as (d1 & E1 & H1 & L1); [exact Hd1|reflexivity|lia|].
  rewrite E1. rewrite bind_ok. cbv beta iota.
  (* addr2 *)
  destruct (copy_field_fits Parser.blank (r_addr2 r) " "%char
              (r_perm r ++ " "%char :: r_offset r
               ++ " "%char :: r_dev r ++ " "%char :: r_inode r ++ " "%char
               :: r_pad r ++ r_path r ++ pc :: PX) (Parser.addr2 l))
    as (d2 & E2 & H2 & L2); [apply word_no_blank; exact Hw2|reflexivity|lia|].
  rewrite E2. rewrite bind_ok. cbv beta iota.
  (* perm *)
  rewrite (skip_space_to_word (r_perm r) _ Hw3 Hn3).
  rewrite bind_ok.
  destruct (copy_field_fits Parser.blank (r_perm r) " "%char
              (r_offset r
               ++ " "%char :: r_dev r ++ " "%char :: r_inode r ++ " "%char
               :: r_pad r ++ r_path r ++ pc :: PX) (Parser.perm l))
    as (d3 & E3 & H3 & L3); [apply word_no_blank; exact Hw3|reflexivity|lia|].
  rewrite E3. rewrite bind_ok. cbv beta iota.
  (* offset *)
  rewrite (skip_space_to_word (r_offset r) _ Hw4 Hn4).
  rewrite bind_ok.
  destruct (copy_field_fits Parser.blank (r_offset r) " "%char
              (r_dev r ++ " "%char :: r_inode r ++ " "%char
               :: r_pad r ++ r_path r ++ pc :: PX) (Parser.offset l))
    as (d4 & E4 & H4 & L4); [apply word_no_blank; exact Hw4|reflexivity|lia|].
  rewrite E4. rewrite bind_ok. cbv beta iota.
  (* dev *)
  rewrite (skip_space_to_word (r_dev r) _ Hw5 Hn5).
  rewrite bind_ok.
  destruct (copy_field_fits Parser.blank (r_dev r) " "%char
              (r_inode r ++ " "%char
               :: r_pad r ++ r_path r ++ pc :: PX) (Parser.dev l))
    as (d5 & E5 & H5 & L5); [apply word_no_blank; exact Hw5|reflexivity|lia|].
  rewrite E5. rewrite bind_ok. cbv beta iota.
  (* inode *)
  rewrite (skip_space_to_word (r_inode r) _ Hw6 Hn6).
  rewrite bind_ok.
  destruct (copy_field_fits Parser.blank (r_inode r) " "%char
              (r_pad r ++ r_path r ++ pc :: PX) (Parser.inode l))
    as (d6 & E6 & H6 & L6); [apply word_no_blank; exact Hw6|reflexivity|lia|].
  rewrite E6. rewrite bind_ok. cbv beta iota.
  (* pathname *)
  destruct (Parser.pathname l) as [|p0 ptail] eqn:Hpn;
    [simpl in S7; unfold Parser.PATH_MAX in S7; lia|].
  simpl Parser.put.
  assert (Hskip : Parser.skip_blanks (" "%char :: r_pad r ++ r_path r ++ pc :: PX)
                  = Ok (r_path r ++ pc :: PX)).
  { destruct (r_path r) as [|c0 path'] eqn:Hpath.
    - simpl app. apply (skip_blanks_spec (" "%char :: r_pad r) pc PX).
      + simpl. exact Hpad.
      + apply Hpempty. reflexivity.
    - apply (skip_to_word (" "%char :: r_pad r) (c0 :: path') (pc :: PX)).
      + simpl. exact Hpad.
      + exact Hw7.
      + reflexivity. }
  rewrite Hskip. rewrite bind_ok.
  destruct (copy_field_fits (fun c => Parser.blank c || (c =? Parser.NL)%char)
              (r_path r) pc PX (Parser.NUL :: ptail))
    as (d7 & E7 & H7 & L7);
    [apply word_path_stop; exact Hw7|exact Hpstop|simpl in S7 |- *; lia|].
  rewrite E7. rewrite bind_ok. cbv beta iota.
  eexists. split; [reflexivity|]. split.
  - unfold holds. simpl. repeat split; assumption.
  - unfold sized. simpl. simpl in L7, S7. repeat split; lia.
Qed.

Ltac copy_or_overflow Hf Hc :=
  match goal with
  | |- context [Parser.copy_field ?stop (?f ++ ?c :: ?X) ?dst] =>
      let Hlt := fresh "Hlt" in
      let E := fresh "E" in
      let d := fresh "d" in
      let Hs := fresh "Hs" in
      let Hl := fresh "Hl" in
      destruct (Nat.lt_ge_cases (List.length f) (List.length dst)) as [Hlt|Hlt];
      [ destruct (copy_field_fits stop f c X dst Hf Hc Hlt) as (d & E & Hs & Hl);
        rewrite E, bind_ok; cbv beta iota
      | rewrite (copy_field_overflow stop f c X dst Hf Hc Hlt); reflexivity ]
  end.

(** X20 (_pmparser_split_line): when a part of the line is as long as the
    array that receives it or longer (20 characters for an address or the
    offset, 8 for the permissions, 10 for the device, 30 for the inode,
    PATH_MAX for the path), the function stores past the end of that
    array, which is undefined: no length is checked. *)
Theorem split_line_stores_past_a_short_array
        (r : row) (l : Parser.locals) (junk : list ascii) :
  clean r = true -> fits r = false -> sized l ->
  Parser._pmparser_split_line (line_of r ++ junk) l = Undefined.
Proof.
  intros Hclean Hfits Hsized.
  destruct (path_end r junk Hclean) as (pc & PX & Hpe & Hpstop & Hpempty).
  pose proof (clean_spec r Hclean) as
    ((Hw1 & Hd1) & Hw2 & (Hw3 & Hn3) & (Hw4 & Hn4) & (Hw5 & Hn5) & (Hw6 & Hn6)
     & Hpad & Hw7 & _).
  destruct Hsized as (S1 & S2 & S3 & S4 & S5 & S6 & S7).
  rewrite line_of_shape. rewrite Hpe.
  unfold Parser._pmparser_split_line.
  copy_or_overflow Hd1 (eq_refl : ("-" =? "-")%char = true).
  copy_or_overflow (word_no_blank _ Hw2) (eq_refl : Parser.blank " " = true).
  rewrite (skip_space_to_word (r_perm r) _ Hw3 Hn3), bind_ok.
  copy_or_overflow (word_no_blank _ Hw3) (eq_refl : Parser.blank " " = true).
  rewrite (skip_space_to_word (r_offset r) _ Hw4 Hn4), bind_ok.
  copy_or_overflow (word_no_blank _ Hw4) (eq_refl : Parser.blank " " = true).
  rewrite (skip_space_to_word (r_dev r) _ Hw5 Hn5), bind_ok.
  copy_or_overflow (word_no_blank _ Hw5) (eq_refl : Parser.blank " " = true).
  rewrite (skip_space_to_word (r_inode r) _ Hw6 Hn6), bind_ok.
  copy_or_overflow (word_no_blank _ Hw6) (eq_refl : Parser.blank " " = true).
  destruct (Parser.pathname l) as [|p0 ptail] eqn:Hpn;
    [simpl in S7; unfold Parser.PATH_MAX in S7; lia|].
  simpl Parser.put.
  assert (Hskip : Parser.skip_blanks (" "%char :: r_pad r ++ r_path r ++ pc :: PX)
                  = Ok (r_path r ++ pc :: PX)).
  { destruct (r_path r) as [|c0 path'] eqn:Hpath.
    - simpl app. apply (skip_blanks_spec (" "%char :: r_pad r) pc PX).
      + simpl. exact Hpad.
      + apply Hpempty. reflexivity.
    - apply (skip_to_word (" "%char :: r_pad r) (c0 :: path') (pc :: PX)).
      + simpl. exact Hpad.
      + exact Hw7.
      + reflexivity. }
  rewrite Hskip, bind_ok.
  copy_or_overflow (word_path_stop _ Hw7) Hpstop.
  exfalso.
  assert (Hf : fits r = true).
  { unfold fits. simpl in S7.
    repeat (apply andb_true_iff; split); apply Nat.ltb_lt; simpl in *; lia. }
  rewrite Hf in Hfits. discriminate.
Qed.

(** ** The stream *)

Lemma take_line_spec (body : list ascii) :
  forall (more : list ascii) (n : nat),
  forallb (fun c => negb (c =? Parser.NL)%char) body = true ->
  (List.length body < n)%nat ->
  Parser.take_line n (body ++ Parser.NL :: more) = (body ++ [Parser.NL], more, false).
Proof.
  induction body as [|c body IH]; intros more n Hb Hn.
  - destruct n as [|n]; [lia|]. reflexivity.
  - destruct n as [|n]; [simpl in Hn; lia|].
    simpl in Hb. apply andb_true_iff in Hb. destruct Hb as [Hc Hb].
    apply negb_true_iff in Hc.
    simpl. rewrite Hc. rewrite IH by (try assumption; simpl in Hn; lia).
    reflexivity.
Qed.

Lemma overwrite_spec (s : list ascii) :
  forall a : Parser.carray,
  (List.length s <= List.length a)%nat ->
  Parser.overwrite s a = Some (s ++ skipn (List.length s) a).
Proof.
  induction s as [|c s IH]; intros a Hl; [reflexivity|].
  destruct a as [|x a]; [simpl in Hl; lia|].
  simpl. rewrite IH by (simpl in Hl; lia). reflexivity.
Qed.

Lemma text_of_row_no_nl (r : row) :
  clean r = true ->
  forallb (fun c => negb (c =? Parser.NL)%char) (text_of_row r) = true.
Proof.
  intros Hclean.
  pose proof (clean_spec r Hclean) as
    ((Hw1 & Hd1) & Hw2 & (Hw3 & Hn3) & (Hw4 & Hn4) & (Hw5 & Hn5) & (Hw6 & Hn6)
     & Hpad & Hw7 & Hrest).
  assert (Hp : forallb (fun c => negb (c =? Parser.NL)%char) (r_pad r) = true).
  { clear - Hpad. induction (r_pad r) as [|c p IH]; [reflexivity|].
    simpl in Hpad. apply andb_true_iff in Hpad. destruct Hpad as [Hc Hp].
    simpl. rewrite (IH Hp), andb_true_r.
    unfold Parser.blank in Hc. apply orb_true_iff in Hc.
    destruct Hc as [Hc|Hc]; apply Ascii.eqb_eq in Hc; subst c; reflexivity. }
  assert (Hr : forallb (fun c => negb (c =? Parser.NL)%char) (r_rest r) = true).
  { destruct (r_rest r) as [|c t]; [reflexivity|]. apply Hrest. }
  unfold text_of_row.
  repeat (rewrite forallb_app || (simpl forallb; rewrite ?andb_true_l)).
  rewrite (word_no_nl _ Hw1), (word_no_nl _ Hw2), (word_no_nl _ Hw3),
    (word_no_nl _ Hw4), (word_no_nl _ Hw5), (word_no_nl _ Hw6),
    (word_no_nl _ Hw7), Hp, Hr.
  reflexivity.
Qed.

(** [fgets] on a stream that starts with a line that fits the buffer. *)
Lemma fgets_line (r : row) (more : list ascii) (b : Parser.carray) (e : bool) :
  clean r = true ->
  List.length b = Parser.PROCMAPS_LINE_MAX_LENGTH ->
  (List.length (line_of r) < Parser.PROCMAPS_LINE_MAX_LENGTH)%nat ->
  exists junk,
    Parser.fgets b Parser.PROCMAPS_LINE_MAX_LENGTH
      {| Parser.unread := line_of r ++ more; Parser.at_eof := e |}
    = Ok (line_of r ++ Parser.NUL :: junk,
          {| Parser.unread := more; Parser.at_eof := e |})
    /\ List.length (line_of r ++ Parser.NUL :: junk)
       = Parser.PROCMAPS_LINE_MAX_LENGTH.
Proof.
  intros Hclean Hb Hl. unfold Parser.fgets. cbn [Parser.unread Parser.at_eof].
  unfold line_of in *. rewrite <- app_assoc. simpl app.
  rewrite length_app in Hl. simpl in Hl.
  rewrite take_line_spec; [|apply text_of_row_no_nl; exact Hclean|lia].
  rewrite orb_false_r.
  assert (Ho : Parser.overwrite ((text_of_row r ++ [Parser.NL]) ++ [Parser.NUL]) b
               = Some (((text_of_row r ++ [Parser.NL]) ++ [Parser.NUL])
                       ++ skipn (List.length ((text_of_row r ++ [Parser.NL])
                                              ++ [Parser.NUL])) b)).
  { apply overwrite_spec. rewrite !length_app. simpl. lia. }
  exists (skipn (List.length ((text_of_row r ++ [Parser.NL]) ++ [Parser.NUL])) b).
  split.
  - destruct (text_of_row r ++ [Parser.NL]) as [|c t] eqn:Ht.
    + destruct (text_of_row r); discriminate.
    + rewrite Ho. rewrite <- app_assoc. reflexivity.
  - repeat (rewrite ?length_app, ?length_skipn; simpl List.length).
    unfold Parser.PROCMAPS_LINE_MAX_LENGTH, Parser.PATH_MAX in *. lia.
Qed.

(** [fgets] at the end of the file: the buffer keeps the line read before,
    and the end-of-file indicator is set. *)
Lemma fgets_at_end (b : Parser.carray) (e : bool) :
  Parser.fgets b Parser.PROCMAPS_LINE_MAX_LENGTH
    {| Parser.unread := []; Parser.at_eof := e |}
  = Ok (b, {| Parser.unread := []; Parser.at_eof := true |}).
Proof.
  unfold Parser.fgets. simpl. rewrite orb_true_r. reflexivity.
Qed.

(** ** The node *)

Section Fill.

Variable sscanf_lx : list ascii -> option Z.
Variable atoi : list ascii -> Z.
Variable fresh : nat -> procmaps_struct.

Lemma strcpy_fits (size : nat) (a : Parser.carray) (s : list ascii) :
  word s = true -> starts_with a s -> (List.length s < size)%nat ->
  Parser.strcpy size a = Ok (string_of_list_ascii s).
Proof.
  intros Hw Hs Hl. unfold Parser.strcpy.
  rewrite (starts_with_cstring a s Hw Hs).
  replace (Nat.ltb (List.length s) size) with true
    by (symmetry; apply Nat.ltb_lt; exact Hl).
  reflexivity.
Qed.

Lemma strcpy_overflow (size : nat) (a : Parser.carray) (s : list ascii) :
  word s = true -> starts_with a s -> (size <= List.length s)%nat ->
  Parser.strcpy size a = Undefined.
Proof.
  intros Hw Hs Hl. unfold Parser.strcpy.
  rewrite (starts_with_cstring a s Hw Hs).
  replace (Nat.ltb (List.length s) size) with false
    by (symmetry; apply Nat.ltb_ge; exact Hl).
  reflexivity.
Qed.

Lemma cell_of_field (a : Parser.carray) (s : list ascii) (i : nat) :
  starts_with a s -> (i < List.length s)%nat ->
  Parser.cell a i = Ok (nth i s Parser.NUL).
Proof.
  intros [t Ht] Hi. subst a. unfold Parser.cell.
  rewrite nth_error_app1 by exact Hi.
  rewrite (nth_error_nth' s Parser.NUL Hi). reflexivity.
Qed.

Lemma fill_node_holds (k : nat) (l : Parser.locals) (r : row) :
  clean r = true -> fits r = true -> holds l r ->
  List.length (r_perm r) = 4%nat ->
  (List.length (r_path r) < 600)%nat ->
  Parser.fill_node sscanf_lx atoi fresh k l = Ok (node_of sscanf_lx atoi fresh k r).
Proof.
  intros Hclean Hfits Hholds Hperm Hpath.
  pose proof (clean_spec r Hclean) as
    ((Hw1 & Hd1) & Hw2 & (Hw3 & Hn3) & (Hw4 & Hn4) & (Hw5 & Hn5) & (Hw6 & Hn6)
     & Hpad & Hw7 & _).
  destruct (fits_spec r Hfits) as (F1 & F2 & F3 & F4 & F5 & F6 & F7).
  destruct Hholds as (H1 & H2 & H3 & H4 & H5 & H6 & H7).
  unfold Parser.fill_node.
  rewrite (starts_with_cstring _ _ Hw1 H1), bind_ok.
  rewrite (starts_with_cstring _ _ Hw2 H2), bind_ok.
  rewrite (strcpy_fits 5 _ _ Hw3 H3) by lia. rewrite bind_ok.
  rewrite (cell_of_field _ _ 0 H3) by lia. rewrite bind_ok.
  rewrite (cell_of_field _ _ 1 H3) by lia. rewrite bind_ok.
  rewrite (cell_of_field _ _ 2 H3) by lia. rewrite bind_ok.
  rewrite (cell_of_field _ _ 3 H3) by lia. rewrite bind_ok.
  rewrite (starts_with_cstring _ _ Hw4 H4), bind_ok.
  rewrite (strcpy_fits 12 _ _ Hw5 H5) by lia. rewrite bind_ok.
  rewrite (starts_with_cstring _ _ Hw6 H6), bind_ok.
  rewrite (strcpy_fits 600 _ _ Hw7 H7) by lia. rewrite bind_ok.
  reflexivity.
Qed.

Lemma fill_node_long_path (k : nat) (l : Parser.locals) (r : row) :
  clean r = true -> fits r = true -> holds l r ->
  List.length (r_perm r) = 4%nat ->
  (600 <= List.length (r_path r))%nat ->
  Parser.fill_node sscanf_lx atoi fresh k l = Undefined.
Proof.
  intros Hclean Hfits Hholds Hperm Hpath.
  pose proof (clean_spec r Hclean) as
    ((Hw1 & Hd1) & Hw2 & (Hw3 & Hn3) & (Hw4 & Hn4) & (Hw5 & Hn5) & (Hw6 & Hn6)
     & Hpad & Hw7 & _).
  destruct (fits_spec r Hfits) as (F1 & F2 & F3 & F4 & F5 & F6 & F7).
  destruct Hholds as (H1 & H2 & H3 & H4 & H5 & H6 & H7).
  unfold Parser.fill_node.
  rewrite (starts_with_cstring _ _ Hw1 H1), bind_ok.
  rewrite (starts_with_cstring _ _ Hw2 H2), bind_ok.
  rewrite (strcpy_fits 5 _ _ Hw3 H3) by lia. rewrite bind_ok.
  rewrite (cell_of_field _ _ 0 H3) by lia. rewrite bind_ok.
  rewrite (cell_of_field _ _ 1 H3) by lia. rewrite bind_ok.
  rewrite (cell_of_field _ _ 2 H3) by lia. rewrite bind_ok.
  rewrite (cell_of_field _ _ 3 H3) by lia. rewrite bind_ok.
  rewrite (starts_with_cstring _ _ Hw4 H4), bind_ok.
  rewrite (strcpy_fits 12 _ _ Hw5 H5) by lia. rewrite bind_ok.
  rewrite (starts_with_cstring _ _ Hw6 H6), bind_ok.
  rewrite (strcpy_overflow 600 _ _ Hw7 H7) by lia.
  reflexivity.
Qed.

End Fill.

(** ** The chain *)

Lemma length_chain_from (areas : list procmaps_struct) :
  forall k : nat, List.length (chain_from k areas) = List.length areas.
Proof.
  induction areas as [|a areas IH]; intros k; [reflexivity|].
  simpl. rewrite IH. reflexivity.
Qed.

Lemma length_links (areas : list procmaps_struct) :
  List.length (links areas) = List.length areas.
Proof.
  unfold links. destruct areas as [|a [|b areas]]; try reflexivity.
  apply length_chain_from.
Qed.

Lemma chain_from_attach (a : procmaps_struct) (areas : list procmaps_struct) :
  forall k : nat,
  areas <> [] ->
  Parser.set_next (List.length areas - 1) (Some (k + List.length areas)%nat)
    (chain_from k areas ++ [{| Parser.area := a; Parser.next := None |}])
  = Some (chain_from k (areas ++ [a])).
Proof.
  induction areas as [|b areas IH]; intros k Hne; [contradiction|].
  destruct areas as [|c areas].
  - simpl. rewrite Nat.add_1_r. reflexivity.
  - specialize (IH (S k) ltac:(discriminate)).
    replace (S k + List.length (c :: areas))%nat
      with (k + List.length (b :: c :: areas))%nat in IH by (simpl; lia).
    replace (List.length (b :: c :: areas) - 1)%nat
      with (S (List.length (c :: areas) - 1)) by (simpl; lia).
    change (chain_from k (b :: c :: areas)
            ++ [{| Parser.area := a; Parser.next := None |}])
      with ({| Parser.area := b; Parser.next := Some (S k) |}
            :: (chain_from (S k) (c :: areas)
                ++ [{| Parser.area := a; Parser.next := None |}])).
    cbn [Parser.set_next]. rewrite IH. reflexivity.
Qed.

(** The statements that attach the node, after [areas] have been attached. *)
Lemma links_attach (a : procmaps_struct) (areas : list procmaps_struct) :
  Parser.set_next
    (match areas with [] => 0 | _ :: _ => List.length areas - 1 end)%nat
    (Some (List.length areas))
    (links areas ++ [{| Parser.area := a; Parser.next := None |}])
  = Some (links (areas ++ [a])).
Proof.
  destruct areas as [|b [|c areas]].
  - reflexivity.
  - reflexivity.
  - pose proof (chain_from_attach a (b :: c :: areas) 0 ltac:(discriminate)) as H.
    rewrite Nat.add_0_l in H.
    unfold links at 1.
    replace (links ((b :: c :: areas) ++ [a]))
      with (chain_from 0 ((b :: c :: areas) ++ [a])) by reflexivity.
    exact H.
Qed.

Section Loop.

Variable sscanf_lx : list ascii -> option Z.
Variable atoi : list ascii -> Z.
Variable fresh : nat -> procmaps_struct.

Lemma parsable_spec (r : row) :
  parsable r = true ->
  clean r = true /\ fits r = true /\ List.length (r_perm r) = 4%nat
  /\ (List.length (r_path r) < 600)%nat
  /\ (List.length (line_of r) < Parser.PROCMAPS_LINE_MAX_LENGTH)%nat.
Proof.
  unfold parsable. intros H.
  apply andb_true_iff in H. destruct H as [H H5].
  apply andb_true_iff in H. destruct H as [H H4].
  apply andb_true_iff in H. destruct H as [H H3].
  apply andb_true_iff in H. destruct H as [H1 H2].
  repeat split; try assumption.
  - apply Nat.eqb_eq. assumption.
  - apply Nat.ltb_lt. assumption.
  - apply Nat.ltb_lt. assumption.
Qed.

(** A pass of the loop whose buffer holds the line of [r] after [fgets]. *)
Lemma parse_body_after (st : Parser.frame) (areas : list procmaps_struct)
      (r : row) (junk : list ascii) (f' : Parser.FILE) :
  parsing areas st -> parsable r = true ->
  Parser.fgets (Parser.buf st) Parser.PROCMAPS_LINE_MAX_LENGTH (Parser.file st)
  = Ok (line_of r ++ Parser.NUL :: junk, f') ->
  List.length (line_of r ++ Parser.NUL :: junk) = Parser.PROCMAPS_LINE_MAX_LENGTH ->
  exists st',
    Parser.parse_body sscanf_lx atoi fresh st = Ok st'
    /\ parsing (areas ++ [node_of sscanf_lx atoi fresh (List.length areas) r]) st'
    /\ Parser.file st' = f'
    /\ Parser.buf st' = line_of r ++ Parser.NUL :: junk.
Proof.
  intros (Hb & Hi & Hlm & Hcn & Hbuf & Hsized) Hp Hfgets Hlen.
  destruct (parsable_spec r Hp) as (Hclean & Hfits & Hperm & Hpath & Hline).
  unfold Parser.parse_body. rewrite Hfgets, bind_ok. cbv beta iota.
  destruct (split_line_holds r (Parser.vars st) (Parser.NUL :: junk)
              Hclean Hfits Hsized) as (l' & Hsplit & Hholds & Hsized').
  rewrite Hsplit, bind_ok.
  rewrite (fill_node_holds sscanf_lx atoi fresh _ l' r Hclean Hfits Hholds Hperm Hpath).
  rewrite bind_ok.
  rewrite Hb, length_links, Hi, Hlm, Hcn.
  pose proof (links_attach (node_of sscanf_lx atoi fresh (List.length areas) r) areas)
    as Hattach.
  destruct areas as [|a0 areas'].
  - simpl Nat.eqb. cbv beta iota. simpl in Hattach |- *.
    eexists. split; [reflexivity|].
    unfold parsing. cbn [Parser.blocks Parser.ind Parser.list_maps
                         Parser.current_node Parser.buf Parser.vars Parser.file].
    split; [|split; reflexivity].
    split; [reflexivity|]. split; [reflexivity|]. split; [reflexivity|].
    split; [reflexivity|]. split; [exact Hlen|exact Hsized'].
  - replace (Nat.eqb (List.length (a0 :: areas')) 0) with false by reflexivity.
    cbv beta iota. rewrite Hattach.
    eexists. split; [reflexivity|].
    unfold parsing. cbn [Parser.blocks Parser.ind Parser.list_maps
                         Parser.current_node Parser.buf Parser.vars Parser.file].
    split; [|split; reflexivity].
    split; [reflexivity|].
    split; [rewrite length_app; simpl; lia|].
    split; [reflexivity|].
    split; [simpl; f_equal; rewrite length_app; simpl; lia|].
    split; [exact Hlen|exact Hsized'].
Qed.

(** A pass of the loop on a stream that starts with the line of [r]. *)
Lemma parse_body_row (st : Parser.frame) (areas : list procmaps_struct)
      (r : row) (more : list ascii) :
  parsing areas st -> parsable r = true ->
  Parser.file st = {| Parser.unread := line_of r ++ more; Parser.at_eof := false |} ->
  exists st' junk,
    Parser.parse_body sscanf_lx atoi fresh st = Ok st'
    /\ parsing (areas ++ [node_of sscanf_lx atoi fresh (List.length areas) r]) st'
    /\ Parser.file st' = {| Parser.unread := more; Parser.at_eof := false |}
    /\ Parser.buf st' = line_of r ++ Parser.NUL :: junk.
Proof.
  intros Hinv Hp Hfile.
  destruct (parsable_spec r Hp) as (Hclean & _ & _ & _ & Hline).
  destruct Hinv as (Hb & Hi & Hlm & Hcn & Hbuf & Hsized).
  destruct (fgets_line r more (Parser.buf st) false Hclean Hbuf Hline)
    as (junk & Hfgets & Hlen).
  rewrite <- Hfile in Hfgets.
  destruct (parse_body_after st areas r junk _
              (conj Hb (conj Hi (conj Hlm (conj Hcn (conj Hbuf Hsized)))))
              Hp Hfgets Hlen) as (st' & Hbody & Hinv' & Hf' & Hb').
  exists st', junk. split; [exact Hbody|]. split; [exact Hinv'|].
  split; [exact Hf'|exact Hb'].
Qed.

(** The pass of the loop that finds the stream at its end: the line read
    before is parsed once more. *)
Lemma parse_body_at_end (st : Parser.frame) (areas : list procmaps_struct)
      (r : row) (junk : list ascii) :
  parsing areas st -> parsable r = true ->
  Parser.file st = {| Parser.unread := []; Parser.at_eof := false |} ->
  Parser.buf st = line_of r ++ Parser.NUL :: junk ->
  exists st',
    Parser.parse_body sscanf_lx atoi fresh st = Ok st'
    /\ parsing (areas ++ [node_of sscanf_lx atoi fresh (List.length areas) r]) st'
    /\ Parser.file st' = {| Parser.unread := []; Parser.at_eof := true |}.
Proof.
  intros Hinv Hp Hfile Hbuf.
  pose proof (fgets_at_end (Parser.buf st) false) as Hfgets.
  rewrite <- Hfile in Hfgets. rewrite Hbuf in Hfgets at 2.
  assert (Hlen : List.length (line_of r ++ Parser.NUL :: junk)
                 = Parser.PROCMAPS_LINE_MAX_LENGTH).
  { rewrite <- Hbuf. apply Hinv. }
  destruct (parse_body_after st areas r junk _ Hinv Hp Hfgets Hlen)
    as (st' & Hbody & Hinv' & Hf' & _).
  exists st'. split; [exact Hbody|]. split; [exact Hinv'|exact Hf'].
Qed.

Lemma nodes_from_app (xs ys : list row) :
  forall k : nat,
  nodes_from sscanf_lx atoi fresh k (xs ++ ys)
  = nodes_from sscanf_lx atoi fresh k xs
    ++ nodes_from sscanf_lx atoi fresh (k + List.length xs) ys.
Proof.
  induction xs as [|x xs IH]; intros k.
  - simpl. rewrite Nat.add_0_r. reflexivity.
  - simpl. rewrite IH. do 3 f_equal. lia.
Qed.

Lemma length_nodes_from (rows : list row) :
  forall k : nat,
  List.length (nodes_from sscanf_lx atoi fresh k rows) = List.length rows.
Proof.
  induction rows as [|r rows IH]; intros k; [reflexivity|].
  simpl. rewrite IH. reflexivity.
Qed.

Lemma parse_loop_step (fuel : nat) (st : Parser.frame) :
  Parser.at_eof (Parser.file st) = false ->
  Parser.parse_loop sscanf_lx atoi fresh (S fuel) st
  = (st' <- Parser.parse_body sscanf_lx atoi fresh st ;;
     Parser.parse_loop sscanf_lx atoi fresh fuel st').
Proof.
  intros He. simpl. unfold Parser.feof. rewrite He. reflexivity.
Qed.

Lemma last_cons (r r0 : row) (rows : list row) :
  last (r :: rows) r0 = last rows r.
Proof.
  revert r r0. induction rows as [|x rows IH]; intros r r0; [reflexivity|].
  change (last (r :: x :: rows) r0) with (last (x :: rows) r0).
  rewrite (IH x r0), (IH x r). reflexivity.
Qed.

(** The passes of the loop over well-formed lines: one node for each, and
    the buffer keeps the last line. *)
Lemma parse_loop_rows (rows : list row) :
  forall (st : Parser.frame) (areas : list procmaps_struct)
         (more : list ascii) (fuel : nat) (r0 : row),
  forallb parsable rows = true ->
  parsing areas st ->
  Parser.file st
  = {| Parser.unread := List.concat (map line_of rows) ++ more;
       Parser.at_eof := false |} ->
  exists st',
    Parser.parse_loop sscanf_lx atoi fresh (List.length rows + fuel) st
    = Parser.parse_loop sscanf_lx atoi fresh fuel st'
    /\ parsing (areas ++ nodes_from sscanf_lx atoi fresh (List.length areas) rows) st'
    /\ Parser.file st' = {| Parser.unread := more; Parser.at_eof := false |}
    /\ ((rows = [] ->
         exists junk, Parser.buf st = line_of r0 ++ Parser.NUL :: junk) ->
        exists junk,
          Parser.buf st' = line_of (last rows r0) ++ Parser.NUL :: junk).
Proof.
  induction rows as [|r rows IH]; intros st areas more fuel r0 Hrows Hinv Hfile.
  - exists st. simpl. rewrite app_nil_r.
    split; [reflexivity|]. split; [exact Hinv|]. split; [exact Hfile|].
    intros Hbuf. apply Hbuf. reflexivity.
  - simpl in Hrows. apply andb_true_iff in Hrows. destruct Hrows as [Hr Hrows].
    simpl in Hfile. rewrite <- app_assoc in Hfile.
    destruct (parse_body_row st areas r _ Hinv Hr Hfile)
      as (st1 & junk & Hbody & Hinv1 & Hfile1 & Hbuf1).
    destruct (IH st1 _ more fuel r Hrows Hinv1 Hfile1)
      as (st' & Hloop & Hinv' & Hfile' & Hbuf').
    exists st'. split; [|split; [|split]].
    + simpl List.length. simpl Nat.add.
      rewrite parse_loop_step by (rewrite Hfile; reflexivity).
      rewrite Hbody, bind_ok. exact Hloop.
    + rewrite length_app in Hinv'. simpl List.length in Hinv'.
      rewrite <- app_assoc in Hinv'. simpl app in Hinv'.
      replace (List.length areas + 1)%nat with (S (List.length areas)) in Hinv' by lia.
      exact Hinv'.
    + exact Hfile'.
    + intros _. rewrite last_cons. apply Hbuf'.
      intros _. exists junk. exact Hbuf1.
Qed.

Lemma length_concat_lines (rows : list row) :
  (List.length rows <= List.length (List.concat (map line_of rows)))%nat.
Proof.
  induction rows as [|r rows IH]; [simpl; lia|].
  simpl. rewrite length_app. unfold line_of at 1. rewrite length_app. simpl. lia.
Qed.

(** The loop on a file of well-formed lines: the last line gives two
    nodes. *)
Lemma parse_loop_file (rows : list row) (r : row) (st : Parser.frame) (extra : nat) :
  forallb parsable (rows ++ [r]) = true ->
  parsing [] st ->
  Parser.file st
  = {| Parser.unread := List.concat (map line_of (rows ++ [r]));
       Parser.at_eof := false |} ->
  exists st',
    Parser.parse_loop sscanf_lx atoi fresh (List.length rows + (3 + extra)) st = Ok st'
    /\ parsing (nodes_from sscanf_lx atoi fresh 0 (rows ++ [r; r])) st'.
Proof.
  intros Hrows Hinv Hfile.
  rewrite forallb_app in Hrows. apply andb_true_iff in Hrows.
  destruct Hrows as [Hrows Hr]. simpl in Hr. rewrite andb_true_r in Hr.
  rewrite map_app, concat_app in Hfile. simpl in Hfile. rewrite app_nil_r in Hfile.
  destruct (parse_loop_rows (rows ++ [r]) st [] [] (2 + extra) r) as
    (st1 & Hloop & Hinv1 & Hfile1 & Hbuf1).
  { rewrite forallb_app, Hrows. simpl. rewrite Hr. reflexivity. }
  { exact Hinv. }
  { rewrite map_app, concat_app. simpl. rewrite !app_nil_r. exact Hfile. }
  destruct Hbuf1 as (junk & Hbuf1).
  { intros E. destruct rows; discriminate. }
  rewrite last_last in Hbuf1.
  rewrite length_app in Hloop. simpl List.length in Hloop.
  replace (List.length rows + 1 + (2 + extra))%nat
    with (List.length rows + (3 + extra))%nat in Hloop by lia.
  rewrite Hloop.
  destruct (parse_body_at_end st1 _ r junk Hinv1 Hr Hfile1 Hbuf1)
    as (st2 & Hbody & Hinv2 & Hfile2).
  exists st2. split.
  - change (2 + extra)%nat with (S (S extra)).
    rewrite parse_loop_step by (rewrite Hfile1; reflexivity).
    rewrite Hbody, bind_ok. simpl. unfold Parser.feof. rewrite Hfile2. reflexivity.
  - simpl app in Hinv2. simpl List.length in Hinv2.
    rewrite length_nodes_from in Hinv2.
    replace (rows ++ [r; r]) with ((rows ++ [r]) ++ [r])
      by (rewrite <- app_assoc; reflexivity).
    rewrite (nodes_from_app (rows ++ [r]) [r] 0). simpl. exact Hinv2.
Qed.

End Loop.

Lemma links_chain (areas : list procmaps_struct) :
  (2 <= List.length areas)%nat -> links areas = chain_from 0 areas.
Proof.
  destruct areas as [|a [|b areas]]; simpl; intros H; try lia. reflexivity.
Qed.

Lemma nth_error_chain_from (areas : list procmaps_struct) :
  forall k i : nat,
  nth_error (chain_from k areas) i
  = match nth_error areas i with
    | Some a =>
        Some {| Parser.area := a;
                Parser.next := if Nat.ltb (S i) (List.length areas)
                               then Some (k + S i)%nat else None |}
    | None => None
    end.
Proof.
  induction areas as [|a areas IH]; intros k i.
  - destruct i; reflexivity.
  - destruct i as [|i].
    + simpl. destruct areas as [|b areas]; simpl; [reflexivity|].
      rewrite Nat.add_1_r. reflexivity.
    + simpl nth_error. rewrite IH.
      destruct (nth_error areas i) as [x|]; [|reflexivity].
      simpl List.length.
      change (Nat.ltb (S (S i)) (S (List.length areas)))
        with (Nat.ltb (S i) (List.length areas)).
      replace (S k + S i)%nat with (k + S (S i))%nat by lia. reflexivity.
Qed.

Lemma next_on_chain (areas : list procmaps_struct) (hd : option nat) (i : nat) :
  Parser.pmparser_next (chain_from 0 areas)
    {| Parser.head := hd; Parser.current := ptr (List.length areas) i |}
  = Ok (ptr (List.length areas) i,
        {| Parser.head := hd; Parser.current := ptr (List.length areas) (S i) |}).
Proof.
  unfold Parser.pmparser_next, ptr. cbn [Parser.current Parser.head].
  destruct (Nat.ltb_spec i (List.length areas)) as [Hlt|Hge].
  - rewrite nth_error_chain_from.
    destruct (nth_error areas i) as [a|] eqn:Ha.
    + reflexivity.
    + apply nth_error_None in Ha. lia.
  - replace (Nat.ltb (S i) (List.length areas)) with false
      by (symmetry; apply Nat.ltb_ge; lia).
    reflexivity.
Qed.

Lemma nth_call_on_chain (areas : list procmaps_struct) (hd : option nat) (j : nat) :
  forall i : nat,
  nth_call j (chain_from 0 areas)
    {| Parser.head := hd; Parser.current := ptr (List.length areas) i |}
  = Ok (ptr (List.length areas) (i + j),
        {| Parser.head := hd;
           Parser.current := ptr (List.length areas) (S (i + j)) |}).
Proof.
  induction j as [|j IH]; intros i.
  - simpl. rewrite Nat.add_0_r. apply next_on_chain.
  - simpl. rewrite next_on_chain, bind_ok. cbn [snd].
    rewrite IH. replace (S i + j)%nat with (i + S j)%nat by lia. reflexivity.
Qed.

Lemma existsb_seq (i : nat) : existsb (Nat.eqb i) (seq 0 i) = false.
Proof.
  destruct (existsb (Nat.eqb i) (seq 0 i)) eqn:E; [|reflexivity].
  apply existsb_exists in E. destruct E as (x & Hin & Hx).
  apply in_seq in Hin. apply Nat.eqb_eq in Hx. lia.
Qed.

Lemma free_loop_on_chain (areas : list procmaps_struct) (d : nat) :
  forall (i fuel : nat),
  (i + d = List.length areas)%nat -> (d <= fuel)%nat -> (0 < d)%nat ->
  Parser.free_loop fuel (chain_from 0 areas) (seq 0 i) (Some i)
    (ptr (List.length areas) (S i))
  = Ok (seq 0 (List.length areas)).
Proof.
  induction d as [|d IH]; intros i fuel Hi Hfuel Hd; [lia|].
  destruct fuel as [|fuel]; [lia|].
  simpl Parser.free_loop.
  rewrite existsb_seq. rewrite length_chain_from.
  replace (Nat.ltb i (List.length areas)) with true
    by (symmetry; apply Nat.ltb_lt; lia).
  simpl orb. cbv iota.
  replace (seq 0 i ++ [i]) with (seq 0 (S i)) by (rewrite seq_S; reflexivity).
  unfold ptr.
  destruct (Nat.ltb_spec (S i) (List.length areas)) as [Hlt|Hge].
  - pose proof (existsb_seq (S i)) as He. rewrite He.
    rewrite nth_error_chain_from.
    destruct (nth_error areas (S i)) as [a|] eqn:Ha;
      [|apply nth_error_None in Ha; lia].
    cbn [Parser.next].
    pose proof (IH (S i) fuel ltac:(lia) ltac:(lia) ltac:(lia)) as H.
    unfold ptr in H. rewrite Nat.add_0_l. exact H.
  - assert (S i = List.length areas) as E by lia.
    destruct fuel; rewrite E; reflexivity.
Qed.

(** ** [pmparser_parse] *)

Section Parse.

Variable fopen : string -> option (list ascii).
Variable sscanf_lx : list ascii -> option Z.
Variable atoi : list ascii -> Z.
Variable fresh : nat -> procmaps_struct.
Variable stale : string -> nat -> ascii.

Lemma length_auto (name : string) (size : nat) :
  List.length (Parser.auto stale name size) = size.
Proof.
  unfold Parser.auto. rewrite length_map, length_seq. reflexivity.
Qed.

(** The frame of [pmparser_parse] when it enters its loop. *)
Lemma parsing_init (f : Parser.FILE) :
  parsing []
    {| Parser.file := f;
       Parser.buf := Parser.auto stale "buf" Parser.PROCMAPS_LINE_MAX_LENGTH;
       Parser.vars := {| Parser.addr1 := Parser.auto stale "addr1" 20;
                         Parser.addr2 := Parser.auto stale "addr2" 20;
                         Parser.perm := Parser.auto stale "perm" 8;
                         Parser.offset := Parser.auto stale "offset" 20;
                         Parser.dev := Parser.auto stale "dev" 10;
                         Parser.inode := Parser.auto stale "inode" 30;
                         Parser.pathname := Parser.auto stale "pathname" Parser.PATH_MAX |};
       Parser.blocks := [];
       Parser.ind := 0;
       Parser.list_maps := None;
       Parser.current_node := None |}.
Proof.
  unfold parsing, sized.
  cbn [Parser.blocks Parser.ind Parser.list_maps Parser.current_node Parser.buf
       Parser.vars Parser.addr1 Parser.addr2 Parser.perm Parser.offset Parser.dev
       Parser.inode Parser.pathname].
  rewrite !length_auto. repeat split; reflexivity.
Qed.

(** [pmparser_parse] on a file of well-formed lines. *)
Lemma parse_file (pid : Z) (rows : list row) (r : row) :
  pid < 0 ->
  fopen "/proc/self/maps"%string = Some (List.concat (map line_of (rows ++ [r]))) ->
  forallb parsable (rows ++ [r]) = true ->
  Parser.pmparser_parse fopen sscanf_lx atoi fresh stale pid
  = Ok (Some {| Parser.head := Some 0%nat; Parser.current := Some 0%nat |},
        chain_from 0 (nodes_from sscanf_lx atoi fresh 0 (rows ++ [r; r]))).
Proof.
  intros Hpid Hopen Hrows. unfold Parser.pmparser_parse.
  replace (0 <=? pid) with false by (symmetry; apply Z.leb_gt; lia).
  rewrite Hopen.
  pose proof (length_concat_lines (rows ++ [r])) as Hlen.
  rewrite length_app in Hlen. simpl List.length in Hlen.
  remember (List.length (List.concat (map line_of (rows ++ [r])))) as n eqn:Hn.
  replace (S (S n)) with (List.length rows + (3 + (n - List.length rows - 1)))%nat by lia.
  match goal with
  | |- context [Parser.parse_loop _ _ _ _ ?st] =>
      destruct (parse_loop_file sscanf_lx atoi fresh rows r st
                  (n - List.length rows - 1) Hrows (parsing_init _))
        as (st' & Hloop & Hinv)
  end.
  { cbn [Parser.file]. reflexivity. }
  rewrite Hloop, bind_ok.
  destruct Hinv as (Hb & _ & Hlm & _).
  assert (H2 : (2 <= List.length (nodes_from sscanf_lx atoi fresh 0 (rows ++ [r; r])))%nat).
  { rewrite length_nodes_from, length_app. simpl. lia. }
  rewrite Hb, Hlm, (links_chain _ H2).
  destruct (nodes_from sscanf_lx atoi fresh 0 (rows ++ [r; r])) as [|a t] eqn:E;
    [simpl in H2; lia|].
  reflexivity.
Qed.

(** X22 (pmparser_parse): a line whose path has 600 characters or more,
    which fits the local array [pathname] of PATH_MAX characters, makes
    [strcpy] store past the end of the field [pathname] of the node: the
    behaviour is undefined. *)
Theorem parse_stores_a_long_path_past_the_node
        (pid : Z) (rows : list row) (bad : row) (more : list ascii) :
  pid < 0 ->
  fopen "/proc/self/maps"%string
  = Some (List.concat (map line_of rows) ++ line_of bad ++ more) ->
  forallb parsable rows = true ->
  clean bad = true -> fits bad = true ->
  List.length (r_perm bad) = 4%nat ->
  (List.length (line_of bad) < Parser.PROCMAPS_LINE_MAX_LENGTH)%nat ->
  (600 <= List.length (r_path bad))%nat ->
  Parser.pmparser_parse fopen sscanf_lx atoi fresh stale pid = Undefined.
Proof.
  intros Hpid Hopen Hrows Hclean Hfits Hperm Hline Hpath.
  unfold Parser.pmparser_parse.
  replace (0 <=? pid) with false by (symmetry; apply Z.leb_gt; lia).
  rewrite Hopen.
  pose proof (length_concat_lines rows) as Hlen.
  remember (List.length (List.concat (map line_of rows) ++ line_of bad ++ more))
    as n eqn:Hn.
  assert (Hn' : (List.length rows <= n)%nat).
  { subst n. rewrite length_app. lia. }
  replace (S (S n)) with (List.length rows + (S (S (n - List.length rows))))%nat by lia.
  match goal with
  | |- context [Parser.parse_loop _ _ _ _ ?st] =>
      destruct (parse_loop_rows sscanf_lx atoi fresh rows st []
                  (line_of bad ++ more) (S (S (n - List.length rows))) bad Hrows
                  (parsing_init _))
        as (st' & Hloop & Hinv & Hfile & _)
  end.
  { cbn [Parser.file]. reflexivity. }
  rewrite Hloop.
  rewrite parse_loop_step by (rewrite Hfile; reflexivity).
  destruct Hinv as (Hb & Hi & Hlm & Hcn & Hbuf & Hsized).
  destruct (fgets_line bad more (Parser.buf st') false Hclean Hbuf Hline)
    as (junk & Hfgets & Hl).
  rewrite <- Hfile in Hfgets.
  unfold Parser.parse_body. rewrite Hfgets, bind_ok. cbv beta iota.
  destruct (split_line_holds bad (Parser.vars st') (Parser.NUL :: junk)
              Hclean Hfits Hsized) as (l' & Hsplit & Hholds & _).
  rewrite Hsplit, bind_ok.
  rewrite (fill_node_long_path sscanf_lx atoi fresh _ l' bad Hclean Hfits Hholds
             Hperm Hpath).
  reflexivity.
Qed.

End Parse.

(** ** The properties of the parser *)

(** X19 (_pmparser_split_line): on a well-formed line whose parts fit the
    arrays, the function returns and leaves in the seven arrays the two
    addresses, the permissions, the offset, the device, the inode and the
    path as NUL-terminated strings; the path ends at the first blank, so
    that what follows it on the line (such as a deletion mark) is dropped,
    and it is empty for a line without a path. *)
Theorem split_line_recovers_the_fields
        (r : row) (l : Parser.locals) (junk : list ascii) :
  clean r = true -> fits r = true -> sized l ->
  exists l',
    Parser._pmparser_split_line (line_of r ++ junk) l = Ok l'
    /\ Parser.cstring (Parser.addr1 l') = Some (r_addr1 r)
    /\ Parser.cstring (Parser.addr2 l') = Some (r_addr2 r)
    /\ Parser.cstring (Parser.perm l') = Some (r_perm r)
    /\ Parser.cstring (Parser.offset l') = Some (r_offset r)
    /\ Parser.cstring (Parser.dev l') = Some (r_dev r)
    /\ Parser.cstring (Parser.inode l') = Some (r_inode r)
    /\ Parser.cstring (Parser.pathname l') = Some (r_path r)
    /\ sized l'.
Proof.
  intros Hclean Hfits Hsized.
  destruct (split_line_holds r l junk Hclean Hfits Hsized)
    as (l' & Hsplit & Hholds & Hsized').
  pose proof (clean_spec r Hclean) as
    ((Hw1 & _) & Hw2 & (Hw3 & _) & (Hw4 & _) & (Hw5 & _) & (Hw6 & _) & _ & Hw7 & _).
  destruct Hholds as (H1 & H2 & H3 & H4 & H5 & H6 & H7).
  exists l'. split; [exact Hsplit|].
  split; [apply starts_with_cstring; assumption|].
  split; [apply starts_with_cstring; assumption|].
  split; [apply starts_with_cstring; assumption|].
  split; [apply starts_with_cstring; assumption|].
  split; [apply starts_with_cstring; assumption|].
  split; [apply starts_with_cstring; assumption|].
  split; [apply starts_with_cstring; assumption|].
  exact Hsized'.
Qed.

Lemma locals_example_sized : sized locals_example.
Proof.
  unfold sized, locals_example. cbn [Parser.addr1 Parser.addr2 Parser.perm
    Parser.offset Parser.dev Parser.inode Parser.pathname].
  rewrite !repeat_length. repeat split; reflexivity.
Qed.

Lemma split_line_recovers_the_fields_witness :
  exists l',
    Parser._pmparser_split_line (line_of row_text ++ []) locals_example = Ok l'
    /\ Parser.cstring (Parser.addr1 l') = Some (r_addr1 row_text)
    /\ Parser.cstring (Parser.addr2 l') = Some (r_addr2 row_text)
    /\ Parser.cstring (Parser.perm l') = Some (r_perm row_text)
    /\ Parser.cstring (Parser.offset l') = Some (r_offset row_text)
    /\ Parser.cstring (Parser.dev l') = Some (r_dev row_text)
    /\ Parser.cstring (Parser.inode l') = Some (r_inode row_text)
    /\ Parser.cstring (Parser.pathname l') = Some (r_path row_text)
    /\ sized l'.
Proof.
  apply (split_line_recovers_the_fields row_text locals_example []).
  - reflexivity.
  - reflexivity.
  - exact locals_example_sized.
Defined.

Lemma split_line_stores_past_a_short_array_witness :
  Parser._pmparser_split_line (line_of row_wide ++ []) locals_example = Undefined.
Proof.
  apply (split_line_stores_past_a_short_array row_wide locals_example []).
  - reflexivity.
  - reflexivity.
  - exact locals_example_sized.
Defined.

(** X21 (pmparser_parse): on a memory map of well-formed lines the function
    returns an iterator at the head of a chain that has one node for every
    line, in the order of the file, and one node more: as the loop tests
    [feof] before it reads, its last pass finds the file at its end and
    parses the buffer, which still holds the last line, once again. *)
Theorem parse_repeats_the_last_line
        (fopen : string -> option (list ascii))
        (sscanf_lx : list ascii -> option Z) (atoi : list ascii -> Z)
        (fresh : nat -> procmaps_struct) (stale : string -> nat -> ascii)
        (pid : Z) (rows : list row) (r : row) :
  pid < 0 ->
  fopen "/proc/self/maps"%string = Some (List.concat (map line_of (rows ++ [r]))) ->
  forallb parsable (rows ++ [r]) = true ->
  Parser.pmparser_parse fopen sscanf_lx atoi fresh stale pid
  = Ok (Some {| Parser.head := Some 0%nat; Parser.current := Some 0%nat |},
        chain_from 0 (nodes_from sscanf_lx atoi fresh 0 (rows ++ [r; r]))).
Proof.
  apply parse_file.
Qed.

Lemma parse_repeats_the_last_line_witness :
  Parser.pmparser_parse
    (fopen_example (List.concat (map line_of ([row_text] ++ [row_anon]))))
    sscanf_example atoi_example fresh_example stale_example (-1)
  = Ok (Some {| Parser.head := Some 0%nat; Parser.current := Some 0%nat |},
        chain_from 0 (nodes_from sscanf_example atoi_example fresh_example 0
                        ([row_text] ++ [row_anon; row_anon]))).
Proof.
  apply parse_repeats_the_last_line.
  - lia.
  - reflexivity.
  - vm_compute. reflexivity.
Defined.

Lemma parse_stores_a_long_path_past_the_node_witness :
  Parser.pmparser_parse
    (fopen_example (List.concat (map line_of [row_anon]) ++ line_of row_deep ++ []))
    sscanf_example atoi_example fresh_example stale_example (-1)
  = Undefined.
Proof.
  apply (parse_stores_a_long_path_past_the_node _ _ _ _ _ (-1) [row_anon] row_deep []).
  - lia.
  - reflexivity.
  - vm_compute. reflexivity.
  - vm_compute. reflexivity.
  - vm_compute. reflexivity.
  - vm_compute. reflexivity.
  - vm_compute. lia.
  - vm_compute. lia.
Defined.

(** The first pass of the loop, when it finds the file at its end. *)
Lemma parse_body_first_at_end
      (sscanf_lx : list ascii -> option Z) (atoi : list ascii -> Z)
      (fresh : nat -> procmaps_struct) (st st' : Parser.frame) :
  Parser.ind st = 0%nat -> Parser.blocks st = [] ->
  Parser.file st = {| Parser.unread := []; Parser.at_eof := false |} ->
  Parser.parse_body sscanf_lx atoi fresh st = Ok st' ->
  exists a,
    Parser.blocks st' = [{| Parser.area := a; Parser.next := Some 0%nat |}]
    /\ Parser.list_maps st' = Some 0%nat
    /\ Parser.file st' = {| Parser.unread := []; Parser.at_eof := true |}.
Proof.
  intros Hind Hblocks Hfile Hbody.
  unfold Parser.parse_body in Hbody.
  rewrite Hfile, fgets_at_end, bind_ok in Hbody. cbv beta iota in Hbody.
  destruct (Parser._pmparser_split_line _ _) as [l'| |]; try discriminate.
  rewrite bind_ok in Hbody.
  destruct (Parser.fill_node _ _ _ _ _) as [a| |]; try discriminate.
  rewrite bind_ok in Hbody.
  rewrite Hind, Hblocks in Hbody. simpl in Hbody.
  inversion Hbody; subst st'. exists a. repeat split.
Qed.

Lemma nth_call_on_knot (a : procmaps_struct) (i : nat) :
  nth_call i [{| Parser.area := a; Parser.next := Some 0%nat |}]
    {| Parser.head := Some 0%nat; Parser.current := Some 0%nat |}
  = Ok (Some 0%nat,
        {| Parser.head := Some 0%nat; Parser.current := Some 0%nat |}).
Proof.
  induction i as [|i IH]; [reflexivity|].
  simpl. exact IH.
Qed.

(** X23 (pmparser_parse, pmparser_next, pmparser_free): on an empty memory
    map the loop runs once, on what the buffer held before the call.  When
    the function returns, it has made a single node, which is its own
    successor: [pmparser_next] hands it out at every call and never returns
    NULL, and [pmparser_free] reads it after it has freed it. *)
Theorem parse_of_an_empty_file_ties_a_knot
        (fopen : string -> option (list ascii))
        (sscanf_lx : list ascii -> option Z) (atoi : list ascii -> Z)
        (fresh : nat -> procmaps_struct) (stale : string -> nat -> ascii)
        (pid : Z) (oit : option Parser.procmaps_iterator) (h : Parser.heap) :
  pid < 0 ->
  fopen "/proc/self/maps"%string = Some [] ->
  Parser.pmparser_parse fopen sscanf_lx atoi fresh stale pid = Ok (oit, h) ->
  let it := {| Parser.head := Some 0%nat; Parser.current := Some 0%nat |} in
  oit = Some it
  /\ (exists a, h = [{| Parser.area := a; Parser.next := Some 0%nat |}])
  /\ (forall i : nat, nth_call i h it = Ok (Some 0%nat, it))
  /\ Parser.pmparser_free h it = Undefined.
Proof.
  intros Hpid Hopen Hparse it.
  unfold Parser.pmparser_parse in Hparse.
  replace (0 <=? pid) with false in Hparse by (symmetry; apply Z.leb_gt; lia).
  rewrite Hopen in Hparse.
  change (List.length (@nil ascii)) with 0%nat in Hparse.
  match type of Hparse with
  | context [Parser.parse_loop _ _ _ _ ?st] =>
      assert (Hind : Parser.ind st = 0%nat) by reflexivity;
      assert (Hblocks : Parser.blocks st = []) by reflexivity;
      assert (Hfile : Parser.file st
                      = {| Parser.unread := []; Parser.at_eof := false |})
        by reflexivity;
      remember st as st0 eqn:Hst0
  end.
  clear Hst0.
  rewrite parse_loop_step in Hparse by (rewrite Hfile; reflexivity).
  destruct (Parser.parse_body sscanf_lx atoi fresh st0) as [st1| |] eqn:Hbody;
    try discriminate.
  rewrite bind_ok in Hparse.
  destruct (parse_body_first_at_end sscanf_lx atoi fresh st0 st1 Hind Hblocks Hfile Hbody)
    as (a & Hb1 & Hl1 & Hf1).
  simpl in Hparse. unfold Parser.feof in Hparse. rewrite Hf1 in Hparse.
  cbn [Parser.at_eof] in Hparse. rewrite bind_ok, Hb1, Hl1 in Hparse.
  inversion Hparse; subst oit h.
  split; [reflexivity|]. split; [exists a; reflexivity|]. split.
  - intros i. apply nth_call_on_knot.
  - reflexivity.
Qed.

Lemma parse_of_an_empty_file_ties_a_knot_witness :
  let it := {| Parser.head := Some 0%nat; Parser.current := Some 0%nat |} in
  Some it = Some it
  /\ (exists a,
        [{| Parser.area := node_of sscanf_example atoi_example fresh_example 0 row_anon;
            Parser.next := Some 0%nat |}]
        = [{| Parser.area := a; Parser.next := Some 0%nat |}])
  /\ (forall i : nat,
        nth_call i
          [{| Parser.area := node_of sscanf_example atoi_example fresh_example 0 row_anon;
              Parser.next := Some 0%nat |}] it
        = Ok (Some 0%nat, it))
  /\ Parser.pmparser_free
       [{| Parser.area := node_of sscanf_example atoi_example fresh_example 0 row_anon;
           Parser.next := Some 0%nat |}] it
     = Undefined.
Proof.
  apply (parse_of_an_empty_file_ties_a_knot (fopen_example []) sscanf_example
           atoi_example fresh_example stale_example (-1)).
  - lia.
  - reflexivity.
  - vm_compute. reflexivity.
Defined.

(** X24 (pmparser_parse, pmparser_next): after [pmparser_parse] on a memory
    map of [n] well-formed lines, the call number [i] of [pmparser_next]
    (from 0) returns the node of the line [i] for [i < n], the second node
    of the last line for [i = n], and NULL for every later call. *)
Theorem next_hands_out_the_lines_in_order
        (fopen : string -> option (list ascii))
        (sscanf_lx : list ascii -> option Z) (atoi : list ascii -> Z)
        (fresh : nat -> procmaps_struct) (stale : string -> nat -> ascii)
        (pid : Z) (rows : list row) (r : row) (i : nat) :
  pid < 0 ->
  fopen "/proc/self/maps"%string = Some (List.concat (map line_of (rows ++ [r]))) ->
  forallb parsable (rows ++ [r]) = true ->
  exists it h,
    Parser.pmparser_parse fopen sscanf_lx atoi fresh stale pid = Ok (Some it, h)
    /\ nth_call i h it
       = Ok (ptr (List.length rows + 2) i,
             {| Parser.head := Some 0%nat;
                Parser.current := ptr (List.length rows + 2) (S i) |})
    /\ area_at h (ptr (List.length rows + 2) i)
       = nth_error (nodes_from sscanf_lx atoi fresh 0 (rows ++ [r; r])) i.
Proof.
  intros Hpid Hopen Hrows.
  pose proof (parse_file fopen sscanf_lx atoi fresh stale pid rows r Hpid Hopen Hrows)
    as Hparse.
  eexists. eexists. split; [exact Hparse|].
  set (areas := nodes_from sscanf_lx atoi fresh 0 (rows ++ [r; r])).
  assert (Hlen : List.length areas = (List.length rows + 2)%nat).
  { unfold areas. rewrite length_nodes_from, length_app. reflexivity. }
  rewrite <- Hlen. split.
  - pose proof (nth_call_on_chain areas (Some 0%nat) i 0) as H.
    replace (ptr (List.length areas) 0) with (Some 0%nat) in H
      by (unfold ptr; rewrite Hlen, Nat.add_comm; reflexivity).
    exact H.
  - unfold area_at, ptr.
    destruct (Nat.ltb_spec i (List.length areas)) as [Hlt|Hge].
    + rewrite nth_error_chain_from.
      destruct (nth_error areas i) as [a|]; reflexivity.
    + symmetry. apply nth_error_None. exact Hge.
Qed.

Lemma next_hands_out_the_lines_in_order_witness :
  exists it h,
    Parser.pmparser_parse
      (fopen_example (List.concat (map line_of ([row_text] ++ [row_anon]))))
      sscanf_example atoi_example fresh_example stale_example (-1)
    = Ok (Some it, h)
    /\ nth_call 3 h it
       = Ok (ptr (List.length [row_text] + 2) 3,
             {| Parser.head := Some 0%nat;
                Parser.current := ptr (List.length [row_text] + 2) (S 3) |})
    /\ area_at h (ptr (List.length [row_text] + 2) 3)
       = nth_error (nodes_from sscanf_example atoi_example fresh_example 0
                      ([row_text] ++ [row_anon; row_anon])) 3.
Proof.
  apply next_hands_out_the_lines_in_order.
  - lia.
  - reflexivity.
  - vm_compute. reflexivity.
Defined.

(** X25 (pmparser_parse, pmparser_free): after [pmparser_parse] on a memory
    map of well-formed lines, [pmparser_free] returns and has freed every
    node of the chain once, from the head on. *)
Theorem free_releases_every_node_once
        (fopen : string -> option (list ascii))
        (sscanf_lx : list ascii -> option Z) (atoi : list ascii -> Z)
        (fresh : nat -> procmaps_struct) (stale : string -> nat -> ascii)
        (pid : Z) (rows : list row) (r : row) :
  pid < 0 ->
  fopen "/proc/self/maps"%string = Some (List.concat (map line_of (rows ++ [r]))) ->
  forallb parsable (rows ++ [r]) = true ->
  exists it h,
    Parser.pmparser_parse fopen sscanf_lx atoi fresh stale pid = Ok (Some it, h)
    /\ List.length h = (List.length rows + 2)%nat
    /\ Parser.pmparser_free h it = Ok (seq 0 (List.length h)).
Proof.
  intros Hpid Hopen Hrows.
  pose proof (parse_file fopen sscanf_lx atoi fresh stale pid rows r Hpid Hopen Hrows)
    as Hparse.
  eexists. eexists. split; [exact Hparse|].
  set (areas := nodes_from sscanf_lx atoi fresh 0 (rows ++ [r; r])).
  assert (Hlen : List.length areas = (List.length rows + 2)%nat).
  { unfold areas. rewrite length_nodes_from, length_app. reflexivity. }
  rewrite length_chain_from. split; [exact Hlen|].
  unfold Parser.pmparser_free. cbn [Parser.head].
  rewrite nth_error_chain_from.
  destruct (nth_error areas 0) as [a|] eqn:Ha;
    [|apply nth_error_None in Ha; lia].
  cbn [Parser.next]. rewrite length_chain_from.
  pose proof (free_loop_on_chain areas (List.length areas) 0
                (S (List.length areas)) eq_refl ltac:(lia) ltac:(lia)) as H.
  unfold ptr in H. simpl seq in H. exact H.
Qed.

Lemma free_releases_every_node_once_witness :
  exists it h,
    Parser.pmparser_parse
      (fopen_example (List.concat (map line_of ([row_text] ++ [row_anon]))))
      sscanf_example atoi_example fresh_example stale_example (-1)
    = Ok (Some it, h)
    /\ List.length h = (List.length [row_text] + 2)%nat
    /\ Parser.pmparser_free h it = Ok (seq 0 (List.length h)).
Proof.
  apply (free_releases_every_node_once _ _ _ _ _ (-1) [row_text] row_anon).
  - lia.
  - reflexivity.
  - vm_compute. reflexivity.
Defined.

(** * The parser under [load_maps] *)

Lemma skipn_nth_error {A : Type} (l : list A) :
  forall (i : nat) (a : A),
  nth_error l i = Some a -> skipn i l = a :: skipn (S i) l.
Proof.
  induction l as [|x l IH]; intros i a H.
  - destruct i; discriminate.
  - destruct i as [|i].
    + simpl in H. inversion H. reflexivity.
    + simpl in H. simpl skipn at 1. rewrite (IH i a H). reflexivity.
Qed.

(** On a well-formed chain the loop of [load_maps] goes through the nodes
    in order. *)
Lemma handed_out_chain (areas : list procmaps_struct) (hd : option nat) (d : nat) :
  forall i : nat,
  (i + d = List.length areas)%nat ->
  handed_out d (chain_from 0 areas)
    {| Parser.head := hd; Parser.current := ptr (List.length areas) i |}
  = skipn i areas.
Proof.
  induction d as [|d IH]; intros i Hi.
  - simpl. rewrite skipn_all2 by lia. reflexivity.
  - simpl handed_out. rewrite next_on_chain.
    unfold ptr at 1.
    replace (Nat.ltb i (List.length areas)) with true
      by (symmetry; apply Nat.ltb_lt; lia).
    rewrite nth_error_chain_from.
    destruct (nth_error areas i) as [a|] eqn:Ha;
      [|apply nth_error_None in Ha; lia].
    cbn [Parser.area]. rewrite IH by lia.
    symmetry. apply skipn_nth_error. exact Ha.
Qed.

Section ParserUnderLoadMaps.

Variables REMAP_ADDR WRITE_IGNORED_ADDR GOT_PLT_ADDR : Z.

(** X26 (pmparser_parse, pmparser_next, load_maps): the node that
    [pmparser_parse] makes of the last line a second time reaches the
    harness: when the last line of the memory map passes the tests of
    [load_maps], it is entered into the table of monitored regions twice,
    as its last two entries. *)
Theorem last_line_is_monitored_twice
        (fopen : string -> option (list ascii))
        (sscanf_lx : list ascii -> option Z) (atoi : list ascii -> Z)
        (fresh : nat -> procmaps_struct) (stale : string -> nat -> ascii)
        (pid : Z) (rows : list row) (r : row) (e : environment) (w : world) :
  pid < 0 ->
  fopen "/proc/self/maps"%string = Some (List.concat (map line_of (rows ++ [r]))) ->
  forallb parsable (rows ++ [r]) = true ->
  (forall it h,
     Parser.pmparser_parse fopen sscanf_lx atoi fresh stale pid = Ok (Some it, h) ->
     proc_maps e = Some (handed_out (List.length h) h it)) ->
  kept REMAP_ADDR WRITE_IGNORED_ADDR GOT_PLT_ADDR
    (node_of sscanf_lx atoi fresh (List.length rows) r) = true ->
  kept REMAP_ADDR WRITE_IGNORED_ADDR GOT_PLT_ADDR
    (node_of sscanf_lx atoi fresh (S (List.length rows)) r) = true ->
  n_maps w + Z.of_nat (List.length rows + 2) <= MAPS_CAPACITY ->
  exists w' before,
    load_maps REMAP_ADDR WRITE_IGNORED_ADDR GOT_PLT_ADDR e w = Ok (0, w')
    /\ maps w'
       = maps w ++ before
         ++ [node_of sscanf_lx atoi fresh (List.length rows) r;
             node_of sscanf_lx atoi fresh (S (List.length rows)) r].
Proof.
  intros Hpid Hopen Hrows Henv Hk1 Hk2 Hroom.
  pose proof (parse_file fopen sscanf_lx atoi fresh stale pid rows r Hpid Hopen Hrows)
    as Hparse.
  specialize (Henv _ _ Hparse).
  set (areas := nodes_from sscanf_lx atoi fresh 0 (rows ++ [r; r])) in *.
  assert (Hlen : List.length areas = (List.length rows + 2)%nat).
  { unfold areas. rewrite length_nodes_from, length_app. reflexivity. }
  rewrite length_chain_from in Henv.
  assert (Hout : handed_out (List.length areas) (chain_from 0 areas)
                   {| Parser.head := Some 0%nat; Parser.current := Some 0%nat |}
                 = areas).
  { pose proof (handed_out_chain areas (Some 0%nat) (List.length areas) 0 eq_refl) as H.
    replace (ptr (List.length areas) 0) with (Some 0%nat) in H
      by (unfold ptr; rewrite Hlen, Nat.add_comm; reflexivity).
    exact H. }
  rewrite Hout in Henv.
  assert (Hsplit : areas
                   = nodes_from sscanf_lx atoi fresh 0 rows
                     ++ [node_of sscanf_lx atoi fresh (List.length rows) r;
                         node_of sscanf_lx atoi fresh (S (List.length rows)) r]).
  { unfold areas. rewrite nodes_from_app. reflexivity. }
  destruct (load_maps_loop_filter REMAP_ADDR WRITE_IGNORED_ADDR GOT_PLT_ADDR areas w)
    as (w' & Hloop & Hmaps & _).
  { pose proof (filter_length_le (kept REMAP_ADDR WRITE_IGNORED_ADDR GOT_PLT_ADDR) areas).
    lia. }
  exists w', (filter (kept REMAP_ADDR WRITE_IGNORED_ADDR GOT_PLT_ADDR)
                (nodes_from sscanf_lx atoi fresh 0 rows)).
  split.
  - unfold load_maps. rewrite Henv, Hloop. reflexivity.
  - rewrite Hmaps, Hsplit, filter_app. simpl filter. rewrite Hk1, Hk2. reflexivity.
Qed.

End ParserUnderLoadMaps.

Lemma last_line_is_monitored_twice_witness :
  exists w' before,
    load_maps 0x700000 0x800000 0x603000 env_parsed world_init = Ok (0, w')
    /\ maps w'
       = maps world_init ++ before
         ++ [node_of sscanf_example atoi_example fresh_example
               (List.length [row_text]) row_anon;
             node_of sscanf_example atoi_example fresh_example
               (S (List.length [row_text])) row_anon].
Proof.
  apply (last_line_is_monitored_twice 0x700000 0x800000 0x603000
           (fopen_example content_example) sscanf_example atoi_example
           fresh_example stale_example (-1) [row_text] row_anon
           env_parsed world_init).
  - lia.
  - reflexivity.
  - vm_compute. reflexivity.
  - intros it h H. vm_compute in H. inversion H. subst it h.
    vm_compute. reflexivity.
  - vm_compute. reflexivity.
  - vm_compute. reflexivity.
  - vm_compute. discriminate.
Defined.
